(** * usbguard: rule-parser actions, LinuxDevice and LinuxDeviceManager

    A shallow embedding of the rule-parser semantic actions
    (RuleParser actions header), of [FixedStateCondition] and of the Linux
    device manager ([LinuxDevice], [LinuxDeviceManager]), with the
    properties of the design document checked against them.

    Conventions.  A C++ function that may throw returns a [result]; a
    member function that reads or writes the manager, sysfs or the hooks is
    a computation in the monad [M], which threads the [World] and keeps
    every effect performed before a throw.  Maps ([std::map]) are stdpp
    [gmap]s, [std::vector] is [list], [uint32_t] identifiers are [N],
    bytes and [int] values are [Z]. *)

From stdpp Require Import gmap strings list.
From Stdlib Require Import ZArith Ascii.

Local Open Scope Z_scope.

(** ** Exceptions and results *)

Inductive exception :=
| runtime_error (what : string)
| out_of_range (what : string)
| logic_error (what : string).

Inductive result (A : Type) :=
| Ok (a : A)
| Throw (e : exception).
Arguments Ok {A} a.
Arguments Throw {A} e.

Definition result_bind {A B} (r : result A) (k : A → result B) : result B :=
  match r with
  | Ok a => k a
  | Throw e => Throw e
  end.

Definition is_Throw {A} (r : result A) : bool :=
  match r with
  | Ok _ => false
  | Throw _ => true
  end.

#[global] Instance result_ret : MRet result := λ A a, Ok a.
#[global] Instance result_mbind : MBind result := λ A B k r, result_bind r k.

(** ** Strings *)

Module Str.

(** [std::string::substr(0, n)]: the first [n] characters, or the whole
    string when it is shorter. *)
Definition substr0 (n : nat) (s : string) : string := String.substring 0 n s.

Definition chars (s : string) : list Ascii.ascii := String.list_ascii_of_string s.
Definition of_chars (l : list Ascii.ascii) : string := String.string_of_list_ascii l.

Definition code (c : Ascii.ascii) : Z := Z.of_N (Ascii.N_of_ascii c).

(** Splitting at a delimiter character; empty fields are kept. *)
Fixpoint split_chars (d : Ascii.ascii) (cur : list Ascii.ascii)
         (l : list Ascii.ascii) : list string :=
  match l with
  | [] => [of_chars (rev cur)]
  | c :: l' =>
      if Ascii.eqb c d then of_chars (rev cur) :: split_chars d [] l'
      else split_chars d (c :: cur) l'
  end.

Definition hex_digit (c : Ascii.ascii) : option Z :=
  let n := code c in
  if (48 <=? n) && (n <=? 57) then Some (n - 48)
  else if (97 <=? n) && (n <=? 102) then Some (n - 87)
  else if (65 <=? n) && (n <=? 70) then Some (n - 55)
  else None.

End Str.

(** Modelled from the spec: [tokenizeString] lives in Common/Utility, which
    is not part of the sources at hand; the actions call it with the single
    delimiter [":"] on a text that the grammar matched as two fields. *)
Definition tokenizeString (s : string) (d : Ascii.ascii) : list string :=
  Str.split_chars d [] (Str.chars s).

(** ** USB interface types and device identifiers *)

(** Modelled from the spec: the [USBInterfaceType] class (USB.hpp) is not
    part of the sources at hand.  Section 3 of the design document: a
    3-tuple (class, subclass, protocol), each component a byte or the
    wildcard; [None] is the wildcard. *)
Record USBInterfaceType := mkUSBInterfaceType {
  bClass : option Z;
  bSubClass : option Z;
  bProtocol : option Z
}.

#[global] Instance USBInterfaceType_eq_dec : EqDecision USBInterfaceType.
Proof. solve_decision. Defined.

(** One component of [a.appliesTo(b)]: a wildcard component of [a] accepts
    anything, a concrete one must equal the component of [b]. *)
Definition component_applies (a b : option Z) : bool :=
  match a with
  | None => true
  | Some x => bool_decide (b = Some x)
  end.

(** Modelled from the spec: "[a.applies_to(b)] holds when every
    non-wildcard component of [a] equals [b]'s corresponding component". *)
Definition appliesTo (a b : USBInterfaceType) : bool :=
  component_applies (bClass a) (bClass b)
  && component_applies (bSubClass a) (bSubClass b)
  && component_applies (bProtocol a) (bProtocol b).

(** A field of the textual form: ["*"] or exactly two hex digits. *)
Definition parse_hexbyte (s : string) : result (option Z) :=
  match Str.chars s with
  | [c] =>
      if Ascii.eqb c "*"%char then Ok None
      else Throw (runtime_error "Invalid type string")
  | [h; l] =>
      match Str.hex_digit h, Str.hex_digit l with
      | Some x, Some y => Ok (Some (16 * x + y))
      | _, _ => Throw (runtime_error "Invalid type string")
      end
  | _ => Throw (runtime_error "Invalid type string")
  end.

(** Modelled from the spec: the constructor from the string form
    ["CC:SS:PP"], strict two-digit hex fields, ["*"] for any field; a
    malformed string throws (MalformedInterface). *)
Definition USBInterfaceType_of_string (s : string) : result USBInterfaceType :=
  match tokenizeString s ":"%char with
  | [c; sc; p] =>
      c' ← parse_hexbyte c;
      sc' ← parse_hexbyte sc;
      p' ← parse_hexbyte p;
      Ok (mkUSBInterfaceType c' sc' p')
  | _ => Throw (runtime_error "Invalid type string")
  end.

(** Modelled from the spec: [USBDeviceID] (USB.hpp) is not part of the
    sources at hand; a pair of strings, each empty, the wildcard ["*"] or
    four hex digits, and a wildcard vendor forces a wildcard product. *)
Record USBDeviceID := mkUSBDeviceID {
  vendor_id : string;
  product_id : string
}.

#[global] Instance USBDeviceID_eq_dec : EqDecision USBDeviceID.
Proof. solve_decision. Defined.

Definition valid_id_component (s : string) : bool :=
  match Str.chars s with
  | [] => true
  | [c] => Ascii.eqb c "*"%char
  | [a; b; c; d] =>
      forallb (λ x, bool_decide (is_Some (Str.hex_digit x))) [a; b; c; d]
  | _ => false
  end.

Definition USBDeviceID_new (vendor product : string) : result USBDeviceID :=
  if valid_id_component vendor && valid_id_component product
     && (negb (String.eqb vendor "*") || String.eqb product "*")
  then Ok (mkUSBDeviceID vendor product)
  else Throw (runtime_error "Invalid USB device id format").

(** ** Rule targets *)

(** Modelled from the spec: [Rule::Target] (Rule.hpp is not part of the
    sources at hand); the sources use [Allow], [Block], [Reject] and
    [Unknown]. *)
Module Target.
Inductive t := Allow | Block | Reject | Match | Device | Unknown.

#[global] Instance eq_dec : EqDecision t.
Proof. solve_decision. Defined.
End Target.

(** Modelled from the spec: "0 reserved as root". *)
Definition Rule_RootID : N := 0%N.

(** ** Devices *)

(** Modelled from the spec: the fields of the [Device] base class
    (section 3, Device), named after the accessors the sources call, plus
    [LinuxDevice::_syspath].  [getID] is [None] until the manager assigns an
    identifier. *)
Record LinuxDevice := mkLinuxDevice {
  getID : option N;
  getParentID : N;
  getName : string;
  getDeviceID : USBDeviceID;
  getSerial : string;
  getPort : string;
  getInterfaceTypes : list USBInterfaceType;
  getHash : string;
  getParentHash : string;
  getTarget : Target.t;
  getSysPath : string
}.

#[global] Instance LinuxDevice_eq_dec : EqDecision LinuxDevice.
Proof. solve_decision. Defined.

Definition setID (v : N) (d : LinuxDevice) : LinuxDevice :=
  mkLinuxDevice (Some v) (getParentID d) (getName d) (getDeviceID d) (getSerial d)
    (getPort d) (getInterfaceTypes d) (getHash d) (getParentHash d) (getTarget d)
    (getSysPath d).
Definition setParentID (v : N) (d : LinuxDevice) : LinuxDevice :=
  mkLinuxDevice (getID d) v (getName d) (getDeviceID d) (getSerial d)
    (getPort d) (getInterfaceTypes d) (getHash d) (getParentHash d) (getTarget d)
    (getSysPath d).
Definition setName (v : string) (d : LinuxDevice) : LinuxDevice :=
  mkLinuxDevice (getID d) (getParentID d) v (getDeviceID d) (getSerial d)
    (getPort d) (getInterfaceTypes d) (getHash d) (getParentHash d) (getTarget d)
    (getSysPath d).
Definition setDeviceID (v : USBDeviceID) (d : LinuxDevice) : LinuxDevice :=
  mkLinuxDevice (getID d) (getParentID d) (getName d) v (getSerial d)
    (getPort d) (getInterfaceTypes d) (getHash d) (getParentHash d) (getTarget d)
    (getSysPath d).
Definition setSerial (v : string) (d : LinuxDevice) : LinuxDevice :=
  mkLinuxDevice (getID d) (getParentID d) (getName d) (getDeviceID d) v
    (getPort d) (getInterfaceTypes d) (getHash d) (getParentHash d) (getTarget d)
    (getSysPath d).
Definition setPort (v : string) (d : LinuxDevice) : LinuxDevice :=
  mkLinuxDevice (getID d) (getParentID d) (getName d) (getDeviceID d) (getSerial d)
    v (getInterfaceTypes d) (getHash d) (getParentHash d) (getTarget d)
    (getSysPath d).
Definition setInterfaceTypes (v : list USBInterfaceType) (d : LinuxDevice) : LinuxDevice :=
  mkLinuxDevice (getID d) (getParentID d) (getName d) (getDeviceID d) (getSerial d)
    (getPort d) v (getHash d) (getParentHash d) (getTarget d)
    (getSysPath d).
Definition setHash (v : string) (d : LinuxDevice) : LinuxDevice :=
  mkLinuxDevice (getID d) (getParentID d) (getName d) (getDeviceID d) (getSerial d)
    (getPort d) (getInterfaceTypes d) v (getParentHash d) (getTarget d)
    (getSysPath d).
Definition setParentHash (v : string) (d : LinuxDevice) : LinuxDevice :=
  mkLinuxDevice (getID d) (getParentID d) (getName d) (getDeviceID d) (getSerial d)
    (getPort d) (getInterfaceTypes d) (getHash d) v (getTarget d)
    (getSysPath d).
Definition setTarget (v : Target.t) (d : LinuxDevice) : LinuxDevice :=
  mkLinuxDevice (getID d) (getParentID d) (getName d) (getDeviceID d) (getSerial d)
    (getPort d) (getInterfaceTypes d) (getHash d) (getParentHash d) v
    (getSysPath d).
Definition setSysPath (v : string) (d : LinuxDevice) : LinuxDevice :=
  mkLinuxDevice (getID d) (getParentID d) (getName d) (getDeviceID d) (getSerial d)
    (getPort d) (getInterfaceTypes d) (getHash d) (getParentHash d) (getTarget d)
    v.

(** The state a [Device] has before the [LinuxDevice] constructor body
    runs: nothing observed yet. *)
Definition Device_new : LinuxDevice :=
  mkLinuxDevice None Rule_RootID "" (mkUSBDeviceID "" "") "" "" [] "" ""
    Target.Unknown "".

(** [LinuxDevice::isController].  The hub pattern is built from its string
    form on every call, as in the source; the pattern is the receiver of
    [appliesTo] and the device's interface type its argument. *)
Definition isController (d : LinuxDevice) : result bool :=
  if bool_decide (Str.substr0 3 (getPort d) ≠ "usb")
     || bool_decide (length (getInterfaceTypes d) ≠ 1%nat)
  then Ok false
  else
    hub_interface ← USBInterfaceType_of_string "09:00:*";
    match getInterfaceTypes d !! 0%nat with
    | Some t0 => Ok (appliesTo hub_interface t0)
    | None => Throw (out_of_range "vector subscript")
    end.

(** ** The kernel side: udev devices and sysfs *)

(** What libudev reports about a device handle: every accessor the sources
    call may return a null pointer, which is [None]. *)
#[warnings="-register-all"] Inductive udev_device := mk_udev_device {
  udev_device_get_parent : option udev_device;
  udev_device_get_devtype : option string;
  udev_device_get_syspath : option string;
  udev_device_get_sysname : option string;
  udev_device_get_action : option string;
  udev_sysattrs : gmap string string
}.

Definition udev_device_get_sysattr_value (dev : udev_device) (name : string)
  : option string := udev_sysattrs dev !! name.

(** The files below /sys that the sources open, with their bytes. *)
Abbreviation SysFS := (gmap string (list Z)).

(** The USB helper library the [LinuxDevice] constructor calls and whose
    code is not part of the sources at hand: the descriptor parser with the
    five handlers the constructor registers (its result is the number of
    bytes processed and the interface types the interface-descriptor
    callback appended), and the two digests. *)
Class USBLibrary := {
  USBDescriptorParser_parse : list Z → result (nat * list USBInterfaceType);
  hashString : string → string;
  hashBytes : list Z → string;
  sizeof_USBDeviceDescriptor : nat
}.

(** [LinuxSysIO]: the write primitive behind the policy backend, which is
    not part of the sources at hand, and the size of the path buffer. *)
Class LinuxSysIO := {
  sysioWrite : string → Z → SysFS → result SysFS;
  SYSIO_PATH_MAX : nat
}.

(** ** Observable events *)

Inductive Notification :=
| DevicePresent | DeviceInserted | DeviceRemoved
| DeviceAllowed | DeviceBlocked | DeviceRejected.

#[global] Instance Notification_eq_dec : EqDecision Notification.
Proof. solve_decision. Defined.

Inductive Event :=
| EvLock (id : option N)                          (* device mutex acquired *)
| EvUnlock (id : option N)                        (* device mutex released *)
| EvApplyTarget (sys_path : string) (target : Target.t) (* sysioApplyTarget entered *)
| EvSysioWrite (path : string) (value : Z)        (* sysioWrite called *)
| EvSetAuthorizedDefault (value : bool)           (* sysioSetAuthorizedDefault called *)
| EvSetTarget (id : option N) (target : Target.t) (* Device::setTarget on a registered device *)
| EvHook (n : Notification) (d : LinuxDevice)     (* outbound notification *)
| EvLogError (sys_path : string) (what : string). (* logger->error *)

#[global] Instance Event_eq_dec : EqDecision Event.
Proof. solve_decision. Defined.

(** ** The world the manager runs in *)

Record World := mkWorld {
  device_map : gmap N LinuxDevice;   (* DeviceManager: registered devices *)
  next_id : N;                       (* DeviceManager: identifier allocator *)
  _syspath_map : gmap string N;      (* LinuxDeviceManager::_syspath_map *)
  sysfs : SysFS;                     (* attribute files below /sys *)
  authorized_default : bool;         (* system-wide default authorization *)
  _event_fd : Z;                     (* counter of the wake-up eventfd *)
  stop_requested : bool;             (* Thread: the stop flag *)
  umon_queue : list (option udev_device); (* pending hotplug events *)
  udev_enumerate : option (list (option string)); (* udev_enumerate_new and scan *)
  udev_tree : gmap string udev_device;    (* udev_device_new_from_syspath *)
  trace : list Event                 (* events so far, oldest first *)
}.

Definition set_device_map (v : gmap N LinuxDevice) (w : World) : World :=
  mkWorld v (next_id w) (_syspath_map w) (sysfs w) (authorized_default w)
    (_event_fd w) (stop_requested w) (umon_queue w) (udev_enumerate w)
    (udev_tree w) (trace w).
Definition set_next_id (v : N) (w : World) : World :=
  mkWorld (device_map w) v (_syspath_map w) (sysfs w) (authorized_default w)
    (_event_fd w) (stop_requested w) (umon_queue w) (udev_enumerate w)
    (udev_tree w) (trace w).
Definition set_syspath_map (v : gmap string N) (w : World) : World :=
  mkWorld (device_map w) (next_id w) v (sysfs w) (authorized_default w)
    (_event_fd w) (stop_requested w) (umon_queue w) (udev_enumerate w)
    (udev_tree w) (trace w).
Definition set_sysfs (v : SysFS) (w : World) : World :=
  mkWorld (device_map w) (next_id w) (_syspath_map w) v (authorized_default w)
    (_event_fd w) (stop_requested w) (umon_queue w) (udev_enumerate w)
    (udev_tree w) (trace w).
Definition set_authorized_default (v : bool) (w : World) : World :=
  mkWorld (device_map w) (next_id w) (_syspath_map w) (sysfs w) v
    (_event_fd w) (stop_requested w) (umon_queue w) (udev_enumerate w)
    (udev_tree w) (trace w).
Definition set_event_fd (v : Z) (w : World) : World :=
  mkWorld (device_map w) (next_id w) (_syspath_map w) (sysfs w) (authorized_default w)
    v (stop_requested w) (umon_queue w) (udev_enumerate w)
    (udev_tree w) (trace w).
Definition set_stop_requested (v : bool) (w : World) : World :=
  mkWorld (device_map w) (next_id w) (_syspath_map w) (sysfs w) (authorized_default w)
    (_event_fd w) v (umon_queue w) (udev_enumerate w)
    (udev_tree w) (trace w).
Definition set_umon_queue (v : list (option udev_device)) (w : World) : World :=
  mkWorld (device_map w) (next_id w) (_syspath_map w) (sysfs w) (authorized_default w)
    (_event_fd w) (stop_requested w) v (udev_enumerate w)
    (udev_tree w) (trace w).
Definition set_trace (v : list Event) (w : World) : World :=
  mkWorld (device_map w) (next_id w) (_syspath_map w) (sysfs w) (authorized_default w)
    (_event_fd w) (stop_requested w) (umon_queue w) (udev_enumerate w)
    (udev_tree w) v.

(** ** The monad of member functions

    A computation returns a value or throws, and in both cases leaves the
    world as it was at that moment: C++ undoes nothing on a throw. *)

Definition M (A : Type) : Type := World → result A * World.

Definition M_ret {A} (a : A) : M A := λ w, (Ok a, w).
Definition M_bind {A B} (m : M A) (k : A → M B) : M B :=
  λ w, match m w with
       | (Ok a, w') => k a w'
       | (Throw e, w') => (Throw e, w')
       end.
#[global] Instance M_mret : MRet M := @M_ret.
#[global] Instance M_mbind : MBind M := λ A B k m, M_bind m k.

Definition throw {A} (e : exception) : M A := λ w, (Throw e, w).
Definition get : M World := λ w, (Ok w, w).
Definition modify (f : World → World) : M unit := λ w, (Ok tt, f w).
Definition lift {A} (r : result A) : M A := λ w, (r, w).
Definition emit (e : Event) : M unit := modify (λ w, set_trace (trace w ++ [e]) w).

(** [try { body } catch (...) { handler }]. *)
Definition try_catch {A} (body : M A) (handler : exception → M A) : M A :=
  λ w, match body w with
       | (Ok a, w') => (Ok a, w')
       | (Throw e, w') => handler e w'
       end.

(** [std::unique_lock<std::mutex> device_lock(device->refDeviceMutex())]
    followed by the rest of the scope: the mutex is released when the scope
    is left, by return or by exception. *)
Definition with_device_lock {A} (id : option N) (scope : M A) : M A :=
  λ w, let '(r, w') := scope (set_trace (trace w ++ [EvLock id]) w) in
       (r, set_trace (trace w' ++ [EvUnlock id]) w').

(** [logger->error(...)]; the debug messages of the sources are not
    recorded. *)
Definition logger_error (sys_path what : string) : M unit :=
  emit (EvLogError sys_path what).

Definition what (e : exception) : string :=
  match e with
  | runtime_error s | out_of_range s | logic_error s => s
  end.

(** ** LinuxDevice and LinuxDeviceManager *)

(** The message of the constructor when the parser stopped too early. *)
Definition descriptor_parse_failure : string :=
  "Descriptor data parsing failed: "
  +:+ "parser processed less data than the size of a USB device descriptor".

Section LinuxDeviceManager.

Context `{!USBLibrary, !LinuxSysIO}.

(** [LinuxDeviceManager::getIDFromSysPath]: [std::map::at] throws
    [std::out_of_range] for an unknown key. *)
Definition getIDFromSysPath (syspath_map : gmap string N) (syspath : string)
  : result N :=
  match syspath_map !! syspath with
  | Some id => Ok id
  | None => Throw (out_of_range "map::at")
  end.

(** [std::ifstream::get()] on a freshly opened stream: the first byte, or
    -1 at end of file. *)
Definition ifstream_get (content : list Z) : Z :=
  match content with
  | c :: _ => c
  | [] => -1
  end.

(** The constructor [LinuxDevice::LinuxDevice(device_manager, dev)], as a
    function of the manager's syspath map and of sysfs. *)
Definition LinuxDevice_new (syspath_map : gmap string N) (fs : SysFS)
           (dev : udev_device) : result LinuxDevice :=
  let d := Device_new in
  match udev_device_get_parent dev with
  | None => Throw (runtime_error "Cannot identify the parent device")
  | Some parent_dev =>
  let parent_devtype := udev_device_get_devtype parent_dev in
  match udev_device_get_syspath parent_dev with
  | None => Throw (runtime_error "Cannot retrieve syspath of the parent device")
  | Some parent_syspath =>
  d ← (if bool_decide (parent_devtype ≠ Some "usb_device")
       then Ok (setParentHash (hashString parent_syspath) (setParentID Rule_RootID d))
       else id ← getIDFromSysPath syspath_map parent_syspath;
            Ok (setParentID id d));
  let d := match udev_device_get_sysattr_value dev "product" with
           | Some name => setName name d
           | None => d
           end in
  d ← match udev_device_get_sysattr_value dev "idVendor",
            udev_device_get_sysattr_value dev "idProduct" with
      | Some id_vendor, Some id_product =>
          device_id ← USBDeviceID_new id_vendor id_product;
          Ok (setDeviceID device_id d)
      | _, _ => Ok d
      end;
  let d := match udev_device_get_sysattr_value dev "serial" with
           | Some serial => setSerial serial d
           | None => d
           end in
  match udev_device_get_syspath dev with
  | None => Throw (runtime_error "device wihtout syspath")
  | Some syspath =>
  let d := setSysPath syspath d in
  match udev_device_get_sysname dev with
  | None => Throw (runtime_error "device wihtout sysname")
  | Some sysname =>
  let d := setPort sysname d in
  let d := setTarget Target.Unknown d in
  match fs !! (syspath +:+ "/authorized") with
  | None => Throw (runtime_error "cannot read authorization state")
  | Some authstate_stream =>
  let d := if ifstream_get authstate_stream =? 49 (* '1' *)
           then setTarget Target.Allow d
           else if ifstream_get authstate_stream =? 48 (* '0' *)
           then setTarget Target.Block d
           else setTarget Target.Block d in
  match fs !! (syspath +:+ "/descriptors") with
  | None => Throw (runtime_error
      "Cannot load USB descriptors: failed to open the descriptor data stream")
  | Some descriptor_stream =>
  '(descriptor_expected_size, interface_types) ←
      USBDescriptorParser_parse descriptor_stream;
  let d := setInterfaceTypes interface_types d in
  if (descriptor_expected_size <? sizeof_USBDeviceDescriptor)%nat
  then Throw (runtime_error
      descriptor_parse_failure)
  else Ok (setHash (hashBytes (take descriptor_expected_size descriptor_stream)) d)
  end end end end end end.

(** *** The DeviceManager base class *)

(** Modelled from the spec: [DeviceManager::insertDevice] is not part of
    the sources at hand.  "Assign a fresh monotonic ID"; the device object
    receives the identifier and is registered under it. *)
Definition DeviceManager_insertDevice (device : LinuxDevice) : M LinuxDevice :=
  w ← get;
  let id := next_id w in
  let device := setID id device in
  modify (λ w, set_next_id (id + 1)%N (set_device_map (<[id := device]> (device_map w)) w));;
  mret device.

(** Modelled from the spec: [DeviceManager::removeDevice(id)] is not part
    of the sources at hand.  "remove from maps"; an identifier that is not
    registered is an error. *)
Definition DeviceManager_removeDevice (id : N) : M LinuxDevice :=
  w ← get;
  match device_map w !! id with
  | None => throw (runtime_error "Unknown device, cannot remove from device map")
  | Some device =>
      modify (λ w, set_device_map (delete id (device_map w)) w);;
      mret device
  end.

(** Modelled from the spec: [DeviceManager::getDevice(id)] is not part of
    the sources at hand; an identifier that is not registered is an
    error. *)
Definition DeviceManager_getDevice (id : N) : M LinuxDevice :=
  w ← get;
  match device_map w !! id with
  | None => throw (out_of_range "Device lookup: device id: id doesn't exist")
  | Some device => mret device
  end.

(** Modelled from the spec: the notification entry points of the base
    class ([DevicePresent], [DeviceInserted], ...) hand the device to the
    host ("outbound notifications, each carrying the device snapshot"). *)
Definition hook (n : Notification) (device : LinuxDevice) : M unit :=
  emit (EvHook n device).

(** Modelled from the spec: [sysioSetAuthorizedDefault] (LinuxSysIO) is
    not part of the sources at hand; it sets the "system-wide default
    authorization". *)
Definition sysioSetAuthorizedDefault (state : bool) : M unit :=
  emit (EvSetAuthorizedDefault state);;
  modify (set_authorized_default state).

(** Modelled from the spec: [Thread::stop], [Thread::stopRequested] and
    the stop flag they share are not part of the sources at hand. *)
Definition Thread_stop : M unit := modify (set_stop_requested true).
Definition Thread_stopRequested : M bool := w ← get; mret (stop_requested w).

(** *** LinuxDeviceManager *)

Definition setDefaultBlockedState (state : bool) : M unit :=
  sysioSetAuthorizedDefault (negb state).

(** The part of the constructor that touches the world; the eventfd and
    the udev monitor it creates start empty. *)
Definition LinuxDeviceManager_new : M unit :=
  setDefaultBlockedState true;;
  modify (set_event_fd 0).

(** [write(_event_fd, &one, sizeof one)] adds one to the counter. *)
Definition write_event_fd : M unit :=
  modify (λ w, set_event_fd (_event_fd w + 1) w).

(** [LinuxDeviceManager::stop], up to the join of the worker. *)
Definition stop : M unit :=
  Thread_stop;;
  write_event_fd.

(** The destructor, up to the release of the descriptors. *)
Definition LinuxDeviceManager_delete : M unit :=
  setDefaultBlockedState false;;
  stop.

(** [snprintf(sysio_path, SYSIO_PATH_MAX, "%s/%s", ...)] keeps at most
    [SYSIO_PATH_MAX - 1] characters. *)
Definition snprintf_path (sys_path target_file : string) : string :=
  Str.substr0 (pred SYSIO_PATH_MAX) (sys_path +:+ "/" +:+ target_file).

Definition sysioWrite_call (path : string) (value : Z) : M unit :=
  emit (EvSysioWrite path value);;
  w ← get;
  fs ← lift (sysioWrite path value (sysfs w));
  modify (set_sysfs fs).

Definition sysioApplyTarget (sys_path : string) (target : Target.t) : M unit :=
  emit (EvApplyTarget sys_path target);;
  '(target_file, target_value) ←
    match target with
    | Target.Allow => mret ("authorized", 1)
    | Target.Block => mret ("authorized", 0)
    | Target.Reject => mret ("remove", 1)
    | _ => throw (runtime_error "Unknown rule target in applyDevicePolicy")
    end;
  sysioWrite_call (snprintf_path sys_path target_file) target_value.

Definition applyDevicePolicy (id : N) (target : Target.t) : M LinuxDevice :=
  device ← DeviceManager_getDevice id;
  with_device_lock (getID device) (
    sysioApplyTarget (getSysPath device) target;;
    let device := setTarget target device in
    emit (EvSetTarget (getID device) target);;
    modify (λ w, set_device_map (<[id := device]> (device_map w)) w);;
    mret device).

Definition allowDevice (id : N) : M LinuxDevice :=
  device ← applyDevicePolicy id Target.Allow;
  hook DeviceAllowed device;;
  mret device.

Definition blockDevice (id : N) : M LinuxDevice :=
  device ← applyDevicePolicy id Target.Block;
  hook DeviceBlocked device;;
  mret device.

Definition rejectDevice (id : N) : M LinuxDevice :=
  device ← applyDevicePolicy id Target.Reject;
  hook DeviceRejected device;;
  mret device.

Definition insertDevice (device : LinuxDevice) : M LinuxDevice :=
  device ← DeviceManager_insertDevice device;
  with_device_lock (getID device) (
    modify (λ w, set_syspath_map
                   (<[getSysPath device := default 0%N (getID device)]> (_syspath_map w)) w);;
    mret device).

Definition removeDevice (syspath : string) : M LinuxDevice :=
  w ← get;
  match _syspath_map w !! syspath with
  | None => throw (runtime_error "Unknown device, cannot remove from syspath map")
  | Some id =>
      device ← DeviceManager_removeDevice id;
      modify (λ w, set_syspath_map (delete syspath (_syspath_map w)) w);;
      mret device
  end.

(** [const String sys_path(udev_device_get_syspath(dev))]: building a
    [std::string] from a null pointer throws [std::logic_error] in
    libstdc++, before the [try] block is entered. *)
Definition String_of_cstr (s : option string) : M string :=
  match s with
  | Some s => mret s
  | None => throw (logic_error "basic_string: construction from null is not valid")
  end.

Definition construct (dev : udev_device) : M LinuxDevice :=
  w ← get;
  lift (LinuxDevice_new (_syspath_map w) (sysfs w) dev).

Definition processDevicePresence (dev : udev_device) : M unit :=
  sys_path ← String_of_cstr (udev_device_get_syspath dev);
  try_catch
    (device ← construct dev;
     device ← insertDevice device;
     hook DevicePresent device)
    (λ ex, logger_error sys_path (what ex)).

Definition processDeviceInsertion (dev : udev_device) : M unit :=
  sys_path ← String_of_cstr (udev_device_get_syspath dev);
  handled ← try_catch
    (device ← construct dev;
     device ← insertDevice device;
     hook DeviceInserted device;;
     mret true)
    (λ ex, logger_error sys_path (what ex);; mret false);
  if handled : bool then mret tt
  else sysioApplyTarget sys_path Target.Reject.

Definition processDeviceRemoval (dev : udev_device) : M unit :=
  match udev_device_get_syspath dev with
  | None => mret tt
  | Some syspath =>
      try_catch
        (device ← removeDevice syspath;
         hook DeviceRemoved device)
        (λ _, mret tt)
  end.

Definition udev_monitor_receive_device : M (option udev_device) :=
  w ← get;
  match umon_queue w with
  | [] => mret None
  | dev :: rest => modify (set_umon_queue rest);; mret dev
  end.

Definition udevReceiveDevice : M unit :=
  dev ← udev_monitor_receive_device;
  match dev with
  | None => mret tt
  | Some dev =>
      match udev_device_get_action dev with
      | None => mret tt
      | Some action_cstr =>
          if String.eqb action_cstr "add" then processDeviceInsertion dev
          else if String.eqb action_cstr "remove" then processDeviceRemoval dev
          else mret tt
      end
  end.

(** The body of the [udev_list_entry_foreach] loop of
    [udevEnumerateDevices]. *)
Definition udevEnumerateDevices_entry (tree : gmap string udev_device)
           (dlentry : option string) : M unit :=
  match dlentry with
  | None => mret tt
  | Some syspath =>
      match tree !! syspath with
      | None => mret tt
      | Some device =>
          match udev_device_get_devtype device with
          | None => mret tt
          | Some devtype =>
              if String.eqb devtype "usb_device" then processDevicePresence device
              else mret tt
          end
      end
  end.

Fixpoint udevEnumerateDevices_loop (tree : gmap string udev_device)
         (devices : list (option string)) : M unit :=
  match devices with
  | [] => mret tt
  | dlentry :: rest =>
      udevEnumerateDevices_entry tree dlentry;;
      udevEnumerateDevices_loop tree rest
  end.

Definition udevEnumerateDevices : M unit :=
  w ← get;
  match udev_enumerate w with
  | None => throw (runtime_error "udev_enumerate_new returned NULL")
  | Some devices => udevEnumerateDevices_loop (udev_tree w) devices
  end.

(** What one call of [select] on the two descriptors reported: its return
    value and the two [FD_ISSET] tests afterwards. *)
Record select_result := mk_select_result {
  select_ret : Z;
  FD_ISSET_event_fd : bool;
  FD_ISSET_umon_fd : bool
}.

(** One turn of the [while] loop of [LinuxDeviceManager::thread], from the
    return of [select] to the end of the body.  Nothing in the body reads
    [_event_fd]. *)
Definition thread_iteration (sel : select_result) : M unit :=
  if (select_ret sel =? 1) || (select_ret sel =? 2) then
    if FD_ISSET_event_fd sel then mret tt (* continue *)
    else if FD_ISSET_umon_fd sel then udevReceiveDevice
    else mret tt
  else if select_ret sel =? 0 then mret tt (* continue *)
  else Thread_stop.

(** The [while (!_thread.stopRequested())] loop, driven by the results of
    the successive [select] calls.  The result is the number of turns
    after which the loop was left, or [None] while the worker is still
    waiting in [select]. *)
Fixpoint thread_loop (selects : list select_result) (turns : nat)
  : M (option nat) :=
  stop ← Thread_stopRequested;
  if stop : bool then mret (Some turns)
  else
    match selects with
    | [] => mret None
    | sel :: selects' =>
        thread_iteration sel;;
        thread_loop selects' (S turns)
    end.

(** A worker that waits in [select] and is woken with [sel]. *)
Definition thread_resume (sel : select_result) (selects : list select_result)
           (turns : nat) : M (option nat) :=
  thread_iteration sel;;
  thread_loop selects (S turns).

Definition thread (selects : list select_result) : M (option nat) :=
  udevEnumerateDevices;;
  thread_loop selects 0.

(** What [select] can report in a given world: an error, or the
    descriptors that are readable (the eventfd when its counter is not
    zero, the monitor when an event is pending), and a timeout only when
    none is. *)
Definition select_reports (w : World) (sel : select_result) : bool :=
  let ev := bool_decide (_event_fd w ≠ 0) in
  let um := bool_decide (umon_queue w ≠ []) in
  (select_ret sel =? -1)
  || (bool_decide (FD_ISSET_event_fd sel = ev)
      && bool_decide (FD_ISSET_umon_fd sel = um)
      && (select_ret sel =? Z.b2z ev + Z.b2z um)).

End LinuxDeviceManager.

(** ** Rules *)

(** Modelled from the spec: the set operators of an attribute (Rule.hpp is
    not part of the sources at hand). *)
Module SetOperator.
Inductive t := Equals | OneOf | NoneOf | AllOf | MatchAny | EqualsOrdered.

#[global] Instance eq_dec : EqDecision t.
Proof. solve_decision. Defined.
End SetOperator.

(** Modelled from the spec: [Rule::Attribute<T>], "a pair (operator,
    values)" that "tracks set or not"; "an attribute is empty iff it has
    never been assigned".  The actions use [empty], [append] and
    [setSetOperator]. *)
Record Attribute (T : Type) := mkAttribute {
  attr_assigned : bool;
  attr_operator : SetOperator.t;
  attr_values : list T
}.
Arguments mkAttribute {T} _ _ _.
Arguments attr_assigned {T} _.
Arguments attr_operator {T} _.
Arguments attr_values {T} _.

Definition Attribute_new {T} : Attribute T := mkAttribute false SetOperator.Equals [].
Definition empty {T} (a : Attribute T) : bool := negb (attr_assigned a).
Definition append {T} (v : T) (a : Attribute T) : Attribute T :=
  mkAttribute true (attr_operator a) (attr_values a ++ [v]).
Definition setSetOperator {T} (op : SetOperator.t) (a : Attribute T) : Attribute T :=
  mkAttribute true op (attr_values a).

(** [FixedStateCondition]: the [RuleCondition] base part (identifier and
    negation flag, as passed to the base constructor) and [_state]. *)
Record FixedStateCondition := mkFixedStateCondition {
  identifier : string;
  isNegated : bool;
  _state : bool
}.

(** [FixedStateCondition::FixedStateCondition(bool state, bool negated)]. *)
Definition FixedStateCondition_new (state negated : bool) : FixedStateCondition :=
  mkFixedStateCondition (if state then "true" else "false") negated state.

(** The copy constructor and [clone]. *)
Definition FixedStateCondition_copy (rhs : FixedStateCondition) : FixedStateCondition :=
  mkFixedStateCondition (identifier rhs) (isNegated rhs) (_state rhs).
Definition FixedStateCondition_clone (this : FixedStateCondition) : FixedStateCondition :=
  FixedStateCondition_copy this.

(** Modelled from the spec: the conditions a rule can carry, resolved by
    name; only [FixedStateCondition] is part of the sources at hand, the
    others keep their name and argument. *)
Inductive RuleCondition :=
| FixedState (c : FixedStateCondition)
| OtherCondition (name : string) (parameter : string) (negated : bool).

(** Modelled from the spec: a [Rule] (section 3): target, optional device
    id, and the attributes, named after the accessors the actions call. *)
Record Rule := mkRule {
  getRuleTarget : Target.t;
  getRuleDeviceID : option USBDeviceID;
  attributeName : Attribute string;
  attributeDeviceID : Attribute USBDeviceID;
  attributeHash : Attribute string;
  attributeParentHash : Attribute string;
  attributeSerial : Attribute string;
  attributeViaPort : Attribute string;
  attributeWithInterface : Attribute USBInterfaceType;
  attributeConditions : Attribute RuleCondition
}.

Definition Rule_new : Rule :=
  mkRule Target.Unknown None Attribute_new Attribute_new Attribute_new
    Attribute_new Attribute_new Attribute_new Attribute_new Attribute_new.

Definition setRuleTarget (v : Target.t) (r : Rule) : Rule :=
  mkRule v (getRuleDeviceID r) (attributeName r) (attributeDeviceID r)
    (attributeHash r) (attributeParentHash r) (attributeSerial r)
    (attributeViaPort r) (attributeWithInterface r) (attributeConditions r).
Definition setRuleDeviceID (v : USBDeviceID) (r : Rule) : Rule :=
  mkRule (getRuleTarget r) (Some v) (attributeName r) (attributeDeviceID r)
    (attributeHash r) (attributeParentHash r) (attributeSerial r)
    (attributeViaPort r) (attributeWithInterface r) (attributeConditions r).
Definition on_attributeName (f : Attribute string → Attribute string) (r : Rule) : Rule :=
  mkRule (getRuleTarget r) (getRuleDeviceID r) (f (attributeName r)) (attributeDeviceID r)
    (attributeHash r) (attributeParentHash r) (attributeSerial r)
    (attributeViaPort r) (attributeWithInterface r) (attributeConditions r).
Definition on_attributeDeviceID (f : Attribute USBDeviceID → Attribute USBDeviceID)
           (r : Rule) : Rule :=
  mkRule (getRuleTarget r) (getRuleDeviceID r) (attributeName r) (f (attributeDeviceID r))
    (attributeHash r) (attributeParentHash r) (attributeSerial r)
    (attributeViaPort r) (attributeWithInterface r) (attributeConditions r).
Definition on_attributeHash (f : Attribute string → Attribute string) (r : Rule) : Rule :=
  mkRule (getRuleTarget r) (getRuleDeviceID r) (attributeName r) (attributeDeviceID r)
    (f (attributeHash r)) (attributeParentHash r) (attributeSerial r)
    (attributeViaPort r) (attributeWithInterface r) (attributeConditions r).
Definition on_attributeParentHash (f : Attribute string → Attribute string)
           (r : Rule) : Rule :=
  mkRule (getRuleTarget r) (getRuleDeviceID r) (attributeName r) (attributeDeviceID r)
    (attributeHash r) (f (attributeParentHash r)) (attributeSerial r)
    (attributeViaPort r) (attributeWithInterface r) (attributeConditions r).
Definition on_attributeSerial (f : Attribute string → Attribute string) (r : Rule) : Rule :=
  mkRule (getRuleTarget r) (getRuleDeviceID r) (attributeName r) (attributeDeviceID r)
    (attributeHash r) (attributeParentHash r) (f (attributeSerial r))
    (attributeViaPort r) (attributeWithInterface r) (attributeConditions r).
Definition on_attributeViaPort (f : Attribute string → Attribute string) (r : Rule) : Rule :=
  mkRule (getRuleTarget r) (getRuleDeviceID r) (attributeName r) (attributeDeviceID r)
    (attributeHash r) (attributeParentHash r) (attributeSerial r)
    (f (attributeViaPort r)) (attributeWithInterface r) (attributeConditions r).
Definition on_attributeWithInterface
           (f : Attribute USBInterfaceType → Attribute USBInterfaceType) (r : Rule) : Rule :=
  mkRule (getRuleTarget r) (getRuleDeviceID r) (attributeName r) (attributeDeviceID r)
    (attributeHash r) (attributeParentHash r) (attributeSerial r)
    (attributeViaPort r) (f (attributeWithInterface r)) (attributeConditions r).
Definition on_attributeConditions
           (f : Attribute RuleCondition → Attribute RuleCondition) (r : Rule) : Rule :=
  mkRule (getRuleTarget r) (getRuleDeviceID r) (attributeName r) (attributeDeviceID r)
    (attributeHash r) (attributeParentHash r) (attributeSerial r)
    (attributeViaPort r) (attributeWithInterface r) (f (attributeConditions r)).

(** [FixedStateCondition::update(const Rule& rule)]: the rule is ignored and
    the object is left as it is. *)
Definition FixedStateCondition_update (this : FixedStateCondition) (rule : Rule)
  : bool * FixedStateCondition :=
  (_state this, this).

(** Modelled from the spec: [Rule::targetFromString], the "canonical
    string→enum mapping; unknown string → MalformedTarget". *)
Definition targetFromString (s : string) : result Target.t :=
  if String.eqb s "allow" then Ok Target.Allow
  else if String.eqb s "block" then Ok Target.Block
  else if String.eqb s "reject" then Ok Target.Reject
  else if String.eqb s "match" then Ok Target.Match
  else if String.eqb s "device" then Ok Target.Device
  else Throw (runtime_error "Invalid rule target string").

(** Modelled from the spec: [Rule::setOperatorFromString]. *)
Definition setOperatorFromString (s : string) : result SetOperator.t :=
  if String.eqb s "equals" then Ok SetOperator.Equals
  else if String.eqb s "one-of" then Ok SetOperator.OneOf
  else if String.eqb s "none-of" then Ok SetOperator.NoneOf
  else if String.eqb s "all-of" then Ok SetOperator.AllOf
  else if String.eqb s "equals-ordered" then Ok SetOperator.EqualsOrdered
  else if String.eqb s "match-any" then Ok SetOperator.MatchAny
  else Throw (runtime_error "Invalid set operator string").

(** Modelled from the spec: [Utility::unescapeString]; the escapes are
    backslash followed by a backslash, a double quote, n, t or xHH, and
    "unknown escape fails with BadEscape". *)
Fixpoint unescape_chars (cs : list Ascii.ascii) : result (list Ascii.ascii) :=
  match cs with
  | [] => Ok []
  | c :: rest =>
      if Ascii.eqb c "092"%char (* backslash *) then
        match rest with
        | e :: rest' =>
            if Ascii.eqb e "092"%char then r ← unescape_chars rest'; Ok ("092"%char :: r)
            else if Ascii.eqb e "034"%char (* double quote *) then
              r ← unescape_chars rest'; Ok ("034"%char :: r)
            else if Ascii.eqb e "n"%char then r ← unescape_chars rest'; Ok ("010"%char :: r)
            else if Ascii.eqb e "t"%char then r ← unescape_chars rest'; Ok ("009"%char :: r)
            else if Ascii.eqb e "x"%char then
              match rest' with
              | h :: l :: rest'' =>
                  match Str.hex_digit h, Str.hex_digit l with
                  | Some x, Some y =>
                      r ← unescape_chars rest'';
                      Ok (Ascii.ascii_of_N (Z.to_N (16 * x + y)) :: r)
                  | _, _ => Throw (runtime_error "Invalid escape sequence")
                  end
              | _ => Throw (runtime_error "Invalid escape sequence")
              end
            else Throw (runtime_error "Invalid escape sequence")
        | [] => Throw (runtime_error "Invalid escape sequence")
        end
      else r ← unescape_chars rest; Ok (c :: r)
  end.

Definition unescapeString (s : string) : result string :=
  r ← unescape_chars (Str.chars s); Ok (Str.of_chars r).

(** Modelled from the spec: [RuleCondition::getImplementation]; the text is
    an optional [!], a condition name and an optional parenthesised
    argument; the names are those the design document lists, and an
    unresolved one is an error (UnknownCondition). *)
Fixpoint split_at_paren (cs : list Ascii.ascii) : list Ascii.ascii * list Ascii.ascii :=
  match cs with
  | [] => ([], [])
  | c :: rest =>
      if Ascii.eqb c "("%char then ([], rest)
      else let '(n, a) := split_at_paren rest in (c :: n, a)
  end.

Definition getImplementation (s : string) : result RuleCondition :=
  let cs := Str.chars s in
  let '(negated, cs) :=
    match cs with
    | c :: rest => if Ascii.eqb c "!"%char then (true, rest) else (false, cs)
    | [] => (false, cs)
    end in
  let '(name, arg) := split_at_paren cs in
  let name := Str.of_chars name in
  let arg := Str.of_chars (removelast arg) in
  if String.eqb name "true" then Ok (FixedState (FixedStateCondition_new true negated))
  else if String.eqb name "false" then Ok (FixedState (FixedStateCondition_new false negated))
  else if String.eqb name "allowed-matches" || String.eqb name "localtime"
  then Ok (OtherCondition name arg negated)
  else Throw (runtime_error "Unknown rule condition").

(** ** The rule parser *)

Module RuleParser.

(** The grammar rules that carry an action. *)
Inductive attribute_identifier :=
| str_name | str_id | str_hash | str_parent_hash | str_serial
| str_via_port | str_with_interface | str_if.

#[global] Instance attribute_identifier_eq_dec : EqDecision attribute_identifier.
Proof. solve_decision. Defined.

(** What an action receives as [in]: the matched text and where it
    starts in the rule text (a byte offset). *)
Record Input := mkInput {
  in_string : string;
  in_position : nat
}.

(** [pegtl::parse_error(message, in)]. *)
Record parse_error := mk_parse_error {
  pe_what : string;
  pe_position : nat
}.

#[global] Instance parse_error_eq_dec : EqDecision parse_error.
Proof. solve_decision. Defined.

Definition parsing (A : Type) : Type := parse_error + A.

(** [try { ... } catch (const std::exception& ex)
    { throw pegtl::parse_error(ex.what(), in); }]. *)
Definition rethrow {A} (i : Input) (r : result A) : parsing A :=
  match r with
  | Ok a => inr a
  | Throw ex => inl (mk_parse_error (what ex) (in_position i))
  end.

Definition rule_parser_actions_target (i : Input) (rule : Rule) : parsing Rule :=
  rethrow i (t ← targetFromString (in_string i); Ok (setRuleTarget t rule)).

(** [tokens[i]] of a [std::vector].  [operator[]] does not check its
    index: past the end the source has undefined behaviour, which is
    rendered here as a throw.  The grammar only hands over texts with two
    fields, for which the index is in range. *)
Definition token_at (tokens : list string) (i : nat) : result string :=
  match tokens !! i with
  | Some t => Ok t
  | None => Throw (out_of_range "vector subscript")
  end.

Definition rule_parser_actions_device_id (i : Input) (rule : Rule) : parsing Rule :=
  rethrow i (
    let tokens := tokenizeString (in_string i) ":"%char in
    t0 ← token_at tokens 0;
    t1 ← token_at tokens 1;
    device_id ← USBDeviceID_new t0 t1;
    Ok (setRuleDeviceID device_id rule)).

(** [value.substr(1, value.size() - 2)] and the unescaping;
    [substr] throws when the position is past the end. *)
Definition stringValueFromRule (value : string) : result string :=
  if bool_decide (String.length value = 0%nat)
  then Throw (out_of_range "basic_string::substr")
  else unescapeString (String.substring 1 (String.length value - 2) value).

Definition name_actions_str_name (i : Input) (rule : Rule) : parsing Rule :=
  if negb (empty (attributeName rule))
  then inl (mk_parse_error "name attribute already defined" (in_position i))
  else inr rule.
Definition name_actions_string_value (i : Input) (rule : Rule) : parsing Rule :=
  rethrow i (
    v ← stringValueFromRule (in_string i);
    Ok (on_attributeName (append v) rule)).
Definition name_actions_multiset_operator (i : Input) (rule : Rule) : parsing Rule :=
  rethrow i (
    op ← setOperatorFromString (in_string i);
    Ok (on_attributeName (setSetOperator op) rule)).

Definition id_actions_str_id (i : Input) (rule : Rule) : parsing Rule :=
  if negb (empty (attributeDeviceID rule))
  then inl (mk_parse_error "id attribute already defined" (in_position i))
  else inr rule.
Definition id_actions_device_id_value (i : Input) (rule : Rule) : parsing Rule :=
  rethrow i (
    let tokens := tokenizeString (in_string i) ":"%char in
    t0 ← token_at tokens 0;
    t1 ← token_at tokens 1;
    device_id ← USBDeviceID_new t0 t1;
    Ok (on_attributeDeviceID (append device_id) rule)).
Definition id_actions_multiset_operator (i : Input) (rule : Rule) : parsing Rule :=
  rethrow i (
    op ← setOperatorFromString (in_string i);
    Ok (on_attributeDeviceID (setSetOperator op) rule)).

Definition hash_actions_str_hash (i : Input) (rule : Rule) : parsing Rule :=
  if negb (empty (attributeHash rule))
  then inl (mk_parse_error "hash attribute already defined" (in_position i))
  else inr rule.
Definition hash_actions_string_value (i : Input) (rule : Rule) : parsing Rule :=
  rethrow i (
    v ← stringValueFromRule (in_string i);
    Ok (on_attributeHash (append v) rule)).
Definition hash_actions_multiset_operator (i : Input) (rule : Rule) : parsing Rule :=
  rethrow i (
    op ← setOperatorFromString (in_string i);
    Ok (on_attributeHash (setSetOperator op) rule)).

Definition parent_hash_actions_str_parent_hash (i : Input) (rule : Rule) : parsing Rule :=
  if negb (empty (attributeParentHash rule))
  then inl (mk_parse_error "parent-hash attribute already defined" (in_position i))
  else inr rule.
Definition parent_hash_actions_string_value (i : Input) (rule : Rule) : parsing Rule :=
  rethrow i (
    v ← stringValueFromRule (in_string i);
    Ok (on_attributeParentHash (append v) rule)).
Definition parent_hash_actions_multiset_operator (i : Input) (rule : Rule) : parsing Rule :=
  rethrow i (
    op ← setOperatorFromString (in_string i);
    Ok (on_attributeParentHash (setSetOperator op) rule)).

Definition serial_actions_str_serial (i : Input) (rule : Rule) : parsing Rule :=
  if negb (empty (attributeSerial rule))
  then inl (mk_parse_error "serial attribute already defined" (in_position i))
  else inr rule.
Definition serial_actions_string_value (i : Input) (rule : Rule) : parsing Rule :=
  rethrow i (
    v ← stringValueFromRule (in_string i);
    Ok (on_attributeSerial (append v) rule)).
Definition serial_actions_multiset_operator (i : Input) (rule : Rule) : parsing Rule :=
  rethrow i (
    op ← setOperatorFromString (in_string i);
    Ok (on_attributeSerial (setSetOperator op) rule)).

Definition via_port_actions_str_via_port (i : Input) (rule : Rule) : parsing Rule :=
  if negb (empty (attributeViaPort rule))
  then inl (mk_parse_error "via-port attribute already defined" (in_position i))
  else inr rule.
Definition via_port_actions_string_value (i : Input) (rule : Rule) : parsing Rule :=
  rethrow i (
    v ← stringValueFromRule (in_string i);
    Ok (on_attributeViaPort (append v) rule)).
Definition via_port_actions_multiset_operator (i : Input) (rule : Rule) : parsing Rule :=
  rethrow i (
    op ← setOperatorFromString (in_string i);
    Ok (on_attributeViaPort (setSetOperator op) rule)).

Definition with_interface_actions_str_with_interface (i : Input) (rule : Rule) : parsing Rule :=
  if negb (empty (attributeWithInterface rule))
  then inl (mk_parse_error "with-interface attribute already defined" (in_position i))
  else inr rule.
Definition with_interface_actions_interface_value (i : Input) (rule : Rule) : parsing Rule :=
  rethrow i (
    interface_type ← USBInterfaceType_of_string (in_string i);
    Ok (on_attributeWithInterface (append interface_type) rule)).
Definition with_interface_actions_multiset_operator (i : Input) (rule : Rule) : parsing Rule :=
  rethrow i (
    op ← setOperatorFromString (in_string i);
    Ok (on_attributeWithInterface (setSetOperator op) rule)).

Definition condition_actions_str_if (i : Input) (rule : Rule) : parsing Rule :=
  if negb (empty (attributeConditions rule))
  then inl (mk_parse_error "conditions already defined" (in_position i))
  else inr rule.
Definition condition_actions_condition (i : Input) (rule : Rule) : parsing Rule :=
  rethrow i (
    condition ← getImplementation (in_string i);
    Ok (on_attributeConditions (append condition) rule)).
Definition condition_actions_multiset_operator (i : Input) (rule : Rule) : parsing Rule :=
  rethrow i (
    op ← setOperatorFromString (in_string i);
    Ok (on_attributeConditions (setSetOperator op) rule)).

(** The actions, by the grammar rule they are attached to. *)
Inductive action :=
| on_target
| on_device_id
| on_identifier (a : attribute_identifier)
| on_value (a : attribute_identifier)
| on_multiset_operator (a : attribute_identifier).

Definition apply (act : action) (i : Input) (rule : Rule) : parsing Rule :=
  match act with
  | on_target => rule_parser_actions_target i rule
  | on_device_id => rule_parser_actions_device_id i rule
  | on_identifier str_name => name_actions_str_name i rule
  | on_identifier str_id => id_actions_str_id i rule
  | on_identifier str_hash => hash_actions_str_hash i rule
  | on_identifier str_parent_hash => parent_hash_actions_str_parent_hash i rule
  | on_identifier str_serial => serial_actions_str_serial i rule
  | on_identifier str_via_port => via_port_actions_str_via_port i rule
  | on_identifier str_with_interface => with_interface_actions_str_with_interface i rule
  | on_identifier str_if => condition_actions_str_if i rule
  | on_value str_name => name_actions_string_value i rule
  | on_value str_id => id_actions_device_id_value i rule
  | on_value str_hash => hash_actions_string_value i rule
  | on_value str_parent_hash => parent_hash_actions_string_value i rule
  | on_value str_serial => serial_actions_string_value i rule
  | on_value str_via_port => via_port_actions_string_value i rule
  | on_value str_with_interface => with_interface_actions_interface_value i rule
  | on_value str_if => condition_actions_condition i rule
  | on_multiset_operator str_name => name_actions_multiset_operator i rule
  | on_multiset_operator str_id => id_actions_multiset_operator i rule
  | on_multiset_operator str_hash => hash_actions_multiset_operator i rule
  | on_multiset_operator str_parent_hash => parent_hash_actions_multiset_operator i rule
  | on_multiset_operator str_serial => serial_actions_multiset_operator i rule
  | on_multiset_operator str_via_port => via_port_actions_multiset_operator i rule
  | on_multiset_operator str_with_interface =>
      with_interface_actions_multiset_operator i rule
  | on_multiset_operator str_if => condition_actions_multiset_operator i rule
  end.

(** PEGTL calls an action as soon as its rule has matched, in text
    order; the first exception ends the parse. *)
Fixpoint run_actions (ms : list (action * Input)) (rule : Rule) : parsing Rule :=
  match ms with
  | [] => inr rule
  | (act, i) :: rest =>
      match apply act i rule with
      | inl e => inl e
      | inr rule' => run_actions rest rule'
      end
  end.

(** *** The grammar

    Modelled from the spec: the grammar (section 4.D) is not part of the
    sources at hand.  Tokens are separated by blanks; a string value runs
    from a double quote to the next unescaped one; braces stand alone.
    The [if] clause has the shape of the other attributes, as the
    [multiset_operator] action of [condition_actions] requires. *)

Inductive token_kind := Word | QuotedString | Unterminated.

#[global] Instance token_kind_eq_dec : EqDecision token_kind.
Proof. solve_decision. Defined.

Record Token := mkToken {
  tok_text : string;
  tok_pos : nat;
  tok_kind : token_kind
}.

Inductive lex_mode :=
| Blank
| InWord (start : nat) (acc : list Ascii.ascii) (in_paren : bool)
| InString (start : nat) (acc : list Ascii.ascii) (escaped : bool).

Definition is_blank (c : Ascii.ascii) : bool :=
  Ascii.eqb c " "%char || Ascii.eqb c "009"%char.
Definition is_brace (c : Ascii.ascii) : bool :=
  Ascii.eqb c "{"%char || Ascii.eqb c "}"%char.
Definition is_quote (c : Ascii.ascii) : bool := Ascii.eqb c "034"%char.
Definition is_backslash (c : Ascii.ascii) : bool := Ascii.eqb c "092"%char.

Definition token_of (start : nat) (acc : list Ascii.ascii) (k : token_kind) : Token :=
  mkToken (Str.of_chars (rev acc)) start k.

Fixpoint lex (mode : lex_mode) (pos : nat) (cs : list Ascii.ascii) : list Token :=
  match cs with
  | [] =>
      match mode with
      | Blank => []
      | InWord start acc _ => [token_of start acc Word]
      | InString start acc _ => [token_of start acc Unterminated]
      end
  | c :: rest =>
      match mode with
      | Blank =>
          if is_blank c then lex Blank (S pos) rest
          else if is_quote c then lex (InString pos [c] false) (S pos) rest
          else if is_brace c then token_of pos [c] Word :: lex Blank (S pos) rest
          else lex (InWord pos [c] (Ascii.eqb c "("%char)) (S pos) rest
      | InWord start acc true =>
          lex (InWord start (c :: acc) (negb (Ascii.eqb c ")"%char))) (S pos) rest
      | InWord start acc false =>
          if is_blank c then token_of start acc Word :: lex Blank (S pos) rest
          else if is_brace c
          then token_of start acc Word :: token_of pos [c] Word :: lex Blank (S pos) rest
          else lex (InWord start (c :: acc) (Ascii.eqb c "("%char)) (S pos) rest
      | InString start acc true =>
          lex (InString start (c :: acc) false) (S pos) rest
      | InString start acc false =>
          if is_backslash c then lex (InString start (c :: acc) true) (S pos) rest
          else if is_quote c
          then token_of start (c :: acc) QuotedString :: lex Blank (S pos) rest
          else lex (InString start (c :: acc) false) (S pos) rest
      end
  end.

Definition identifier_of (s : string) : option attribute_identifier :=
  if String.eqb s "name" then Some str_name
  else if String.eqb s "id" then Some str_id
  else if String.eqb s "hash" then Some str_hash
  else if String.eqb s "parent-hash" then Some str_parent_hash
  else if String.eqb s "serial" then Some str_serial
  else if String.eqb s "via-port" then Some str_via_port
  else if String.eqb s "with-interface" then Some str_with_interface
  else if String.eqb s "if" then Some str_if
  else None.

Definition is_hexquad (s : string) : bool :=
  match Str.chars s with
  | [c] => Ascii.eqb c "*"%char
  | [a; b; c; d] =>
      forallb (λ x, bool_decide (is_Some (Str.hex_digit x))) [a; b; c; d]
  | _ => false
  end.

Definition is_did_value (s : string) : bool :=
  match tokenizeString s ":"%char with
  | [v; p] => is_hexquad v && is_hexquad p
  | _ => false
  end.

Definition is_iface_value (s : string) : bool :=
  negb (is_Throw (USBInterfaceType_of_string s)).

Definition is_condition (s : string) : bool :=
  match Str.chars s with
  | [] => false
  | c :: _ => negb (is_brace c)
  end.

Definition is_value (a : attribute_identifier) (t : Token) : bool :=
  match a with
  | str_name | str_hash | str_parent_hash | str_serial | str_via_port =>
      bool_decide (tok_kind t = QuotedString)
  | str_with_interface => bool_decide (tok_kind t = Word) && is_iface_value (tok_text t)
  | str_id => bool_decide (tok_kind t = Word) && is_did_value (tok_text t)
  | str_if => bool_decide (tok_kind t = Word) && is_condition (tok_text t)
  end.

Definition is_word (t : Token) (s : string) : bool :=
  bool_decide (tok_kind t = Word) && String.eqb (tok_text t) s.

Definition is_operator (t : Token) : bool :=
  bool_decide (tok_kind t = Word) && negb (is_Throw (setOperatorFromString (tok_text t))).

Definition is_target (t : Token) : bool :=
  bool_decide (tok_kind t = Word) && negb (is_Throw (targetFromString (tok_text t))).

(** What the grammar expects next. *)
Inductive expect :=
| ExpTarget
| ExpDeviceIdOrAttribute
| ExpAttribute
| ExpSet (a : attribute_identifier)
| ExpOpenBrace (a : attribute_identifier)
| ExpFirstValue (a : attribute_identifier)
| ExpValueOrClose (a : attribute_identifier).

Definition accepting (st : expect) : bool :=
  match st with
  | ExpDeviceIdOrAttribute | ExpAttribute => true
  | _ => false
  end.

Definition step_attribute (t : Token) : option (option action * expect) :=
  match tok_kind t, identifier_of (tok_text t) with
  | Word, Some a => Some (Some (on_identifier a), ExpSet a)
  | _, _ => None
  end.

(** One token: [None] when the grammar does not match it, otherwise the
    action that fires, if any, and what is expected next. *)
Definition step (st : expect) (t : Token) : option (option action * expect) :=
  match st with
  | ExpTarget =>
      if is_target t then Some (Some on_target, ExpDeviceIdOrAttribute) else None
  | ExpDeviceIdOrAttribute =>
      if bool_decide (tok_kind t = Word) && is_did_value (tok_text t)
      then Some (Some on_device_id, ExpAttribute)
      else step_attribute t
  | ExpAttribute => step_attribute t
  | ExpSet a =>
      if is_operator t then Some (Some (on_multiset_operator a), ExpOpenBrace a)
      else if is_value a t then Some (Some (on_value a), ExpAttribute)
      else None
  | ExpOpenBrace a =>
      if is_word t "{" then Some (None, ExpFirstValue a) else None
  | ExpFirstValue a =>
      if is_value a t then Some (Some (on_value a), ExpValueOrClose a) else None
  | ExpValueOrClose a =>
      if is_word t "}" then Some (None, ExpAttribute)
      else if is_value a t then Some (Some (on_value a), ExpValueOrClose a)
      else None
  end.

Definition input_of (t : Token) : Input := mkInput (tok_text t) (tok_pos t).

(** The rule matches of a token sequence, in text order, and the position
    at which the grammar stopped matching, if it did. *)
Fixpoint matches (st : expect) (ts : list Token) (end_pos : nat)
  : list (action * Input) * option nat :=
  match ts with
  | [] => ([], if accepting st then None else Some end_pos)
  | t :: rest =>
      match step st t with
      | None => ([], Some (tok_pos t))
      | Some (oa, st') =>
          let '(ms, e) := matches st' rest end_pos in
          (match oa with
           | Some act => (act, input_of t) :: ms
           | None => ms
           end, e)
      end
  end.

Definition grammar (text : string) : list (action * Input) * option nat :=
  matches ExpTarget (lex Blank 0 (Str.chars text)) (String.length text).

(** Parsing one rule text: the actions run over the matches; where the
    grammar stops, the parse fails there unless an action threw before. *)
Definition parse (text : string) : parsing Rule :=
  let '(ms, syntax_error) := grammar text in
  match run_actions ms Rule_new with
  | inl e => inl e
  | inr rule =>
      match syntax_error with
      | Some pos => inl (mk_parse_error "unexpected token" pos)
      | None => inr rule
      end
  end.

(** The messages of the eight "already defined" checks, and the error
    kind DuplicateAttribute they stand for. *)
Definition already_defined (a : attribute_identifier) : string :=
  match a with
  | str_name => "name attribute already defined"
  | str_id => "id attribute already defined"
  | str_hash => "hash attribute already defined"
  | str_parent_hash => "parent-hash attribute already defined"
  | str_serial => "serial attribute already defined"
  | str_via_port => "via-port attribute already defined"
  | str_with_interface => "with-interface attribute already defined"
  | str_if => "conditions already defined"
  end.

Definition all_identifiers : list attribute_identifier :=
  [str_name; str_id; str_hash; str_parent_hash; str_serial; str_via_port;
   str_with_interface; str_if].

Definition DuplicateAttribute (e : parse_error) : bool :=
  existsb (λ a, String.eqb (pe_what e) (already_defined a)) all_identifiers.

End RuleParser.

(** ** Concrete instances for the examples *)

Module Example.

(** Modelled from the spec: the descriptor walk of section 4.A with the
    five handlers of the [LinuxDevice] constructor (device 18 bytes,
    configuration 9, interface 9, endpoint 7 and 9).  A descriptor that is
    cut short by the end of the stream is not counted; a declared length
    below every handler size of its type is an error. *)
Definition handler_sizes (bDescriptorType : Z) : list Z :=
  if bDescriptorType =? 1 then [18]
  else if bDescriptorType =? 2 then [9]
  else if bDescriptorType =? 4 then [9]
  else if bDescriptorType =? 5 then [7; 9]
  else [].

Fixpoint walk (fuel : nat) (stream : list Z) (consumed : nat)
         (ifs : list USBInterfaceType) : result (nat * list USBInterfaceType) :=
  match fuel with
  | O => Throw (runtime_error "descriptor stream does not advance")
  | S fuel' =>
      match stream with
      | bLength :: bDescriptorType :: _ =>
          let sizes := handler_sizes bDescriptorType in
          if negb (bool_decide (sizes = [])) && forallb (λ s, bLength <? s) sizes
          then Throw (runtime_error "malformed descriptor")
          else if (length stream <? Z.to_nat bLength)%nat
          then Ok (consumed, ifs)
          else
            let ifs' :=
              if bDescriptorType =? 4 then
                match stream !! 5%nat, stream !! 6%nat, stream !! 7%nat with
                | Some c, Some s, Some p =>
                    ifs ++ [mkUSBInterfaceType (Some c) (Some s) (Some p)]
                | _, _, _ => ifs
                end
              else ifs in
            walk fuel' (drop (Z.to_nat bLength) stream)
                 (consumed + Z.to_nat bLength) ifs'
      | _ => Ok (consumed, ifs)
      end
  end.

(** A stand-in digest: the examples only need some function of the
    bytes. *)
Definition digest (bytes : list Z) : string :=
  Str.of_chars (map (λ b, Ascii.ascii_of_N (Z.to_N (97 + b mod 16))) bytes).

#[global] Instance usb_library : USBLibrary := {|
  USBDescriptorParser_parse stream := walk (S (length stream)) stream 0 [];
  hashString s := digest (map Str.code (Str.chars s));
  hashBytes := digest;
  sizeof_USBDeviceDescriptor := 18
|}.

(** A backend whose write succeeds exactly on the files that exist. *)
#[global] Instance sysio : LinuxSysIO := {|
  sysioWrite path value fs :=
    match fs !! path with
    | Some _ => Ok (<[path := [48 + value]]> fs)
    | None => Throw (runtime_error "sysioWrite: cannot open file")
    end;
  SYSIO_PATH_MAX := 4096
|}.

Definition world0 : World :=
  mkWorld ∅ 1%N ∅ ∅ true 0 false [] (Some []) ∅ [].

(** A root hub: port usb1, one interface 09:00:01. *)
Definition usb1_root_hub : LinuxDevice :=
  setInterfaceTypes [mkUSBInterfaceType (Some 9) (Some 0) (Some 1)]
    (setPort "usb1" Device_new).

(** A USB device below a PCI host controller, as udev reports it on
    an "add" event. *)
Definition pci_parent : udev_device :=
  mk_udev_device None (Some "pci") (Some "/sys/devices/pci0") (Some "pci0") None ∅.
Definition usb1 : udev_device :=
  mk_udev_device (Some pci_parent) (Some "usb_device") (Some "/sys/bus/usb1")
    (Some "usb1") (Some "add")
    (<["idVendor" := "1d6b"]> (<["idProduct" := "0002"]> (<["product" := "hub"]> ∅))).

(** A device descriptor (18 bytes), a configuration descriptor (9 bytes)
    and an interface descriptor 09:00:00 (9 bytes); and a stream that
    ends inside the device descriptor. *)
Definition good_descriptors : list Z :=
  [18; 1; 0; 2; 9; 0; 1; 64; 107; 29; 2; 0; 0; 1; 3; 2; 1; 1]
  ++ [9; 2; 18; 0; 1; 1; 0; 224; 0]
  ++ [9; 4; 0; 0; 1; 9; 0; 0; 0].
Definition short_descriptors : list Z := [18; 1; 0; 2].

Definition world_good : World :=
  set_sysfs (<["/sys/bus/usb1/authorized" := [49]]>
              (<["/sys/bus/usb1/descriptors" := good_descriptors]>
                (<["/sys/bus/usb1/remove" := []]> ∅))) world0.
Definition world_short : World :=
  set_sysfs (<["/sys/bus/usb1/authorized" := [48]]>
              (<["/sys/bus/usb1/descriptors" := short_descriptors]>
                (<["/sys/bus/usb1/remove" := []]> ∅))) world0.

(** The world after the hotplug "add" of [usb1] in [world_good]: the
    device is registered under identifier 1. *)
Definition world_registered : World := (processDeviceInsertion usb1 world_good).2.

(** The same world with the device's [authorized] file gone, so that the
    backend write fails. *)
Definition world_unwritable : World :=
  set_sysfs (delete "/sys/bus/usb1/authorized" (sysfs world_registered)) world_registered.

(** A double-quoted string value of a rule text. *)
Definition quoted (s : string) : string :=
  String "034"%char (s +:+ String "034"%char EmptyString).

End Example.

(** ** Vocabulary of the properties *)

(** The hub pattern, as [USBInterfaceType("09:00:*")] builds it. *)
Definition hub_pattern : USBInterfaceType :=
  mkUSBInterfaceType (Some 9) (Some 0) None.

(** The classification as the design document words it: the device's
    interface type is the receiver of applies-to and the pattern its
    argument. *)
Definition controller_as_worded (d : LinuxDevice) : Prop :=
  String.prefix "usb" (getPort d) = true
  ∧ ∃ t, getInterfaceTypes d = [t] ∧ appliesTo t hub_pattern = true.

(** The wake-up handling as the design document words it: a turn in which
    the wake-up descriptor is readable drains the eventfd counter (a read
    of an eventfd resets its counter to zero). *)
Definition wakeup_drains_counter `{!USBLibrary, !LinuxSysIO} : Prop :=
  ∀ (w : World) (sel : select_result),
    select_reports w sel = true →
    FD_ISSET_event_fd sel = true → select_ret sel ≠ -1 →
    _event_fd (thread_iteration sel w).2 = 0.

(** A host whose default was "blocked" before the manager started. *)
Definition world_blocked : World := set_authorized_default false Example.world0.

(** The notifications among the events. *)
Definition hooks_of (evs : list Event) : list (Notification * LinuxDevice) :=
  omap (λ e, match e with EvHook n d => Some (n, d) | _ => None end) evs.

(** The targets handed to the policy backend among the events. *)
Definition applied_of (evs : list Event) : list (string * Target.t) :=
  omap (λ e, match e with EvApplyTarget s t => Some (s, t) | _ => None end) evs.

(** Every syspath of the syspath map names a registered device, no two
    syspaths share an identifier, and the allocator is ahead of every
    registered identifier. *)
Definition maps_consistent (w : World) : Prop :=
  (∀ s id, _syspath_map w !! s = Some id → is_Some (device_map w !! id))
  ∧ (∀ s1 s2 id,
       _syspath_map w !! s1 = Some id → _syspath_map w !! s2 = Some id → s1 = s2)
  ∧ (∀ id, is_Some (device_map w !! id) → (id < next_id w)%N).

(** The device that the hotplug "add" of the example registered. *)
Definition registered_hub : LinuxDevice :=
  default Device_new (device_map Example.world_registered !! 1%N).

Import RuleParser.

(** [empty()] of the attribute an identifier stands for. *)
Definition attribute_empty (a : attribute_identifier) (r : Rule) : bool :=
  match a with
  | str_name => empty (attributeName r)
  | str_id => empty (attributeDeviceID r)
  | str_hash => empty (attributeHash r)
  | str_parent_hash => empty (attributeParentHash r)
  | str_serial => empty (attributeSerial r)
  | str_via_port => empty (attributeViaPort r)
  | str_with_interface => empty (attributeWithInterface r)
  | str_if => empty (attributeConditions r)
  end.

(** The attribute identifiers matched in a rule text, in text order. *)
Definition identifiers (ms : list (action * Input)) : list attribute_identifier :=
  omap (λ m, match m.1 with on_identifier a => Some a | _ => None end) ms.

(** The grammar, on the level of the actions it fires. *)
Inductive grammar_step : expect → option action → expect → Prop :=
| gs_target : grammar_step ExpTarget (Some on_target) ExpDeviceIdOrAttribute
| gs_device_id : grammar_step ExpDeviceIdOrAttribute (Some on_device_id) ExpAttribute
| gs_first_identifier b :
    grammar_step ExpDeviceIdOrAttribute (Some (on_identifier b)) (ExpSet b)
| gs_identifier b : grammar_step ExpAttribute (Some (on_identifier b)) (ExpSet b)
| gs_operator a : grammar_step (ExpSet a) (Some (on_multiset_operator a)) (ExpOpenBrace a)
| gs_bare_value a : grammar_step (ExpSet a) (Some (on_value a)) ExpAttribute
| gs_open a : grammar_step (ExpOpenBrace a) None (ExpFirstValue a)
| gs_first_value a : grammar_step (ExpFirstValue a) (Some (on_value a)) (ExpValueOrClose a)
| gs_next_value a : grammar_step (ExpValueOrClose a) (Some (on_value a)) (ExpValueOrClose a)
| gs_close a : grammar_step (ExpValueOrClose a) None ExpAttribute.

(** The attribute whose clause is open and has no value yet. *)
Definition owed (st : expect) : option attribute_identifier :=
  match st with
  | ExpSet a | ExpOpenBrace a | ExpFirstValue a => Some a
  | _ => None
  end.

(** The attribute whose clause is open. *)
Definition pending (st : expect) : option attribute_identifier :=
  match st with
  | ExpSet a | ExpOpenBrace a | ExpFirstValue a | ExpValueOrClose a => Some a
  | _ => None
  end.

(** An exception whose message is none of the "already defined" ones. *)
Definition benign (ex : exception) : Prop :=
  DuplicateAttribute (mk_parse_error (what ex) 0) = false.

(** The duplicate check as the design document words it: wherever the
    [name] identifier is matched a second time, the parse fails with
    "name attribute already defined" at that match. *)
Definition second_name_always_reported : Prop :=
  ∀ text ms0 i1 ms1 i2 ms2 syn,
    grammar text
    = (ms0 ++ (on_identifier str_name, i1) :: ms1
           ++ (on_identifier str_name, i2) :: ms2, syn) →
    str_name ∉ identifiers ms0 → str_name ∉ identifiers ms1 →
    parse text
    = inl (mk_parse_error "name attribute already defined" (in_position i2)).

(** The rule text [allow name "a" name "b"] of the design document. *)
Definition two_names : string :=
  "allow name " +:+ Example.quoted "a" +:+ " name " +:+ Example.quoted "b".

(** A rule text with two [hash] clauses before its two [name] clauses. *)
Definition two_hashes_two_names : string :=
  "allow hash " +:+ Example.quoted "a" +:+ " hash " +:+ Example.quoted "b"
  +:+ " name " +:+ Example.quoted "x" +:+ " name " +:+ Example.quoted "y".

(** The text of the token is found in the characters [cs] at the token's
    position. *)
Definition located (cs : list Ascii.ascii) (text : string) (pos : nat) : Prop :=
  take (length (Str.chars text)) (drop pos cs) = Str.chars text.

Definition mode_agrees (mode : lex_mode) (pre : list Ascii.ascii) : Prop :=
  match mode with
  | Blank => True
  | InWord start acc _ | InString start acc _ =>
      ∃ pre0, pre = pre0 ++ rev acc ∧ length pre0 = start
  end.

(** ** Vocabulary of the further properties *)

(** The number of values an attribute holds. *)
Definition attribute_count (a : attribute_identifier) (r : Rule) : nat :=
  match a with
  | str_name => length (attr_values (attributeName r))
  | str_id => length (attr_values (attributeDeviceID r))
  | str_hash => length (attr_values (attributeHash r))
  | str_parent_hash => length (attr_values (attributeParentHash r))
  | str_serial => length (attr_values (attributeSerial r))
  | str_via_port => length (attr_values (attributeViaPort r))
  | str_with_interface => length (attr_values (attributeWithInterface r))
  | str_if => length (attr_values (attributeConditions r))
  end.

#[global] Instance action_eq_dec : EqDecision action.
Proof. solve_decision. Defined.

(** The number of value matches of an attribute among the matches. *)
Definition values_matched (a : attribute_identifier) (ms : list (action * Input)) : nat :=
  length (filter (λ m, m.1 = on_value a) ms).

(** Among the matches, a value or an operator match of the attribute. *)
Definition assigns (a : attribute_identifier) (ms : list (action * Input)) : Prop :=
  Exists (λ m, m.1 = on_value a ∨ m.1 = on_multiset_operator a) ms.

#[global] Instance assigns_dec a ms : Decision (assigns a ms).
Proof. unfold assigns. apply _. Defined.

(** The matches of [allow hash "a"], in the order the grammar reports
    them. *)
Definition allow_hash_a : list (action * Input) :=
  [(on_target, mkInput "allow" 0);
   (on_identifier str_hash, mkInput "hash" 6);
   (on_value str_hash, mkInput (Example.quoted "a") 11)].

(** What the [LinuxDevice] constructor needs in order to succeed. *)
Definition constructible `{!USBLibrary} (syspath_map : gmap string N) (fs : SysFS)
           (dev : udev_device) : Prop :=
  ∃ parent psys sys sysname authstate stream n ifs,
    udev_device_get_parent dev = Some parent
    ∧ udev_device_get_syspath parent = Some psys
    ∧ (udev_device_get_devtype parent = Some "usb_device" →
       is_Some (syspath_map !! psys))
    ∧ (∀ v p, udev_device_get_sysattr_value dev "idVendor" = Some v →
              udev_device_get_sysattr_value dev "idProduct" = Some p →
              is_Throw (USBDeviceID_new v p) = false)
    ∧ udev_device_get_syspath dev = Some sys
    ∧ udev_device_get_sysname dev = Some sysname
    ∧ fs !! (sys +:+ "/authorized") = Some authstate
    ∧ fs !! (sys +:+ "/descriptors") = Some stream
    ∧ USBDescriptorParser_parse stream = Ok (n, ifs)
    ∧ (sizeof_USBDeviceDescriptor ≤ n)%nat.

(** The device the constructor builds for the example hub. *)
Definition constructed_usb1 : LinuxDevice :=
  match LinuxDevice_new ∅ (sysfs Example.world_good) Example.usb1 with
  | Ok d => d
  | Throw _ => Device_new
  end.

(** The mutex events among the events. *)
Definition locks_of (evs : list Event) : list Event :=
  omap (λ e, match e with EvLock _ | EvUnlock _ => Some e | _ => None end) evs.

(** The backend writes among the events. *)
Definition writes_of (evs : list Event) : list (string * Z) :=
  omap (λ e, match e with EvSysioWrite p v => Some (p, v) | _ => None end) evs.

(** The targets the policy backend serves. *)
Definition policy_target (t : Target.t) : bool :=
  match t with
  | Target.Allow | Target.Block | Target.Reject => true
  | _ => false
  end.

(** A caller that applies the targets [ts] to one device in turn and
    catches what [applyDevicePolicy] throws; the result lists the targets
    whose application returned. *)
Fixpoint apply_each `{!LinuxSysIO} (id : N) (ts : list Target.t) (w : World)
  : list Target.t * World :=
  match ts with
  | [] => ([], w)
  | t :: rest =>
      match applyDevicePolicy id t w with
      | (Ok _, w') => let '(done, w'') := apply_each id rest w' in (t :: done, w'')
      | (Throw _, w') => apply_each id rest w'
      end
  end.
(** [LinuxDeviceManager::scan].  Modelled from the spec: [Thread::running]
    is not part of the sources at hand; what it answers is the argument
    [running]. *)
Definition scan `{!USBLibrary, !LinuxSysIO} (running : bool) : M unit :=
  if negb running then udevEnumerateDevices
  else throw (runtime_error "DeviceManager thread is running, cannot perform a scan").

(** The notifications are all [n]. *)
Definition only_hook (n : Notification) (evs : list Event) : Prop :=
  Forall (λ h, h.1 = n) (hooks_of evs).

(** Every USB device of the udev tree has a syspath. *)
Definition tree_has_syspaths (tree : gmap string udev_device) : Prop :=
  ∀ s dev, tree !! s = Some dev →
           udev_device_get_devtype dev = Some "usb_device" →
           is_Some (udev_device_get_syspath dev).

(** A turn of the worker in which [select] reports the monitor only. *)
Definition monitor_ready : select_result := mk_select_result 1 false true.
(** A host without any file below /sys: no device can be constructed and
    no write succeeds. *)
Definition world_bare : World := set_sysfs ∅ Example.world0.

(** The bare host with a hotplug "add" of the example hub pending. *)
Definition world_bare_add : World := set_umon_queue [Some Example.usb1] world_bare.

(** A device below the example hub. *)
Definition usb1_1 : udev_device :=
  mk_udev_device (Some Example.usb1) (Some "usb_device") (Some "/sys/bus/usb1/1-1")
    (Some "1-1") (Some "add") ∅.

(** A "change" event of the example hub. *)
Definition usb1_change : udev_device :=
  mk_udev_device (Some Example.pci_parent) (Some "usb_device") (Some "/sys/bus/usb1")
    (Some "usb1") (Some "change") ∅.

(** The udev tree of a host with the example hub and a device below it,
    and a host whose enumeration lists the device before the hub. *)
Definition tree_hub_and_device : gmap string udev_device :=
  <["/sys/bus/usb1" := Example.usb1]> (<["/sys/bus/usb1/1-1" := usb1_1]> ∅).

Definition world_enumerating : World :=
  mkWorld ∅ 1%N ∅ (sysfs Example.world_good) true 0 false []
    (Some [Some "/sys/bus/usb1/1-1"; None; Some "/sys/bus/usb1"])
    tree_hub_and_device [].

(** Results of [select]: a timeout and a failure. *)
Definition select_timeout : select_result := mk_select_result 0 false false.
Definition select_failure : select_result := mk_select_result (-1) false false.

(** The syspaths of the devices the presence path handled, in order: one
    for each logged failure and one for each [DevicePresent]. *)
Definition visits_of (evs : list Event) : list string :=
  omap (λ e, match e with
             | EvLogError sys _ => Some sys
             | EvHook DevicePresent d => Some (getSysPath d)
             | _ => None
             end) evs.

(** The syspaths of the USB devices an enumeration lists, in the order of
    the list: the entries that have a name, a device handle and the
    devtype "usb_device". *)
Definition listed_usb_devices (tree : gmap string udev_device)
           (devices : list (option string)) : list string :=
  omap (λ dlentry : option string,
          syspath ← dlentry;
          device ← tree !! syspath;
          devtype ← udev_device_get_devtype device;
          if String.eqb devtype "usb_device" then udev_device_get_syspath device
          else None) devices.

(** The file and the value [sysioApplyTarget] chooses for each target it
    serves. *)
Definition backend_operations : list (Target.t * string * Z) :=
  [(Target.Allow, "authorized", 1);
   (Target.Block, "authorized", 0);
   (Target.Reject, "remove", 1)].

(** The example backend with a path buffer of 16 bytes. *)
Definition sysio_short : LinuxSysIO := {|
  sysioWrite := @sysioWrite Example.sysio;
  SYSIO_PATH_MAX := 16
|}.

(** * Properties *)

(** ** Strings *)

Lemma substr0_prefix (p s : string) :
  Str.substr0 (String.length p) s = p ↔ String.prefix p s = true.
Proof.
  unfold Str.substr0. revert s.
  induction p as [|a p IH]; intros s; simpl.
  - destruct s; simpl; split; auto.
  - destruct s as [|b s]; simpl.
    + split; discriminate.
    + destruct (Ascii.ascii_dec a b) as [->|Hne].
      * rewrite <- IH. split; [intros [= ->]; reflexivity | intros ->; reflexivity].
      * split; [intros [= Hab _]; congruence | discriminate].
Qed.

(** ** Controller classification *)

Lemma hub_interface_parses : USBInterfaceType_of_string "09:00:*" = Ok hub_pattern.
Proof. reflexivity. Qed.

Lemma hub_pattern_appliesTo (t : USBInterfaceType) :
  appliesTo hub_pattern t = true ↔ bClass t = Some 9 ∧ bSubClass t = Some 0.
Proof.
  unfold appliesTo, hub_pattern, component_applies; simpl.
  rewrite andb_true_r, andb_true_iff, !bool_decide_eq_true. tauto.
Qed.

Example appliesTo_absorbs_wildcard :
  appliesTo (mkUSBInterfaceType (Some 9) (Some 0) None)
            (mkUSBInterfaceType (Some 9) (Some 0) (Some 0)) = true
  ∧ appliesTo (mkUSBInterfaceType (Some 9) (Some 1) None)
              (mkUSBInterfaceType (Some 9) (Some 0) (Some 0)) = false.
Proof. split; reflexivity. Qed.

(** C4, as worded, fails: a root hub on port usb1 with the single interface
    09:00:01 is classified as a controller, although its interface type
    does not apply to the pattern (its protocol 01 is not a wildcard and
    differs from the pattern's). *)
Lemma C4_isController_not_as_worded :
  ¬ (isController Example.usb1_root_hub = Ok true
     ↔ controller_as_worded Example.usb1_root_hub).
Proof.
  intros [Hto _].
  destruct (Hto eq_refl) as [_ (t & Ht & Happ)].
  injection Ht as <-. discriminate Happ.
Qed.

(** C4, amended: a device is classified as a controller iff its port
    begins with "usb" and it has exactly one interface type and the hub
    pattern 09:00:* applies to that interface type (the pattern's class 09
    and subclass 00 equal the interface type's, any protocol); the
    classification never throws. *)
Theorem C4_isController_iff (d : LinuxDevice) :
  (∃ b, isController d = Ok b)
  ∧ (isController d = Ok true
     ↔ String.prefix "usb" (getPort d) = true
       ∧ ∃ t, getInterfaceTypes d = [t] ∧ appliesTo hub_pattern t = true).
Proof.
  unfold isController. rewrite hub_interface_parses.
  pose proof (substr0_prefix "usb" (getPort d)) as Hp. simpl String.length in Hp.
  destruct (getInterfaceTypes d) as [|t [|t' l]] eqn:Hl; simpl.
  - rewrite orb_true_r. split; [eauto|].
    split; [discriminate | intros [_ (t & Ht & _)]; discriminate].
  - destruct (decide (Str.substr0 3 (getPort d) = "usb")) as [He|Hne].
    + rewrite bool_decide_eq_false_2 by (intros Hn; apply Hn, He). simpl.
      split; [eauto|]. split.
      * intros [= Happ]. split; [apply Hp, He | eauto].
      * intros [_ (t0 & [= <-] & Happ)]. by rewrite Happ.
    + rewrite bool_decide_eq_true_2 by done. simpl.
      split; [eauto|]. split; [discriminate|].
      intros [Hpre _]. apply Hp in Hpre. contradiction.
  - rewrite orb_true_r. split; [eauto|].
    split; [discriminate | intros [_ (t0 & Ht & _)]; discriminate].
Qed.

(** ** FixedStateCondition *)

(** C10: [update] returns the state fixed at construction for every rule
    and leaves the condition as it is; the condition is named "true"
    exactly when that state is true and "false" exactly when it is false;
    copies behave alike. *)
Theorem C10_FixedStateCondition_update (state negated : bool) (rule : Rule) :
  let c := FixedStateCondition_new state negated in
  FixedStateCondition_update c rule = (state, c)
  ∧ FixedStateCondition_update (FixedStateCondition_clone c) rule = (state, c)
  ∧ (identifier c = "true" ↔ state = true)
  ∧ (identifier c = "false" ↔ state = false).
Proof.
  destruct state; simpl; repeat split; intros; try reflexivity; discriminate.
Qed.

Lemma FixedStateCondition_update_repeat (c : FixedStateCondition) (r1 r2 : Rule) :
  let '(b1, c1) := FixedStateCondition_update c r1 in
  FixedStateCondition_update c1 r2 = (b1, c).
Proof. reflexivity. Qed.

Example getImplementation_true_false :
  getImplementation "true" = Ok (FixedState (FixedStateCondition_new true false))
  ∧ getImplementation "!false" = Ok (FixedState (FixedStateCondition_new false true)).
Proof. split; reflexivity. Qed.

(** ** Default authorization at startup and shutdown *)

Lemma LinuxDeviceManager_new_blocks (w : World) :
  authorized_default (LinuxDeviceManager_new w).2 = false.
Proof. reflexivity. Qed.

Lemma LinuxDeviceManager_delete_default (w : World) :
  authorized_default (LinuxDeviceManager_delete w).2 = true.
Proof. reflexivity. Qed.

(** C2 at the failing input: the default was "blocked" before startup, and
    after startup and shutdown it is "authorized": the destructor writes a
    constant, nothing was recorded. *)
Theorem C2_shutdown_does_not_restore_default :
  authorized_default world_blocked = false
  ∧ authorized_default
      (LinuxDeviceManager_delete (LinuxDeviceManager_new world_blocked).2).2 = true
  ∧ trace (LinuxDeviceManager_delete (LinuxDeviceManager_new world_blocked).2).2
    = [EvSetAuthorizedDefault false; EvSetAuthorizedDefault true].
Proof. repeat split. Qed.

(** ** The device manager *)

Ltac munfold :=
  unfold mbind, mret, M_mbind, M_mret, M_bind, M_ret, throw, get, modify, lift, emit,
    try_catch, with_device_lock, logger_error, hook in *.

Lemma hooks_of_app (a b : list Event) : hooks_of (a ++ b) = hooks_of a ++ hooks_of b.
Proof. apply omap_app. Qed.

Lemma hooks_of_cons (e : Event) (l : list Event) :
  hooks_of (e :: l)
  = match e with EvHook n d => (n, d) :: hooks_of l | _ => hooks_of l end.
Proof. by destruct e. Qed.

Lemma applied_of_app (a b : list Event) :
  applied_of (a ++ b) = applied_of a ++ applied_of b.
Proof. apply omap_app. Qed.

Lemma applied_of_cons (e : Event) (l : list Event) :
  applied_of (e :: l)
  = match e with EvApplyTarget s t => (s, t) :: applied_of l | _ => applied_of l end.
Proof. by destruct e. Qed.

Lemma hooks_of_nil : hooks_of [] = [].
Proof. reflexivity. Qed.

Lemma applied_of_nil : applied_of [] = [].
Proof. reflexivity. Qed.

Create Rewrite HintDb events.
#[global] Hint Rewrite hooks_of_app hooks_of_cons hooks_of_nil
  applied_of_app applied_of_cons applied_of_nil @app_nil_r : events.

Section ManagerProperties.
Context `{!USBLibrary, !LinuxSysIO}.

Lemma LinuxDevice_new_syspath syspath_map fs dev d :
  LinuxDevice_new syspath_map fs dev = Ok d →
  udev_device_get_syspath dev = Some (getSysPath d) ∧ getID d = None.
Proof.
  unfold LinuxDevice_new, mbind, result_mbind, result_bind. intros Hnew.
  repeat (case_match; simplify_eq/=); done.
Qed.

(** The backend operation touches neither the manager's maps nor the
    allocator, and adds to the trace its own call and at most one
    write. *)
Lemma sysioApplyTarget_frame sys target w :
  let w' := (sysioApplyTarget sys target w).2 in
  device_map w' = device_map w ∧ next_id w' = next_id w
  ∧ _syspath_map w' = _syspath_map w
  ∧ authorized_default w' = authorized_default w
  ∧ ∃ evs, trace w' = trace w ++ EvApplyTarget sys target :: evs
           ∧ hooks_of evs = [] ∧ applied_of evs = [].
Proof.
  unfold sysioApplyTarget, sysioWrite_call. munfold.
  destruct target; simpl; try (repeat split; by exists []);
    destruct (sysioWrite _ _ _); simpl; repeat split;
    rewrite <- app_assoc; by eexists [_].
Qed.

Lemma sysioApplyTarget_Reject sys w :
  trace (sysioApplyTarget sys Target.Reject w).2
  = trace w ++ [EvApplyTarget sys Target.Reject;
                EvSysioWrite (snprintf_path sys "remove") 1].
Proof.
  unfold sysioApplyTarget, sysioWrite_call. munfold. simpl.
  destruct (sysioWrite _ _ _); simpl; by rewrite <- app_assoc.
Qed.

(** The two outcomes of [applyDevicePolicy] on a registered device, by the
    outcome of the backend operation under the device mutex. *)
Lemma applyDevicePolicy_cases (id : N) (target : Target.t) (w : World)
        (d : LinuxDevice) :
  device_map w !! id = Some d →
  let locked := set_trace (trace w ++ [EvLock (getID d)]) w in
  match sysioApplyTarget (getSysPath d) target locked with
  | (Throw e, wb) =>
      applyDevicePolicy id target w
      = (Throw e, set_trace (trace wb ++ [EvUnlock (getID d)]) wb)
      ∧ device_map (applyDevicePolicy id target w).2 = device_map w
      ∧ device_map (applyDevicePolicy id target w).2 !! id = Some d
  | (Ok _, wb) =>
      let d' := setTarget target d in
      applyDevicePolicy id target w
      = (Ok d',
         set_trace (trace wb ++ [EvSetTarget (getID d) target; EvUnlock (getID d)])
           (set_device_map (<[id := d']> (device_map wb)) wb))
      ∧ device_map (applyDevicePolicy id target w).2 = <[id := d']> (device_map w)
      ∧ getTarget d' = target
  end.
Proof.
  intros Hd. simpl.
  pose proof (sysioApplyTarget_frame (getSysPath d) target
                (set_trace (trace w ++ [EvLock (getID d)]) w)) as (Hm & _).
  unfold applyDevicePolicy, DeviceManager_getDevice. munfold. simpl. rewrite Hd. simpl.
  destruct (sysioApplyTarget _ _ _) as [[[]|e] wb] eqn:Hb; simpl in *.
  - rewrite Hm. repeat split. unfold set_trace, set_device_map; simpl.
    by rewrite <- app_assoc.
  - rewrite Hm. done.
Qed.

(** C3: policy application takes the device mutex, performs the backend
    operation, and, only when that succeeded, stores the new cached
    target before the mutex is released; when the backend operation
    throws, the same exception leaves [applyDevicePolicy], the mutex is
    released and the registered device (with its cached target) is as
    before. *)
Theorem C3_applyDevicePolicy_surfaces_failure (id : N) (target : Target.t) (w : World)
        (d : LinuxDevice) :
  device_map w !! id = Some d →
  let locked := set_trace (trace w ++ [EvLock (getID d)]) w in
  match sysioApplyTarget (getSysPath d) target locked with
  | (Throw e, wb) =>
      applyDevicePolicy id target w
      = (Throw e, set_trace (trace wb ++ [EvUnlock (getID d)]) wb)
      ∧ device_map (applyDevicePolicy id target w).2 = device_map w
      ∧ device_map (applyDevicePolicy id target w).2 !! id = Some d
  | (Ok _, wb) =>
      let d' := setTarget target d in
      applyDevicePolicy id target w
      = (Ok d',
         set_trace (trace wb ++ [EvSetTarget (getID d) target; EvUnlock (getID d)])
           (set_device_map (<[id := d']> (device_map wb)) wb))
      ∧ device_map (applyDevicePolicy id target w).2 = <[id := d']> (device_map w)
      ∧ getTarget d' = target
  end.
Proof. exact (applyDevicePolicy_cases id target w d). Qed.

Lemma applyDevicePolicy_unknown (id : N) (target : Target.t) (w : World) :
  device_map w !! id = None →
  ∃ e, applyDevicePolicy id target w = (Throw e, w).
Proof.
  intros Hd. unfold applyDevicePolicy, DeviceManager_getDevice. munfold.
  rewrite Hd. eauto.
Qed.

(** [applyDevicePolicy] raises no notification. *)
Lemma applyDevicePolicy_hooks (id : N) (target : Target.t) (w : World) :
  hooks_of (trace (applyDevicePolicy id target w).2) = hooks_of (trace w).
Proof.
  destruct (device_map w !! id) as [d|] eqn:Hd.
  - pose proof (applyDevicePolicy_cases id target w d Hd) as Hspec. simpl in Hspec.
    pose proof (sysioApplyTarget_frame (getSysPath d) target
                  (set_trace (trace w ++ [EvLock (getID d)]) w))
      as (_ & _ & _ & _ & evs & Htr & Hh & _).
    destruct (sysioApplyTarget _ _ _) as [[[]|e] wb]; simpl in *;
      destruct Hspec as (-> & _); simpl; rewrite Htr;
      autorewrite with events; by rewrite Hh; autorewrite with events.
  - by destruct (applyDevicePolicy_unknown id target w Hd) as [e ->].
Qed.

Lemma applyDevicePolicy_result (id : N) (target : Target.t) (w : World) :
  match applyDevicePolicy id target w with
  | (Ok d, w') => getTarget d = target ∧ device_map w' !! id = Some d
  | _ => True
  end.
Proof.
  destruct (device_map w !! id) as [d|] eqn:Hd.
  - pose proof (applyDevicePolicy_cases id target w d Hd) as Hspec. simpl in Hspec.
    destruct (sysioApplyTarget _ _ _) as [[[]|e] wb]; simpl in *;
      destruct Hspec as (Heq & Hmap & _); rewrite Heq in *; [|done].
    simpl in *. rewrite Hmap. split; [done|]. apply lookup_insert_eq.
  - by destruct (applyDevicePolicy_unknown id target w Hd) as [e ->].
Qed.

(** The common shape of [allowDevice], [blockDevice], [rejectDevice]. *)
Lemma notify_after_apply (n : Notification) (target : Target.t) (id : N) (w : World) :
  let entry : M LinuxDevice :=
    device ← applyDevicePolicy id target; hook n device;; mret device in
  match applyDevicePolicy id target w with
  | (Throw e, w') =>
      entry w = (Throw e, w')
      ∧ hooks_of (trace (entry w).2) = hooks_of (trace w)
  | (Ok d, w') =>
      entry w = (Ok d, set_trace (trace w' ++ [EvHook n d]) w')
      ∧ hooks_of (trace (entry w).2) = hooks_of (trace w) ++ [(n, d)]
      ∧ getTarget d = target
      ∧ device_map (entry w).2 !! id = Some d
  end.
Proof.
  pose proof (applyDevicePolicy_hooks id target w) as Hh.
  pose proof (applyDevicePolicy_result id target w) as Ht.
  munfold.
  destruct (applyDevicePolicy id target w) as [[d|e] w']; simpl in *.
  - repeat split; try tauto. autorewrite with events. by rewrite Hh.
  - done.
Qed.

(** The three policy entry points, by the outcome of
    [applyDevicePolicy]. *)
Lemma policy_entry_cases (id : N) (w : World) :
  let after (n : Notification) (target : Target.t) (entry : N → M LinuxDevice) :=
    match applyDevicePolicy id target w with
    | (Throw e, w') =>
        entry id w = (Throw e, w')
        ∧ hooks_of (trace (entry id w).2) = hooks_of (trace w)
    | (Ok d, w') =>
        entry id w = (Ok d, set_trace (trace w' ++ [EvHook n d]) w')
        ∧ hooks_of (trace (entry id w).2) = hooks_of (trace w) ++ [(n, d)]
        ∧ getTarget d = target
        ∧ device_map (entry id w).2 !! id = Some d
    end in
  after DeviceAllowed Target.Allow allowDevice
  ∧ after DeviceBlocked Target.Block blockDevice
  ∧ after DeviceRejected Target.Reject rejectDevice.
Proof.
  repeat split.
  - apply (notify_after_apply DeviceAllowed Target.Allow).
  - apply (notify_after_apply DeviceBlocked Target.Block).
  - apply (notify_after_apply DeviceRejected Target.Reject).
Qed.

(** What [sysioApplyTarget] does for a target it serves. *)
Lemma sysioApplyTarget_served (sys : string) (target : Target.t)
      (file : string) (value : Z) (w : World) :
  (target, file, value) ∈ backend_operations →
  let path := snprintf_path sys file in
  sysioApplyTarget sys target w
  = match sysioWrite path value (sysfs w) with
    | Ok fs =>
        (Ok tt,
         set_sysfs fs
           (set_trace (trace w ++ [EvApplyTarget sys target; EvSysioWrite path value]) w))
    | Throw e =>
        (Throw e,
         set_trace (trace w ++ [EvApplyTarget sys target; EvSysioWrite path value]) w)
    end.
Proof.
  intros Hin. unfold backend_operations in Hin.
  assert ((target, file, value) = (Target.Allow, "authorized", 1)
          ∨ (target, file, value) = (Target.Block, "authorized", 0)
          ∨ (target, file, value) = (Target.Reject, "remove", 1)) as Hcases.
  { rewrite !elem_of_cons, elem_of_nil in Hin. tauto. }
  cbv zeta. unfold sysioApplyTarget, sysioWrite_call. munfold.
  destruct Hcases as [Heq|[Heq|Heq]]; injection Heq as -> -> ->; simpl;
    destruct (sysioWrite _ _ _); simpl; unfold set_trace, set_sysfs; simpl;
    by rewrite <- app_assoc.
Qed.

(** A policy entry point on a registered device, event by event. *)
Lemma notify_after_write (n : Notification)
      (target : Target.t) (file : string) (value : Z) (id : N) (w : World)
      (d : LinuxDevice) :
  (target, file, value) ∈ backend_operations →
  device_map w !! id = Some d →
  let entry : M LinuxDevice :=
    device ← applyDevicePolicy id target; hook n device;; mret device in
  let path := snprintf_path (getSysPath d) file in
  let d' := setTarget target d in
  entry w
  = match sysioWrite path value (sysfs w) with
    | Ok fs =>
        (Ok d',
         set_sysfs fs
           (set_trace (trace w ++ [EvLock (getID d);
                                   EvApplyTarget (getSysPath d) target;
                                   EvSysioWrite path value;
                                   EvSetTarget (getID d) target;
                                   EvUnlock (getID d);
                                   EvHook n d'])
              (set_device_map (<[id := d']> (device_map w)) w)))
    | Throw e =>
        (Throw e,
         set_trace (trace w ++ [EvLock (getID d);
                                EvApplyTarget (getSysPath d) target;
                                EvSysioWrite path value;
                                EvUnlock (getID d)]) w)
    end.
Proof.
  intros Hin Hd. cbv zeta.
  pose proof (applyDevicePolicy_cases id target w d Hd) as Hcase. cbv zeta in Hcase.
  rewrite (sysioApplyTarget_served _ _ _ _ _ Hin) in Hcase. cbv zeta in Hcase.
  simpl in Hcase. munfold.
  destruct (sysioWrite _ _ _) as [fs|e]; destruct Hcase as (-> & _); simpl;
    unfold set_trace, set_sysfs, set_device_map; simpl;
    by rewrite <- !app_assoc.
Qed.

(** The three policy entry points, event by event. *)
Lemma policy_entry_events (id : N) (w : World) :
  let after (n : Notification) (target : Target.t) (file : string) (value : Z)
            (entry : N → M LinuxDevice) :=
    match device_map w !! id with
    | None => ∃ e, entry id w = (Throw e, w)
    | Some d =>
        let path := snprintf_path (getSysPath d) file in
        let d' := setTarget target d in
        entry id w
        = match sysioWrite path value (sysfs w) with
          | Ok fs =>
              (Ok d',
               set_sysfs fs
                 (set_trace (trace w ++ [EvLock (getID d);
                                         EvApplyTarget (getSysPath d) target;
                                         EvSysioWrite path value;
                                         EvSetTarget (getID d) target;
                                         EvUnlock (getID d);
                                         EvHook n d'])
                    (set_device_map (<[id := d']> (device_map w)) w)))
          | Throw e =>
              (Throw e,
               set_trace (trace w ++ [EvLock (getID d);
                                      EvApplyTarget (getSysPath d) target;
                                      EvSysioWrite path value;
                                      EvUnlock (getID d)]) w)
          end
    end in
  after DeviceAllowed Target.Allow "authorized" 1 allowDevice
  ∧ after DeviceBlocked Target.Block "authorized" 0 blockDevice
  ∧ after DeviceRejected Target.Reject "remove" 1 rejectDevice.
Proof.
  cbv zeta. destruct (device_map w !! id) as [d|] eqn:Hd.
  - split; [|split].
    + apply (notify_after_write DeviceAllowed Target.Allow "authorized" 1); [|done].
      unfold backend_operations. rewrite !elem_of_cons. tauto.
    + apply (notify_after_write DeviceBlocked Target.Block "authorized" 0); [|done].
      unfold backend_operations. rewrite !elem_of_cons. tauto.
    + apply (notify_after_write DeviceRejected Target.Reject "remove" 1); [|done].
      unfold backend_operations. rewrite !elem_of_cons. tauto.
  - unfold allowDevice, blockDevice, rejectDevice. munfold.
    destruct (applyDevicePolicy_unknown id Target.Allow w Hd) as [e1 ->].
    destruct (applyDevicePolicy_unknown id Target.Block w Hd) as [e2 ->].
    destruct (applyDevicePolicy_unknown id Target.Reject w Hd) as [e3 ->].
    split; [by eexists|]. split; by eexists.
Qed.

(** C8: [allowDevice], [blockDevice] and [rejectDevice] on a registered
    device do, in this order: take the device mutex, call the backend for
    the device's syspath, write the value of the target to the target's
    file, and then, only when the write returned, store the cached target,
    release the mutex and raise their notification as the last step,
    carrying the device with its new target.  When the write throws, the
    mutex is released, the exception is passed on, the device keeps its
    target and no notification is raised.  On an identifier that is not
    registered they throw and do nothing. *)
Theorem C8_notification_after_success (id : N) (w : World) :
  let after (n : Notification) (target : Target.t) (file : string) (value : Z)
            (entry : N → M LinuxDevice) :=
    match device_map w !! id with
    | None => ∃ e, entry id w = (Throw e, w)
    | Some d =>
        let path := snprintf_path (getSysPath d) file in
        let d' := setTarget target d in
        entry id w
        = match sysioWrite path value (sysfs w) with
          | Ok fs =>
              (Ok d',
               set_sysfs fs
                 (set_trace (trace w ++ [EvLock (getID d);
                                         EvApplyTarget (getSysPath d) target;
                                         EvSysioWrite path value;
                                         EvSetTarget (getID d) target;
                                         EvUnlock (getID d);
                                         EvHook n d'])
                    (set_device_map (<[id := d']> (device_map w)) w)))
          | Throw e =>
              (Throw e,
               set_trace (trace w ++ [EvLock (getID d);
                                      EvApplyTarget (getSysPath d) target;
                                      EvSysioWrite path value;
                                      EvUnlock (getID d)]) w)
          end
    end in
  after DeviceAllowed Target.Allow "authorized" 1 allowDevice
  ∧ after DeviceBlocked Target.Block "authorized" 0 blockDevice
  ∧ after DeviceRejected Target.Reject "remove" 1 rejectDevice.
Proof. exact (policy_entry_events id w). Qed.


Lemma insertDevice_spec (d : LinuxDevice) (w : World) :
  let id := next_id w in
  let d' := setID id d in
  insertDevice d w
  = (Ok d',
     set_trace (trace w ++ [EvLock (Some id); EvUnlock (Some id)])
       (set_syspath_map (<[getSysPath d := id]> (_syspath_map w))
          (set_next_id (id + 1)%N
             (set_device_map (<[id := d']> (device_map w)) w)))).
Proof.
  unfold insertDevice, DeviceManager_insertDevice. munfold. simpl.
  destruct w; simpl. unfold set_trace; simpl. by rewrite <- app_assoc.
Qed.

(** The two outcomes of the insertion path, by the outcome of the
    [LinuxDevice] constructor. *)
Lemma processDeviceInsertion_cases (dev : udev_device) (sys : string) (w : World) :
  udev_device_get_syspath dev = Some sys →
  match LinuxDevice_new (_syspath_map w) (sysfs w) dev with
  | Throw ex =>
      let w' := (processDeviceInsertion dev w).2 in
      processDeviceInsertion dev w
      = sysioApplyTarget sys Target.Reject
          (set_trace (trace w ++ [EvLogError sys (what ex)]) w)
      ∧ trace w'
        = trace w ++ [EvLogError sys (what ex);
                      EvApplyTarget sys Target.Reject;
                      EvSysioWrite (snprintf_path sys "remove") 1]
      ∧ device_map w' = device_map w
      ∧ _syspath_map w' = _syspath_map w
      ∧ next_id w' = next_id w
  | Ok d =>
      let id := next_id w in
      let d' := setID id d in
      processDeviceInsertion dev w
      = (Ok tt,
         set_trace (trace w ++ [EvLock (Some id); EvUnlock (Some id);
                                EvHook DeviceInserted d'])
           (set_syspath_map (<[sys := id]> (_syspath_map w))
              (set_next_id (id + 1)%N
                 (set_device_map (<[id := d']> (device_map w)) w))))
  end.
Proof.
  intros Hsys.
  destruct (LinuxDevice_new _ _ _) as [d|ex] eqn:Hnew.
  - apply LinuxDevice_new_syspath in Hnew as Hd. destruct Hd as [Hd _].
    rewrite Hsys in Hd. injection Hd as ->.
    unfold processDeviceInsertion, String_of_cstr, construct. rewrite Hsys.
    pose proof (insertDevice_spec d w) as Hins. cbv zeta in Hins.
    munfold. cbn beta. rewrite Hnew. cbn beta iota. rewrite Hins. cbn beta iota.
    destruct w; simpl. unfold set_trace; simpl. by rewrite <- app_assoc.
  - assert (processDeviceInsertion dev w
            = sysioApplyTarget sys Target.Reject
                (set_trace (trace w ++ [EvLogError sys (what ex)]) w)) as Heq.
    { unfold processDeviceInsertion, String_of_cstr, construct. rewrite Hsys.
      munfold. simpl. by rewrite Hnew. }
    simpl. rewrite Heq. split; [done|].
    rewrite sysioApplyTarget_Reject. simpl. rewrite <- app_assoc.
    pose proof (sysioApplyTarget_frame sys Target.Reject
                  (set_trace (trace w ++ [EvLogError sys (what ex)]) w))
      as (Hm & Hn & Hs & _).
    simpl in *. by rewrite Hm, Hn, Hs.
Qed.

(** C1: on a hotplug "add", when the [LinuxDevice] constructor throws,
    the manager logs the error and then applies REJECT for the device's
    syspath through the backend, once, and that is all: no device is
    registered in either map, no identifier is used up, no notification
    is raised.  When the constructor succeeds, the device is registered
    under a fresh identifier in both maps and [DeviceInserted] is raised
    for it; the backend is not called. *)
Theorem C1_insertion_rejects_on_failure (dev : udev_device) (sys : string) (w : World) :
  udev_device_get_syspath dev = Some sys →
  match LinuxDevice_new (_syspath_map w) (sysfs w) dev with
  | Throw ex =>
      let w' := (processDeviceInsertion dev w).2 in
      processDeviceInsertion dev w
      = sysioApplyTarget sys Target.Reject
          (set_trace (trace w ++ [EvLogError sys (what ex)]) w)
      ∧ trace w'
        = trace w ++ [EvLogError sys (what ex);
                      EvApplyTarget sys Target.Reject;
                      EvSysioWrite (snprintf_path sys "remove") 1]
      ∧ device_map w' = device_map w
      ∧ _syspath_map w' = _syspath_map w
      ∧ next_id w' = next_id w
  | Ok d =>
      let id := next_id w in
      let d' := setID id d in
      processDeviceInsertion dev w
      = (Ok tt,
         set_trace (trace w ++ [EvLock (Some id); EvUnlock (Some id);
                                EvHook DeviceInserted d'])
           (set_syspath_map (<[sys := id]> (_syspath_map w))
              (set_next_id (id + 1)%N
                 (set_device_map (<[id := d']> (device_map w)) w))))
  end.
Proof. exact (processDeviceInsertion_cases dev sys w). Qed.

(** The two outcomes of the presence path. *)
Lemma processDevicePresence_cases (dev : udev_device) (sys : string) (w : World) :
  udev_device_get_syspath dev = Some sys →
  match LinuxDevice_new (_syspath_map w) (sysfs w) dev with
  | Throw ex =>
      processDevicePresence dev w
      = (Ok tt, set_trace (trace w ++ [EvLogError sys (what ex)]) w)
  | Ok d =>
      let id := next_id w in
      let d' := setID id d in
      processDevicePresence dev w
      = (Ok tt,
         set_trace (trace w ++ [EvLock (Some id); EvUnlock (Some id);
                                EvHook DevicePresent d'])
           (set_syspath_map (<[sys := id]> (_syspath_map w))
              (set_next_id (id + 1)%N
                 (set_device_map (<[id := d']> (device_map w)) w))))
  end.
Proof.
  intros Hsys.
  destruct (LinuxDevice_new _ _ _) as [d|ex] eqn:Hnew.
  - apply LinuxDevice_new_syspath in Hnew as Hd. destruct Hd as [Hd _].
    rewrite Hsys in Hd. injection Hd as ->.
    unfold processDevicePresence, String_of_cstr, construct. rewrite Hsys.
    pose proof (insertDevice_spec d w) as Hins. cbv zeta in Hins.
    munfold. cbn beta. rewrite Hnew. cbn beta iota. rewrite Hins. cbn beta iota.
    destruct w; simpl. unfold set_trace; simpl. by rewrite <- app_assoc.
  - unfold processDevicePresence, String_of_cstr, construct. rewrite Hsys.
    munfold. simpl. by rewrite Hnew.
Qed.



(** The presence path never calls the policy backend, whatever the
    device handle. *)
Lemma processDevicePresence_applied (dev : udev_device) (w : World) :
  applied_of (trace (processDevicePresence dev w).2) = applied_of (trace w).
Proof.
  destruct (udev_device_get_syspath dev) as [sys|] eqn:Hsys.
  - pose proof (processDevicePresence_cases dev sys w Hsys) as Hspec.
    destruct (LinuxDevice_new _ _ _); simpl in Hspec; rewrite Hspec; simpl;
      by autorewrite with events.
  - unfold processDevicePresence, String_of_cstr. rewrite Hsys. by munfold.
Qed.

Lemma udevEnumerateDevices_loop_applied tree (devices : list (option string)) (w : World) :
  applied_of (trace (udevEnumerateDevices_loop tree devices w).2) = applied_of (trace w).
Proof.
  revert w. induction devices as [|dlentry rest IH]; intros w; [done|].
  simpl. unfold mbind, M_mbind, M_bind.
  assert (applied_of (trace (udevEnumerateDevices_entry tree dlentry w).2)
          = applied_of (trace w)) as He.
  { unfold udevEnumerateDevices_entry.
    repeat case_match; try done. apply processDevicePresence_applied. }
  destruct (udevEnumerateDevices_entry tree dlentry w) as [[[]|e] w1]; simpl in *.
  - by rewrite IH.
  - done.
Qed.

(** Enumeration at startup never calls the policy backend. *)
Lemma udevEnumerateDevices_applied (w : World) :
  applied_of (trace (udevEnumerateDevices w).2) = applied_of (trace w).
Proof.
  unfold udevEnumerateDevices. munfold.
  destruct (udev_enumerate w); [apply udevEnumerateDevices_loop_applied | done].
Qed.

(** C5: on the presence path, when the [LinuxDevice] constructor throws,
    the error is logged and nothing else happens: the backend is not
    called, no device is registered, no notification is raised (when the
    constructor succeeds, the device is registered and [DevicePresent] is
    raised); and the whole enumeration at startup hands no target to the
    policy backend. *)
Theorem C5_presence_does_not_reject (dev : udev_device) (sys : string) (w : World) :
  udev_device_get_syspath dev = Some sys →
  match LinuxDevice_new (_syspath_map w) (sysfs w) dev with
  | Throw ex =>
      processDevicePresence dev w
      = (Ok tt, set_trace (trace w ++ [EvLogError sys (what ex)]) w)
  | Ok d =>
      let id := next_id w in
      let d' := setID id d in
      processDevicePresence dev w
      = (Ok tt,
         set_trace (trace w ++ [EvLock (Some id); EvUnlock (Some id);
                                EvHook DevicePresent d'])
           (set_syspath_map (<[sys := id]> (_syspath_map w))
              (set_next_id (id + 1)%N
                 (set_device_map (<[id := d']> (device_map w)) w))))
  end
  ∧ applied_of (trace (processDevicePresence dev w).2) = applied_of (trace w)
  ∧ applied_of (trace (udevEnumerateDevices w).2) = applied_of (trace w).
Proof.
  intros Hsys. split; [exact (processDevicePresence_cases dev sys w Hsys)|].
  split; [apply processDevicePresence_applied | apply udevEnumerateDevices_applied].
Qed.

(** *** The syspath map *)

Lemma maps_consistent_insertDevice (d : LinuxDevice) (w : World) :
  maps_consistent w → maps_consistent (insertDevice d w).2.
Proof.
  intros (Hreg & Hinj & Hlt). rewrite insertDevice_spec. simpl.
  split; [|split]; simpl.
  - intros s id. rewrite lookup_insert. case_decide; intros Hs; simplify_eq.
    + rewrite lookup_insert_eq. eauto.
    + destruct (decide (next_id w = id)) as [<-|Hne].
      * rewrite lookup_insert_eq. eauto.
      * rewrite lookup_insert_ne by done. eauto.
  - intros s1 s2 id. rewrite !lookup_insert.
    repeat case_decide; intros Hs1 Hs2; simplify_eq; eauto.
    + apply Hreg, Hlt in Hs2. lia.
    + apply Hreg, Hlt in Hs1. lia.
  - intros id. rewrite lookup_insert. case_decide; intros Hs; simplify_eq.
    + lia.
    + apply Hlt in Hs. lia.
Qed.

Lemma maps_consistent_trace (evs : list Event) (w : World) :
  maps_consistent w → maps_consistent (set_trace evs w).
Proof. done. Qed.

(** The outcomes of [removeDevice(syspath)]. *)
Lemma removeDevice_cases (syspath : string) (w : World) :
  maps_consistent w →
  (∀ e w', removeDevice syspath w = (Throw e, w') → w' = w)
  ∧ match _syspath_map w !! syspath with
    | None =>
        removeDevice syspath w
        = (Throw (runtime_error "Unknown device, cannot remove from syspath map"), w)
    | Some id =>
        ∃ d, device_map w !! id = Some d
             ∧ removeDevice syspath w
               = (Ok d,
                  set_syspath_map (delete syspath (_syspath_map w))
                    (set_device_map (delete id (device_map w)) w))
    end.
Proof.
  intros (Hreg & _ & _).
  unfold removeDevice, DeviceManager_removeDevice. munfold.
  destruct (_syspath_map w !! syspath) as [id|] eqn:Hs.
  - destruct (Hreg _ _ Hs) as [d Hd]. rewrite Hd. simpl.
    split; [discriminate|]. eauto.
  - split; [|done]. by intros e w' [= _ <-].
Qed.

(** C9: [removeDevice(syspath)] either throws and leaves the world as it
    was, or succeeds; for a syspath that is not in the map it throws; for
    one that is, in a manager whose maps are consistent, it takes the
    device out of the device map, erases the syspath's entry and returns
    the device. *)
Theorem C9_removeDevice_atomic (syspath : string) (w : World) :
  maps_consistent w →
  (∀ e w', removeDevice syspath w = (Throw e, w') → w' = w)
  ∧ match _syspath_map w !! syspath with
    | None =>
        removeDevice syspath w
        = (Throw (runtime_error "Unknown device, cannot remove from syspath map"), w)
    | Some id =>
        ∃ d, device_map w !! id = Some d
             ∧ removeDevice syspath w
               = (Ok d,
                  set_syspath_map (delete syspath (_syspath_map w))
                    (set_device_map (delete id (device_map w)) w))
    end.
Proof. exact (removeDevice_cases syspath w). Qed.

(** Without the consistency assumption, a throw still leaves the world
    as it was. *)
Lemma removeDevice_throw_unchanged (syspath : string) (w w' : World) (e : exception) :
  removeDevice syspath w = (Throw e, w') → w' = w.
Proof.
  unfold removeDevice, DeviceManager_removeDevice. munfold.
  repeat case_match; simplify_eq/=; congruence.
Qed.

Lemma maps_consistent_removeDevice (syspath : string) (w : World) :
  maps_consistent w → maps_consistent (removeDevice syspath w).2.
Proof.
  intros Hc. pose proof Hc as (Hreg & Hinj & Hlt).
  destruct (removeDevice_cases syspath w Hc) as [_ Hcase].
  destruct (_syspath_map w !! syspath) as [id|] eqn:Hs.
  - destruct Hcase as (d & Hd & ->). simpl. split; [|split]; simpl.
    + intros s i. rewrite lookup_delete. case_decide; [done|]. intros Hsi.
      assert (i ≠ id) by (intros ->; eauto).
      rewrite lookup_delete_ne by done. eauto.
    + intros s1 s2 i. rewrite !lookup_delete. repeat case_decide; try done. eauto.
    + intros i. rewrite lookup_delete. case_decide; [by intros []|]. eauto.
  - by rewrite Hcase.
Qed.

Lemma maps_consistent_applyDevicePolicy (id : N) (target : Target.t) (w : World) :
  maps_consistent w → maps_consistent (applyDevicePolicy id target w).2.
Proof.
  intros Hc. pose proof Hc as (Hreg & Hinj & Hlt).
  destruct (device_map w !! id) as [d|] eqn:Hd.
  - pose proof (applyDevicePolicy_cases id target w d Hd) as Hspec. simpl in Hspec.
    pose proof (sysioApplyTarget_frame (getSysPath d) target
                  (set_trace (trace w ++ [EvLock (getID d)]) w))
      as (Hm & Hn & Hsm & _).
    destruct (sysioApplyTarget _ _ _) as [[[]|e] wb]; simpl in *;
      destruct Hspec as (-> & _); simpl.
    + split; [|split]; simpl; rewrite ?Hm, ?Hn, ?Hsm.
      * intros s i Hs. rewrite lookup_insert. case_decide; eauto.
      * done.
      * intros i. rewrite lookup_insert. case_decide; simplify_eq; eauto.
    + split; [|split]; simpl; by rewrite ?Hm, ?Hn, ?Hsm.
  - by destruct (applyDevicePolicy_unknown id target w Hd) as [e ->].
Qed.

Lemma maps_consistent_processDeviceInsertion (dev : udev_device) (w : World) :
  maps_consistent w → maps_consistent (processDeviceInsertion dev w).2.
Proof.
  intros Hc.
  destruct (udev_device_get_syspath dev) as [sys|] eqn:Hsys.
  - pose proof (processDeviceInsertion_cases dev sys w Hsys) as Hspec.
    destruct (LinuxDevice_new _ _ _) as [d|ex] eqn:Hnew; simpl in Hspec.
    + rewrite Hspec. simpl.
      apply LinuxDevice_new_syspath in Hnew as [Hd _].
      rewrite Hsys in Hd. injection Hd as ->.
      pose proof (maps_consistent_insertDevice d w Hc) as Hi.
      by rewrite insertDevice_spec in Hi.
    + destruct Hspec as (_ & _ & Hm & Hs & Hn).
      destruct Hc as (Hreg & Hinj & Hlt).
      split; [|split]; simpl in *; by rewrite ?Hm, ?Hs, ?Hn.
  - unfold processDeviceInsertion, String_of_cstr. rewrite Hsys. by munfold.
Qed.

Lemma maps_consistent_processDevicePresence (dev : udev_device) (w : World) :
  maps_consistent w → maps_consistent (processDevicePresence dev w).2.
Proof.
  intros Hc.
  destruct (udev_device_get_syspath dev) as [sys|] eqn:Hsys.
  - pose proof (processDevicePresence_cases dev sys w Hsys) as Hspec.
    destruct (LinuxDevice_new _ _ _) as [d|ex] eqn:Hnew; simpl in Hspec.
    + rewrite Hspec. simpl.
      apply LinuxDevice_new_syspath in Hnew as [Hd _].
      rewrite Hsys in Hd. injection Hd as ->.
      pose proof (maps_consistent_insertDevice d w Hc) as Hi.
      by rewrite insertDevice_spec in Hi.
    + by rewrite Hspec.
  - unfold processDevicePresence, String_of_cstr. rewrite Hsys. by munfold.
Qed.

Lemma maps_consistent_processDeviceRemoval (dev : udev_device) (w : World) :
  maps_consistent w → maps_consistent (processDeviceRemoval dev w).2.
Proof.
  intros Hc. unfold processDeviceRemoval.
  destruct (udev_device_get_syspath dev) as [syspath|]; [|done].
  pose proof (maps_consistent_removeDevice syspath w Hc) as Hr.
  munfold. by destruct (removeDevice syspath w) as [[d|e] w'].
Qed.

Lemma maps_consistent_udevReceiveDevice (w : World) :
  maps_consistent w → maps_consistent (udevReceiveDevice w).2.
Proof.
  intros Hc. unfold udevReceiveDevice, udev_monitor_receive_device. munfold.
  destruct (umon_queue w) as [|[dev|] rest]; simpl; try done.
  destruct (udev_device_get_action dev) as [action|]; [|done].
  repeat case_match; try done.
  - by apply maps_consistent_processDeviceInsertion.
  - by apply maps_consistent_processDeviceRemoval.
Qed.

Lemma maps_consistent_udevEnumerateDevices (w : World) :
  maps_consistent w → maps_consistent (udevEnumerateDevices w).2.
Proof.
  intros Hc. unfold udevEnumerateDevices. munfold.
  destruct (udev_enumerate w) as [devices|]; [|done].
  generalize (udev_tree w). intros tree. clear -Hc.
  revert w Hc. induction devices as [|dlentry rest IH]; intros w Hc; [done|].
  simpl. unfold mbind, M_mbind, M_bind.
  assert (maps_consistent (udevEnumerateDevices_entry tree dlentry w).2) as He.
  { unfold udevEnumerateDevices_entry.
    repeat case_match; try done. by apply maps_consistent_processDevicePresence. }
  destruct (udevEnumerateDevices_entry tree dlentry w) as [[[]|e] w1];
    simpl in *; [by apply IH | done].
Qed.

(** The policy entry points and every turn of the worker keep the maps
    consistent: the consistent managers are the ones that can arise. *)
Lemma maps_consistent_policy_entries (id : N) (w : World) :
  maps_consistent w →
  maps_consistent (allowDevice id w).2
  ∧ maps_consistent (blockDevice id w).2
  ∧ maps_consistent (rejectDevice id w).2.
Proof.
  intros Hc. unfold allowDevice, blockDevice, rejectDevice. munfold.
  split; [|split].
  - pose proof (maps_consistent_applyDevicePolicy id Target.Allow w Hc) as Hp.
    by destruct (applyDevicePolicy id Target.Allow w) as [[d|e] w'].
  - pose proof (maps_consistent_applyDevicePolicy id Target.Block w Hc) as Hp.
    by destruct (applyDevicePolicy id Target.Block w) as [[d|e] w'].
  - pose proof (maps_consistent_applyDevicePolicy id Target.Reject w Hc) as Hp.
    by destruct (applyDevicePolicy id Target.Reject w) as [[d|e] w'].
Qed.

Lemma maps_consistent_thread_iteration (sel : select_result) (w : World) :
  maps_consistent w → maps_consistent (thread_iteration sel w).2.
Proof.
  intros Hc. unfold thread_iteration.
  repeat case_match; try done. by apply maps_consistent_udevReceiveDevice.
Qed.

Lemma maps_consistent_thread_loop (selects : list select_result) :
  ∀ (turns : nat) (w : World),
    maps_consistent w → maps_consistent (thread_loop selects turns w).2.
Proof.
  induction selects as [|sel selects IH]; intros turns w Hc; simpl;
    unfold Thread_stopRequested; munfold; destruct (stop_requested w); try done.
  pose proof (maps_consistent_thread_iteration sel w Hc) as Hi.
  destruct (thread_iteration sel w) as [[[]|e] w1]; simpl in *; [|done].
  by apply IH.
Qed.

Lemma maps_consistent_empty (w : World) :
  device_map w = ∅ → _syspath_map w = ∅ → maps_consistent w.
Proof.
  intros Hd Hs. unfold maps_consistent. rewrite Hd, Hs.
  split; [|split]; intros *; rewrite lookup_empty; first [done | by intros []].
Qed.

End ManagerProperties.

(** ** The worker loop *)

Section WorkerProperties.
Context `{!USBLibrary, !LinuxSysIO}.

(** A turn in which [select] reports the wake-up descriptor changes
    nothing at all: the counter keeps its value and no hotplug event is
    received. *)
Lemma thread_iteration_wakeup (sel : select_result) (w : World) :
  FD_ISSET_event_fd sel = true →
  select_ret sel = 1 ∨ select_ret sel = 2 →
  thread_iteration sel w = (Ok tt, w).
Proof.
  intros Hev Hret. unfold thread_iteration. rewrite Hev.
  by destruct Hret as [-> | ->].
Qed.

(** The loop condition is tested before [select] is called again. *)
Lemma thread_loop_stop (selects : list select_result) (turns : nat) (w : World) :
  stop_requested w = true →
  thread_loop selects turns w = (Ok (Some turns), w).
Proof.
  intros Hstop. destruct selects; simpl;
    unfold Thread_stopRequested; munfold; by rewrite Hstop.
Qed.

Lemma stop_spec (w : World) :
  stop w = (Ok tt, set_event_fd (_event_fd w + 1) (set_stop_requested true w)).
Proof. reflexivity. Qed.

(** A worker that waits in [select] when [stop] is called. *)
Lemma worker_after_stop (w : World) (sel : select_result)
        (selects : list select_result) (turns : nat) :
  0 ≤ _event_fd w →
  select_reports (stop w).2 sel = true →
  thread_resume sel selects turns (stop w).2 = (Ok (Some (S turns)), (stop w).2)
  ∧ _event_fd (stop w).2 = _event_fd w + 1.
Proof.
  intros Hfd Hsel. rewrite stop_spec in *. simpl in *.
  set (w' := set_event_fd _ _) in *.
  assert (stop_requested w' = true) as Hstop by done.
  assert (set_stop_requested true w' = w') as Hsame by done.
  unfold select_reports in Hsel. simpl in Hsel.
  assert (_event_fd w + 1 ≠ 0) as Hne by (clear -Hfd; lia).
  rewrite (bool_decide_eq_true_2 _ Hne) in Hsel.
  assert (thread_iteration sel w' = (Ok tt, w')) as Hit.
  { apply orb_true_iff in Hsel as [Herr | Hready].
    - apply Z.eqb_eq in Herr. unfold thread_iteration. rewrite Herr. simpl.
      unfold Thread_stop, modify. by rewrite Hsame.
    - apply andb_true_iff in Hready as [Hflags Hret].
      apply andb_true_iff in Hflags as [Hev Hum].
      apply bool_decide_eq_true in Hev. apply Z.eqb_eq in Hret.
      apply thread_iteration_wakeup; [done|].
      rewrite Hret.
      destruct (bool_decide (umon_queue w ≠ [])); [right|left]; reflexivity. }
  split; [|done].
  unfold thread_resume. munfold. rewrite Hit.
  by rewrite thread_loop_stop.
Qed.

(** C6, amended: a turn in which the wake-up descriptor is readable does
    not read the eventfd counter and handles no hotplug event, it leaves
    the world as it is and goes back to the loop condition; the loop
    condition ends the loop when the stop flag is set, before [select] is
    called again; hence, after [stop] has set the flag and written the
    wake-up value, a worker that waits in [select] leaves the loop in that
    same turn, whatever [select] reports, with the counter still unread. *)
Theorem C6_worker_exits_after_stop :
  (∀ (w : World) (sel : select_result),
     FD_ISSET_event_fd sel = true →
     select_ret sel = 1 ∨ select_ret sel = 2 →
     thread_iteration sel w = (Ok tt, w))
  ∧ (∀ (w : World) (selects : list select_result) (turns : nat),
       stop_requested w = true →
       thread_loop selects turns w = (Ok (Some turns), w))
  ∧ (∀ (w : World) (sel : select_result) (selects : list select_result)
       (turns : nat),
       0 ≤ _event_fd w →
       select_reports (stop w).2 sel = true →
       thread_resume sel selects turns (stop w).2
       = (Ok (Some (S turns)), (stop w).2)
       ∧ _event_fd (stop w).2 = _event_fd w + 1).
Proof.
  split; [|split].
  - intros w sel. apply thread_iteration_wakeup.
  - intros w selects turns. apply thread_loop_stop.
  - intros w sel selects turns. apply worker_after_stop.
Qed.

End WorkerProperties.

(** C6, as worded, fails: after [stop] on a fresh manager the counter is 1,
    [select] reports the wake-up descriptor, and after the worker's turn the
    counter is still 1: it has not been drained. *)
Lemma C6_wakeup_counter_not_drained :
  (let w := (stop Example.world0).2 in
   let sel := mk_select_result 1 true false in
   select_reports w sel = true
   ∧ _event_fd w = 1
   ∧ _event_fd (thread_iteration sel w).2 = 1)
  ∧ ¬ wakeup_drains_counter.
Proof.
  split; [by repeat split|].
  intros Hdrain.
  specialize (Hdrain (stop Example.world0).2 (mk_select_result 1 true false)
                eq_refl eq_refl).
  simpl in Hdrain. assert (1 = 0) as Heq by (apply Hdrain; discriminate).
  discriminate Heq.
Qed.

Lemma C6_worker_exits_after_stop_witness :
  0 ≤ _event_fd Example.world_registered
  ∧ select_reports (stop Example.world_registered).2
      (mk_select_result 1 true false) = true
  ∧ thread_resume (mk_select_result 1 true false) [] 4%nat
      (stop Example.world_registered).2
    = (Ok (Some 5%nat), (stop Example.world_registered).2).
Proof.
  destruct (@C6_worker_exits_after_stop Example.usb_library Example.sysio)
    as (_ & _ & Hstop).
  split; [done|]. split; [done|].
  apply (Hstop Example.world_registered (mk_select_result 1 true false) []
           4%nat); done.
Defined.

(** ** Witnesses for the device manager *)

Lemma C3_applyDevicePolicy_surfaces_failure_witness :
  device_map Example.world_unwritable !! 1%N = Some registered_hub
  ∧ is_Throw (applyDevicePolicy 1 Target.Block Example.world_unwritable).1 = true
  ∧ device_map (applyDevicePolicy 1 Target.Block Example.world_unwritable).2 !! 1%N
    = Some registered_hub
  ∧ getTarget registered_hub = Target.Allow.
Proof.
  split; [reflexivity|].
  pose proof (C3_applyDevicePolicy_surfaces_failure 1 Target.Block Example.world_unwritable
                registered_hub eq_refl) as Hspec.
  cbv zeta in Hspec.
  destruct (sysioApplyTarget _ _ _) as [[[]|e] wb] eqn:Hb;
    [vm_compute in Hb; discriminate|].
  destruct Hspec as (Heq & _ & Hd). rewrite Heq in *.
  split; [reflexivity|]. split; [exact Hd | reflexivity].
Defined.

Lemma C8_notification_after_success_witness :
  trace (blockDevice 1 Example.world_registered).2
  = trace Example.world_registered
    ++ [EvLock (Some 1%N);
        EvApplyTarget "/sys/bus/usb1" Target.Block;
        EvSysioWrite "/sys/bus/usb1/authorized" 0;
        EvSetTarget (Some 1%N) Target.Block;
        EvUnlock (Some 1%N);
        EvHook DeviceBlocked (setTarget Target.Block registered_hub)]
  ∧ sysfs (blockDevice 1 Example.world_registered).2
      !! "/sys/bus/usb1/authorized" = Some [48]
  ∧ trace (blockDevice 1 Example.world_unwritable).2
    = trace Example.world_unwritable
      ++ [EvLock (Some 1%N);
          EvApplyTarget "/sys/bus/usb1" Target.Block;
          EvSysioWrite "/sys/bus/usb1/authorized" 0;
          EvUnlock (Some 1%N)].
Proof.
  destruct (C8_notification_after_success 1 Example.world_registered)
    as (_ & Hblock & _).
  destruct (C8_notification_after_success 1 Example.world_unwritable)
    as (_ & Hfail & _).
  destruct (device_map Example.world_registered !! 1%N) as [d|] eqn:Hd;
    vm_compute in Hd; [|discriminate].
  injection Hd as <-.
  destruct (device_map Example.world_unwritable !! 1%N) as [d|] eqn:Hd;
    vm_compute in Hd; [|discriminate].
  injection Hd as <-.
  rewrite Hblock, Hfail. repeat split.
Defined.

Lemma C1_insertion_rejects_on_failure_witness :
  udev_device_get_syspath Example.usb1 = Some "/sys/bus/usb1"
  ∧ is_Throw (LinuxDevice_new (_syspath_map Example.world_short)
                (sysfs Example.world_short) Example.usb1) = true
  ∧ trace (processDeviceInsertion Example.usb1 Example.world_short).2
    = [EvLogError "/sys/bus/usb1" descriptor_parse_failure;
       EvApplyTarget "/sys/bus/usb1" Target.Reject;
       EvSysioWrite "/sys/bus/usb1/remove" 1]
  ∧ device_map (processDeviceInsertion Example.usb1 Example.world_short).2 = ∅.
Proof.
  split; [reflexivity|]. split; [reflexivity|].
  pose proof (C1_insertion_rejects_on_failure Example.usb1
                "/sys/bus/usb1" Example.world_short eq_refl) as Hspec.
  destruct (LinuxDevice_new _ _ _) as [d|ex] eqn:Hnew;
    vm_compute in Hnew; [discriminate|].
  injection Hnew as <-.
  destruct Hspec as (_ & Htr & Hm & _). rewrite Htr, Hm.
  split; reflexivity.
Defined.

Lemma C5_presence_does_not_reject_witness :
  udev_device_get_syspath Example.usb1 = Some "/sys/bus/usb1"
  ∧ processDevicePresence Example.usb1 Example.world_short
    = (Ok tt,
       set_trace [EvLogError "/sys/bus/usb1" descriptor_parse_failure]
         Example.world_short)
  ∧ applied_of (trace (processDevicePresence Example.usb1 Example.world_short).2) = [].
Proof.
  split; [reflexivity|].
  destruct (C5_presence_does_not_reject Example.usb1
              "/sys/bus/usb1" Example.world_short eq_refl)
    as (Hcase & Happlied & _).
  split; [exact Hcase | exact Happlied].
Defined.

Lemma maps_consistent_world_good : maps_consistent Example.world_good.
Proof. by apply maps_consistent_empty. Qed.

Lemma maps_consistent_world_registered : maps_consistent Example.world_registered.
Proof. apply maps_consistent_processDeviceInsertion, maps_consistent_world_good. Qed.

Lemma C9_removeDevice_atomic_witness :
  maps_consistent Example.world_registered
  ∧ (removeDevice "/sys/bus/usb1" Example.world_registered).1 = Ok registered_hub
  ∧ _syspath_map (removeDevice "/sys/bus/usb1" Example.world_registered).2 = ∅
  ∧ device_map (removeDevice "/sys/bus/usb1" Example.world_registered).2 = ∅.
Proof.
  split; [exact maps_consistent_world_registered|].
  destruct (C9_removeDevice_atomic "/sys/bus/usb1" Example.world_registered
              maps_consistent_world_registered) as [_ Hcase].
  destruct (_syspath_map Example.world_registered !! "/sys/bus/usb1") as [id|] eqn:Hid;
    vm_compute in Hid; [|discriminate].
  injection Hid as <-.
  destruct Hcase as (d & Hd & Heq). rewrite Heq.
  vm_compute in Hd. injection Hd as <-.
  repeat split.
Defined.

(** ** The rule parser *)

Lemma step_sound st t oa st' : step st t = Some (oa, st') → grammar_step st oa st'.
Proof.
  unfold step, step_attribute. intros Hstep.
  destruct st; repeat case_match; simplify_eq; constructor.
Qed.

Lemma apply_identifier a i r :
  apply (on_identifier a) i r
  = if attribute_empty a r then inr r
    else inl (mk_parse_error (already_defined a) (in_position i)).
Proof.
  destruct a; simpl;
    unfold name_actions_str_name, id_actions_str_id, hash_actions_str_hash,
      parent_hash_actions_str_parent_hash, serial_actions_str_serial,
      via_port_actions_str_via_port, with_interface_actions_str_with_interface,
      condition_actions_str_if;
    by destruct (empty _).
Qed.

Ltac unfold_actions :=
  unfold apply, rule_parser_actions_target, rule_parser_actions_device_id,
    name_actions_str_name, id_actions_str_id, hash_actions_str_hash,
    parent_hash_actions_str_parent_hash, serial_actions_str_serial,
    via_port_actions_str_via_port, with_interface_actions_str_with_interface,
    condition_actions_str_if,
    name_actions_string_value, id_actions_device_id_value, hash_actions_string_value,
    parent_hash_actions_string_value, serial_actions_string_value,
    via_port_actions_string_value, with_interface_actions_interface_value,
    condition_actions_condition,
    name_actions_multiset_operator, id_actions_multiset_operator,
    hash_actions_multiset_operator, parent_hash_actions_multiset_operator,
    serial_actions_multiset_operator, via_port_actions_multiset_operator,
    with_interface_actions_multiset_operator, condition_actions_multiset_operator,
    rethrow, mbind, result_mbind, result_bind in *.

(** No action empties an attribute. *)
Lemma apply_keeps_assigned act i r r' a :
  apply act i r = inr r' → attribute_empty a r = false → attribute_empty a r' = false.
Proof.
  intros Happ He.
  destruct act as [| |b|b|b]; try destruct b; unfold_actions;
    repeat (case_match; simplify_eq/=); by destruct a.
Qed.

(** A value or operator action assigns its attribute. *)
Lemma apply_assigns act i r r' a :
  act = on_value a ∨ act = on_multiset_operator a →
  apply act i r = inr r' → attribute_empty a r' = false.
Proof.
  intros [-> | ->] Happ; destruct a; unfold_actions;
    repeat (case_match; simplify_eq/=); done.
Qed.

(** An attribute is assigned only by its own value and operator actions. *)
Lemma apply_assigned_by act i r r' a :
  apply act i r = inr r' → attribute_empty a r' = false →
  attribute_empty a r = false ∨ act = on_value a ∨ act = on_multiset_operator a.
Proof.
  intros Happ He.
  destruct act as [| |b|b|b]; try destruct b; unfold_actions;
    repeat (case_match; simplify_eq/=); destruct a; simpl in *; auto.
Qed.

(** *** The exceptions of the helper functions are not "already defined" *)

Lemma benign_bind {A B} (r : result A) (k : A → result B) :
  (∀ ex, r = Throw ex → benign ex) →
  (∀ a ex, k a = Throw ex → benign ex) →
  ∀ ex, (r ≫= k) = Throw ex → benign ex.
Proof.
  intros Hr Hk ex. unfold mbind, result_mbind, result_bind.
  destruct r; [apply Hk | intros [= <-]; by apply Hr].
Qed.

Lemma benign_Ok {A} (a : A) ex : Ok a = Throw ex → benign ex.
Proof. discriminate. Qed.

Lemma targetFromString_benign s ex : targetFromString s = Throw ex → benign ex.
Proof. unfold targetFromString. repeat case_match; by intros [= <-]. Qed.

Lemma setOperatorFromString_benign s ex : setOperatorFromString s = Throw ex → benign ex.
Proof. unfold setOperatorFromString. repeat case_match; by intros [= <-]. Qed.

Lemma USBDeviceID_new_benign v p ex : USBDeviceID_new v p = Throw ex → benign ex.
Proof. unfold USBDeviceID_new. case_match; by intros [= <-]. Qed.

Lemma token_at_benign tokens n ex : token_at tokens n = Throw ex → benign ex.
Proof. unfold token_at. case_match; by intros [= <-]. Qed.

Lemma parse_hexbyte_benign s ex : parse_hexbyte s = Throw ex → benign ex.
Proof. unfold parse_hexbyte. repeat case_match; by intros [= <-]. Qed.

Lemma USBInterfaceType_of_string_benign s ex :
  USBInterfaceType_of_string s = Throw ex → benign ex.
Proof.
  unfold USBInterfaceType_of_string.
  repeat case_match; try by intros [= <-].
  repeat (apply benign_bind; [apply parse_hexbyte_benign | intros ?]).
  apply benign_Ok.
Qed.

Lemma getImplementation_benign s ex : getImplementation s = Throw ex → benign ex.
Proof. unfold getImplementation. repeat case_match; by intros [= <-]. Qed.

Lemma unescape_chars_benign cs ex : unescape_chars cs = Throw ex → benign ex.
Proof.
  remember (length cs) as n eqn:Hn. revert cs Hn ex.
  induction n as [n IH] using lt_wf_ind. intros cs -> ex.
  destruct cs as [|c rest]; simpl; [discriminate|].
  repeat case_match; subst; try by intros [= <-].
  all: apply benign_bind; [|intros; by eapply benign_Ok].
  all: intros ex'; eapply IH; [|reflexivity]; simpl; lia.
Qed.

Lemma stringValueFromRule_benign s ex : stringValueFromRule s = Throw ex → benign ex.
Proof.
  unfold stringValueFromRule, unescapeString. case_match; [by intros [= <-]|].
  apply benign_bind; [apply unescape_chars_benign | intros; by eapply benign_Ok].
Qed.

Lemma rethrow_benign {A} (i : Input) (res : result A) (e : parse_error) :
  (∀ ex, res = Throw ex → benign ex) →
  rethrow i res = inl e → DuplicateAttribute e = false.
Proof.
  intros Hb. unfold rethrow. destruct res as [|ex]; [discriminate|].
  intros [= <-]. by apply Hb.
Qed.

Ltac solve_benign :=
  repeat first
    [ apply benign_bind; [|intros ?]
    | apply benign_Ok
    | apply targetFromString_benign
    | apply setOperatorFromString_benign
    | apply USBDeviceID_new_benign
    | apply token_at_benign
    | apply USBInterfaceType_of_string_benign
    | apply getImplementation_benign
    | apply stringValueFromRule_benign ].

(** Only the identifier actions raise "already defined", and only on an
    attribute that is not empty. *)
Lemma apply_duplicate act i r e :
  apply act i r = inl e → DuplicateAttribute e = true →
  ∃ a, act = on_identifier a ∧ attribute_empty a r = false
       ∧ e = mk_parse_error (already_defined a) (in_position i).
Proof.
  intros Happ Hdup.
  destruct act as [| |b|b|b].
  - apply rethrow_benign in Happ; [congruence | solve_benign].
  - apply rethrow_benign in Happ; [congruence | solve_benign].
  - exists b. rewrite apply_identifier in Happ.
    destruct (attribute_empty b r); [discriminate|]. by injection Happ as <-.
  - destruct b; apply rethrow_benign in Happ; solve [congruence | solve_benign].
  - destruct b; apply rethrow_benign in Happ; solve [congruence | solve_benign].
Qed.

Lemma run_actions_app ms1 ms2 r :
  run_actions (ms1 ++ ms2) r
  = match run_actions ms1 r with
    | inl e => inl e
    | inr r' => run_actions ms2 r'
    end.
Proof.
  revert r. induction ms1 as [|[act i] ms1 IH]; intros r; simpl; [done|].
  destruct (apply act i r); [done | apply IH].
Qed.

Lemma identifiers_cons act i ms :
  identifiers ((act, i) :: ms)
  = match act with
    | on_identifier a => a :: identifiers ms
    | _ => identifiers ms
    end.
Proof. by destruct act. Qed.

(** Up to an attribute identifier, every clause opened before it has
    received a value: the attributes named so far are not empty. *)
Lemma clauses_before_identifier_assigned ts :
  ∀ st end_pos r0 ms1 b i ms2 r a,
    (matches st ts end_pos).1 = ms1 ++ (on_identifier b, i) :: ms2 →
    run_actions ms1 r0 = inr r →
    attribute_empty a r0 = false ∨ owed st = Some a ∨ a ∈ identifiers ms1 →
    attribute_empty a r = false.
Proof.
  induction ts as [|t rest IH]; intros st end_pos r0 ms1 b i ms2 r a Hms Hrun Hcase.
  { simpl in Hms. by destruct ms1. }
  simpl in Hms. destruct (step st t) as [[oa st']|] eqn:Hstep; [|by destruct ms1].
  apply step_sound in Hstep.
  destruct (matches st' rest end_pos) as [ms' e'] eqn:Hrest. simpl in Hms.
  assert ((matches st' rest end_pos).1 = ms') as Hms' by (by rewrite Hrest).
  destruct oa as [act|].
  - destruct ms1 as [|m1 ms1]; simpl in Hms.
    + (* the identifier is the first match *)
      injection Hms as -> _ _. simpl in Hrun. injection Hrun as <-.
      destruct Hcase as [He | [Ho | Hin]]; [done| |by apply elem_of_nil in Hin].
      inversion Hstep; subst; discriminate.
    + injection Hms as <- ->. simpl in Hrun.
      destruct (apply act (input_of t) r0) as [|r1] eqn:Happ; [discriminate|].
      eapply (IH st' end_pos r1); [eassumption | exact Hrun |].
      rewrite identifiers_cons in Hcase.
      destruct Hcase as [He | [Ho | Hin]].
      * left. eapply apply_keeps_assigned; eauto.
      * inversion Hstep; subst; simpl in Ho; simplify_eq; auto;
          left; exact (apply_assigns _ _ _ _ _ (or_introl eq_refl) Happ).
      * inversion Hstep; subst; auto.
        all: apply elem_of_cons in Hin as [-> | Hin]; auto.
  - subst ms'. eapply (IH st' end_pos r0); [eassumption | exact Hrun |].
    destruct Hcase as [He | [Ho | Hin]]; auto.
    inversion Hstep; subst; simpl in Ho; simplify_eq; auto.
Qed.

Lemma matches_cons st t rest end_pos :
  (matches st (t :: rest) end_pos).1
  = match step st t with
    | None => []
    | Some (Some act, st') => (act, input_of t) :: (matches st' rest end_pos).1
    | Some (None, st') => (matches st' rest end_pos).1
    end.
Proof.
  simpl. destruct (step st t) as [[[act|] st']|]; [| |done];
    by destruct (matches st' rest end_pos).
Qed.

(** When no attribute identifier is matched twice, no action raises
    "already defined". *)
Lemma no_duplicate_raised ts :
  ∀ st end_pos r0 e,
    NoDup (identifiers (matches st ts end_pos).1) →
    (∀ a, a ∈ identifiers (matches st ts end_pos).1 →
          attribute_empty a r0 = true ∧ pending st ≠ Some a) →
    run_actions (matches st ts end_pos).1 r0 = inl e →
    DuplicateAttribute e = false.
Proof.
  induction ts as [|t rest IH]; intros st end_pos r0 e Hnd Hfresh Hrun.
  { discriminate. }
  rewrite matches_cons in Hnd, Hfresh, Hrun.
  destruct (step st t) as [[oa st']|] eqn:Hstep; [|discriminate].
  apply step_sound in Hstep.
  set (ms' := (matches st' rest end_pos).1) in *.
  destruct oa as [act|].
  - rewrite identifiers_cons in Hnd, Hfresh.
    simpl in Hrun.
    destruct (apply act (input_of t) r0) as [e0|r1] eqn:Happ.
    + (* the action throws *)
      injection Hrun as <-.
      destruct (DuplicateAttribute e0) eqn:Hdup; [|done].
      destruct (apply_duplicate _ _ _ _ Happ Hdup) as (a & -> & He & _).
      destruct (Hfresh a) as [Hempty _]; [apply list_elem_of_here|congruence].
    + (* the action returns *)
      eapply (IH st' end_pos r1); fold ms'; [| |exact Hrun].
      * inversion Hstep; subst; try done; by apply NoDup_cons in Hnd as [_ ?].
      * intros a Ha.
        assert (a ∈ match act with
                    | on_identifier b => b :: identifiers ms'
                    | _ => identifiers ms'
                    end) as Ha'.
        { destruct act; try done. by apply list_elem_of_further. }
        destruct (Hfresh a Ha') as [Hempty Hpend]. split.
        -- destruct (attribute_empty a r1) eqn:He1; [done|].
           destruct (apply_assigned_by _ _ _ _ a Happ He1) as [He0 | [-> | ->]];
             [congruence| |]; inversion Hstep; subst; by destruct Hpend.
        -- intros Hp. inversion Hstep; subst; simpl in *; simplify_eq; try done.
           all: try (apply NoDup_cons in Hnd as [Hnotin _]; done).
  - eapply (IH st' end_pos r0); fold ms'; [done| |exact Hrun].
    intros a Ha. destruct (Hfresh a Ha) as [Hempty Hpend]. split; [done|].
    intros Hp. inversion Hstep; subst; simpl in *; simplify_eq; done.
Qed.

Lemma attribute_empty_Rule_new a : attribute_empty a Rule_new = true.
Proof. by destruct a. Qed.

(** The second [name]: once the [name] identifier has been matched and the
    actions up to a later match of it have not thrown, that later match
    throws "name attribute already defined" at its own position. *)
Lemma second_name_rejected text ms1 i ms2 syn :
  grammar text = (ms1 ++ (on_identifier str_name, i) :: ms2, syn) →
  str_name ∈ identifiers ms1 →
  (∃ r, run_actions ms1 Rule_new = inr r) →
  parse text = inl (mk_parse_error "name attribute already defined" (in_position i)).
Proof.
  intros Hg Hin [r Hrun]. unfold parse. rewrite Hg.
  assert (attribute_empty str_name r = false) as He.
  { unfold grammar in Hg.
    eapply (clauses_before_identifier_assigned _ ExpTarget _ Rule_new ms1);
      [by rewrite Hg | exact Hrun | auto]. }
  rewrite run_actions_app, Hrun. simpl.
  unfold name_actions_str_name. simpl in He. by rewrite He.
Qed.

Lemma unique_identifiers_no_duplicate text e :
  NoDup (identifiers (grammar text).1) →
  parse text = inl e → DuplicateAttribute e = false.
Proof.
  intros Hnd. unfold parse, grammar in *.
  destruct (matches ExpTarget _ _) as [ms syn] eqn:Hm. simpl in Hnd.
  destruct (run_actions ms Rule_new) as [e0|r] eqn:Hrun.
  - intros [= <-].
    eapply (no_duplicate_raised _ ExpTarget _ Rule_new); rewrite ?Hm; simpl; eauto.
    intros a _. split; [apply attribute_empty_Rule_new | done].
  - destruct syn; [|discriminate]. by intros [= <-].
Qed.

(** *** Where the matches lie in the text *)

Lemma chars_of_chars l : Str.chars (Str.of_chars l) = l.
Proof. apply String.list_ascii_of_string_of_list_ascii. Qed.

Lemma located_token pre0 acc rest k :
  located (pre0 ++ rev acc ++ rest) (tok_text (token_of (length pre0) acc k))
    (tok_pos (token_of (length pre0) acc k)).
Proof.
  unfold located, token_of. simpl. rewrite chars_of_chars.
  rewrite drop_app_length. by rewrite take_app_length.
Qed.

Lemma lex_located cs :
  ∀ mode pos pre t,
    length pre = pos → mode_agrees mode pre →
    t ∈ lex mode pos cs → located (pre ++ cs) (tok_text t) (tok_pos t).
Proof.
  induction cs as [|c rest IH]; intros mode pos pre t Hlen Hmode Ht.
  - rewrite app_nil_r. destruct mode as [|start acc p|start acc esc]; simpl in *.
    + by apply elem_of_nil in Ht.
    + destruct Hmode as (pre0 & -> & <-). apply list_elem_of_singleton in Ht as ->.
      pose proof (located_token pre0 acc [] Word) as Hw. by rewrite app_nil_r in Hw.
    + destruct Hmode as (pre0 & -> & <-). apply list_elem_of_singleton in Ht as ->.
      pose proof (located_token pre0 acc [] Unterminated) as Hu. by rewrite app_nil_r in Hu.
  - assert (∀ mode', mode_agrees mode' (pre ++ [c]) →
                     t ∈ lex mode' (S pos) rest →
                     located (pre ++ c :: rest) (tok_text t) (tok_pos t)) as Hnext.
    { intros mode' Hm' Ht'.
      replace (pre ++ c :: rest) with ((pre ++ [c]) ++ rest) by (by rewrite <- app_assoc).
      eapply IH; [|exact Hm'|exact Ht']. rewrite length_app. simpl. lia. }
    assert (∀ k, located (pre ++ c :: rest) (tok_text (token_of pos [c] k))
                   (tok_pos (token_of pos [c] k))) as Hone.
    { intros k. subst pos. apply (located_token pre [c] rest k). }
    destruct mode as [|start acc p|start acc esc]; simpl in Ht.
    + repeat case_match.
      * by apply Hnext in Ht.
      * apply Hnext in Ht; [done|]. exists pre. by rewrite Hlen.
      * apply elem_of_cons in Ht as [-> | Ht]; [apply Hone | by apply Hnext in Ht].
      * apply Hnext in Ht; [done|]. exists pre. by rewrite Hlen.
    + destruct Hmode as (pre0 & -> & <-).
      assert (∀ k, located ((pre0 ++ rev acc) ++ c :: rest)
                     (tok_text (token_of (length pre0) acc k))
                     (tok_pos (token_of (length pre0) acc k))) as Hacc.
      { intros k. rewrite <- app_assoc. apply located_token. }
      assert (∀ b, mode_agrees (InWord (length pre0) (c :: acc) b)
                     ((pre0 ++ rev acc) ++ [c])) as Hgrow.
      { intros b. exists pre0. simpl. by rewrite <- app_assoc. }
      destruct p; repeat case_match.
      * by apply Hnext in Ht.
      * apply elem_of_cons in Ht as [-> | Ht]; [apply Hacc | by apply Hnext in Ht].
      * apply elem_of_cons in Ht as [-> | Ht]; [apply Hacc|].
        apply elem_of_cons in Ht as [-> | Ht]; [apply Hone | by apply Hnext in Ht].
      * by apply Hnext in Ht.
    + destruct Hmode as (pre0 & -> & <-).
      assert (∀ b, mode_agrees (InString (length pre0) (c :: acc) b)
                     ((pre0 ++ rev acc) ++ [c])) as Hgrow.
      { intros b. exists pre0. simpl. by rewrite <- app_assoc. }
      destruct esc; repeat case_match.
      * by apply Hnext in Ht.
      * by apply Hnext in Ht.
      * apply elem_of_cons in Ht as [-> | Ht]; [|by apply Hnext in Ht].
        pose proof (located_token pre0 (c :: acc) rest QuotedString) as Hq.
        simpl in Hq. by rewrite <- !app_assoc in *.
      * by apply Hnext in Ht.
Qed.

Lemma matches_inputs ts :
  ∀ st end_pos act i,
    (act, i) ∈ (matches st ts end_pos).1 → ∃ t, t ∈ ts ∧ i = input_of t
      ∧ ∀ a, act = on_identifier a → identifier_of (tok_text t) = Some a.
Proof.
  induction ts as [|t rest IH]; intros st end_pos act i Hin.
  { by apply elem_of_nil in Hin. }
  simpl in Hin. destruct (step st t) as [[oa st']|] eqn:Hstep;
    [|by apply elem_of_nil in Hin].
  destruct (matches st' rest end_pos) as [ms' e'] eqn:Hrest. simpl in Hin.
  assert ((act, i) ∈ ms' → ∃ t0, t0 ∈ t :: rest ∧ i = input_of t0
            ∧ ∀ a, act = on_identifier a → identifier_of (tok_text t0) = Some a) as Htail.
  { intros Hin'. destruct (IH st' end_pos act i) as (t0 & Ht0 & Hi & Ha).
    - by rewrite Hrest.
    - exists t0. split; [by apply list_elem_of_further | done]. }
  destruct oa as [act0|]; [|by apply Htail].
  apply elem_of_cons in Hin as [[= -> ->] | Hin]; [|by apply Htail].
  exists t. split; [apply list_elem_of_here|]. split; [done|].
  intros a ->. unfold step, step_attribute in Hstep.
  destruct st; repeat case_match; simplify_eq; done.
Qed.

Lemma identifier_of_name s : identifier_of s = Some str_name → s = "name".
Proof.
  unfold identifier_of.
  destruct (String.eqb s "name") eqn:He; [by apply String.eqb_eq in He|].
  repeat case_match; discriminate.
Qed.

Lemma substring_chars s : ∀ n m,
  Str.chars (String.substring n m s) = take m (drop n (Str.chars s)).
Proof.
  induction s as [|c s IH]; intros n m.
  - by destruct n, m.
  - destruct n as [|n]; simpl.
    + destruct m as [|m]; simpl; [done|]. f_equal. apply (IH 0%nat m).
    + apply IH.
Qed.

(** A matched [name] identifier is the word [name] of the rule text, at
    the position the action receives. *)
Lemma name_identifier_located text i :
  (on_identifier str_name, i) ∈ (grammar text).1 →
  in_string i = "name" ∧ String.substring (in_position i) 4 text = "name".
Proof.
  intros Hin. unfold grammar in Hin.
  apply matches_inputs in Hin as (t & Ht & -> & Hid).
  specialize (Hid str_name eq_refl). apply identifier_of_name in Hid.
  split; [done|].
  apply (lex_located _ Blank 0%nat []) in Ht; [|done..].
  simpl in *. unfold located in Ht. rewrite Hid in Ht. simpl in Ht.
  rewrite <- (String.string_of_list_ascii_of_string (String.substring _ _ _)).
  fold (Str.chars (String.substring (tok_pos t) 4 text)).
  by rewrite substring_chars, Ht.
Qed.

(** C7, amended: when the [name] attribute occurs a second time in a rule
    text and no action has thrown before that second [name] keyword (no
    other attribute duplicated earlier, no value rejected), parsing fails
    with the DuplicateAttribute error "name attribute already defined"
    positioned at that keyword, where the text reads [name], whatever the
    values of the two clauses and whatever follows; and a rule text in
    which no attribute identifier is matched twice never fails with a
    DuplicateAttribute error. *)
Theorem C7_duplicate_name_rejected :
  (∀ text ms1 i ms2 syn,
     grammar text = (ms1 ++ (on_identifier str_name, i) :: ms2, syn) →
     str_name ∈ identifiers ms1 →
     (∃ r, run_actions ms1 Rule_new = inr r) →
     parse text
     = inl (mk_parse_error "name attribute already defined" (in_position i))
     ∧ DuplicateAttribute
         (mk_parse_error "name attribute already defined" (in_position i)) = true
     ∧ String.substring (in_position i) 4 text = "name")
  ∧ (∀ text e,
       NoDup (identifiers (grammar text).1) →
       parse text = inl e → DuplicateAttribute e = false).
Proof.
  split.
  - intros text ms1 i ms2 syn Hg Hin Hrun.
    split; [by eapply second_name_rejected|]. split; [done|].
    apply name_identifier_located. rewrite Hg. simpl.
    apply elem_of_app. right. apply list_elem_of_here.
  - apply unique_identifiers_no_duplicate.
Qed.

Lemma C7_duplicate_name_rejected_witness :
  parse two_names = inl (mk_parse_error "name attribute already defined" 15)
  ∧ String.substring 15 4 two_names = "name"
  ∧ (∀ e, parse "allow" = inl e → DuplicateAttribute e = false).
Proof.
  destruct C7_duplicate_name_rejected as [Hdup Huniq]. split; [|split].
  - refine (proj1 (Hdup two_names
             [(on_target, mkInput "allow" 0);
              (on_identifier str_name, mkInput "name" 6);
              (on_value str_name, mkInput (Example.quoted "a") 11)]
             (mkInput "name" 15)
             [(on_value str_name, mkInput (Example.quoted "b") 20)]
             None _ _ _)).
    + reflexivity.
    + vm_compute. apply list_elem_of_here.
    + eexists. reflexivity.
  - reflexivity.
  - intros e. apply Huniq. vm_compute. constructor.
Defined.

(** C7, as worded, fails: in [allow hash "a" hash "b" name "x" name "y"]
    the [name] attribute occurs twice, the second [name] keyword is at
    offset 33, and the parse fails at offset 15 with "hash attribute
    already defined". *)
Lemma C7_duplicate_name_not_always_reported :
  (identifiers (grammar two_hashes_two_names).1
   = [str_hash; str_hash; str_name; str_name]
   ∧ (grammar two_hashes_two_names).1 !! 7%nat
     = Some (on_identifier str_name, mkInput "name" 33)
   ∧ parse two_hashes_two_names
     = inl (mk_parse_error "hash attribute already defined" 15))
  ∧ ¬ second_name_always_reported.
Proof.
  split; [by repeat split|].
  intros Hworded.
  specialize (Hworded two_hashes_two_names
    [(on_target, mkInput "allow" 0);
     (on_identifier str_hash, mkInput "hash" 6);
     (on_value str_hash, mkInput (Example.quoted "a") 11);
     (on_identifier str_hash, mkInput "hash" 15);
     (on_value str_hash, mkInput (Example.quoted "b") 20)]
    (mkInput "name" 24)
    [(on_value str_name, mkInput (Example.quoted "x") 29)]
    (mkInput "name" 33)
    [(on_value str_name, mkInput (Example.quoted "y") 38)]
    None eq_refl).
  assert (parse two_hashes_two_names
          = inl (mk_parse_error "name attribute already defined" 33)) as Heq.
  { apply Hworded; vm_compute; intros Hin.
    - repeat (apply elem_of_cons in Hin as [Hin|Hin]; [discriminate Hin|]).
      by apply elem_of_nil in Hin.
    - by apply elem_of_nil in Hin. }
  vm_compute in Heq. discriminate Heq.
Qed.

(** * Further properties *)

(** ** The rule-parser actions *)

Lemma apply_error_position act i r e :
  apply act i r = inl e → pe_position e = in_position i.
Proof.
  intros Happ.
  destruct act as [| |b|b|b]; try destruct b; unfold_actions;
    repeat (case_match; simplify_eq/=); done.
Qed.

(** X1: every error an action raises is positioned at the input the action
    was called with; hence a failed run of the actions is positioned at one
    of the matches. *)
Theorem X1_action_error_at_input :
  (∀ act i r e, apply act i r = inl e → pe_position e = in_position i)
  ∧ (∀ ms r e, run_actions ms r = inl e →
       ∃ act i, (act, i) ∈ ms ∧ pe_position e = in_position i).
Proof.
  split; [apply apply_error_position|].
  induction ms as [|[act i] ms IH]; intros r e Hrun; [discriminate|].
  simpl in Hrun. destruct (apply act i r) as [e0|r1] eqn:Happ.
  - injection Hrun as <-. exists act, i. split; [apply list_elem_of_here|].
    by eapply apply_error_position.
  - destruct (IH r1 e Hrun) as (act' & i' & Hin & Hpos).
    exists act', i'. split; [by apply list_elem_of_further | done].
Qed.

(** After a run of the actions, an attribute is assigned exactly when it
    was before or the run held a value or operator match of it. *)
Lemma run_actions_assigned a ms :
  ∀ r0 r, run_actions ms r0 = inr r →
    attribute_empty a r = false ↔ attribute_empty a r0 = false ∨ assigns a ms.
Proof.
  unfold assigns. induction ms as [|[act i] ms IH]; intros r0 r Hrun.
  - injection Hrun as <-. rewrite Exists_nil. tauto.
  - simpl in Hrun. destruct (apply act i r0) as [|r1] eqn:Happ; [discriminate|].
    rewrite (IH r1 r Hrun), Exists_cons. simpl. split.
    + intros [He|Hex]; [|tauto].
      destruct (apply_assigned_by _ _ _ _ _ Happ He); tauto.
    + intros [He|[Hact|Hex]]; [left|left|tauto].
      * by eapply apply_keeps_assigned.
      * by eapply apply_assigns.
Qed.

Lemma identifier_after_run a ms i r :
  run_actions ms Rule_new = inr r →
  apply (on_identifier a) i r
  = if decide (assigns a ms)
    then inl (mk_parse_error (already_defined a) (in_position i))
    else inr r.
Proof.
  intros Hrun. pose proof (run_actions_assigned a ms _ _ Hrun) as Hiff.
  rewrite attribute_empty_Rule_new in Hiff. rewrite apply_identifier.
  destruct (decide (assigns a ms)) as [Ha|Ha].
  - by rewrite (proj2 Hiff (or_intror Ha)).
  - destruct (attribute_empty a r); [done|].
    destruct (proj1 Hiff eq_refl); done.
Qed.

(** X2: the duplicate check of each of the eight attributes ([name], [id],
    [hash], [parent-hash], [serial], [via-port], [with-interface], [if]).
    After any run of the actions on a new rule that did not throw, the
    identifier action of an attribute throws that attribute's "already
    defined" error, at its own input, exactly when the run held a value or
    an operator match of the same attribute; otherwise it leaves the rule
    as it is.  Matches of other attributes never trigger it. *)
Theorem X2_identifier_rejected_iff (a : attribute_identifier)
        (ms : list (action * Input)) (i : Input) (r : Rule) :
  run_actions ms Rule_new = inr r →
  apply (on_identifier a) i r
  = if decide (assigns a ms)
    then inl (mk_parse_error (already_defined a) (in_position i))
    else inr r.
Proof. exact (identifier_after_run a ms i r). Qed.

Lemma X2_identifier_rejected_iff_witness :
  ∃ r, run_actions allow_hash_a Rule_new = inr r
       ∧ apply (on_identifier str_hash) (mkInput "hash" 15) r
         = inl (mk_parse_error "hash attribute already defined" 15)
       ∧ apply (on_identifier str_name) (mkInput "name" 15) r = inr r.
Proof.
  eexists. split; [reflexivity|]. split.
  - exact (X2_identifier_rejected_iff str_hash allow_hash_a (mkInput "hash" 15)
             _ eq_refl).
  - exact (X2_identifier_rejected_iff str_name allow_hash_a (mkInput "name" 15)
             _ eq_refl).
Defined.

Lemma apply_count act i r r' a :
  apply act i r = inr r' →
  attribute_count a r'
  = (attribute_count a r + if bool_decide (act = on_value a) then 1 else 0)%nat.
Proof.
  intros Happ.
  destruct a; destruct act as [| |b|b|b]; try destruct b;
    case_bool_decide; simplify_eq; unfold_actions;
    repeat (case_match; simplify_eq/=);
    rewrite ?length_app; simpl; lia.
Qed.

(** X3: a run of the actions that does not throw appends one value to an
    attribute for each value match of that attribute and nothing else: the
    number of values in the rule is the number it had plus the number of
    value matches. *)
Theorem X3_values_appended_once (a : attribute_identifier)
        (ms : list (action * Input)) (r0 r : Rule) :
  run_actions ms r0 = inr r →
  attribute_count a r = (attribute_count a r0 + values_matched a ms)%nat.
Proof.
  revert r0. induction ms as [|[act i] ms IH]; intros r0 Hrun.
  - injection Hrun as <-. unfold values_matched. simpl. lia.
  - simpl in Hrun. destruct (apply act i r0) as [|r1] eqn:Happ; [discriminate|].
    rewrite (IH r1 Hrun), (apply_count _ _ _ _ a Happ).
    unfold values_matched. rewrite filter_cons. simpl.
    destruct (decide (act = on_value a)) as [->|Hne].
    + rewrite bool_decide_eq_true_2 by done. simpl. lia.
    + rewrite bool_decide_eq_false_2 by done. lia.
Qed.

Lemma X3_values_appended_once_witness :
  ∃ r, run_actions (grammar "block with-interface one-of { 03:01:01 03:01:02 }").1
         Rule_new = inr r
       ∧ attribute_count str_with_interface r = 2%nat.
Proof.
  eexists. split; [reflexivity|].
  exact (X3_values_appended_once str_with_interface
           (grammar "block with-interface one-of { 03:01:01 03:01:02 }").1
           Rule_new _ eq_refl).
Defined.

Lemma substring_prefix_app (s t : string) :
  String.substring 0 (String.length s) (s +:+ t) = s.
Proof. induction s as [|c s IH]; simpl; [by destruct t | by rewrite IH]. Qed.

Lemma length_append (s t : string) :
  String.length (s +:+ t) = (String.length s + String.length t)%nat.
Proof. induction s as [|c s IH]; simpl; [done | by rewrite IH]. Qed.

(** X4: [stringValueFromRule] drops the first and the last character of the
    matched text, whatever they are, and unescapes what lies between; a
    text of one character yields what the empty string unescapes to, and
    the empty text throws ([substr] past the end). *)
Theorem X4_stringValueFromRule_strips_delimiters :
  (∀ c s c',
     stringValueFromRule (String c (s +:+ String c' EmptyString)) = unescapeString s)
  ∧ (∀ c, stringValueFromRule (String c EmptyString) = unescapeString EmptyString)
  ∧ is_Throw (stringValueFromRule EmptyString) = true.
Proof.
  split; [|split]; [|done..].
  intros c s c'. unfold stringValueFromRule. simpl.
  rewrite length_append. simpl.
  replace (String.length s + 1 - 1)%nat with (String.length s) by lia.
  by rewrite substring_prefix_app.
Qed.

(** ** The LinuxDevice constructor *)

Section ConstructorProperties.
Context `{!USBLibrary}.

(** What a successful construction has found and what it has stored. *)
Lemma LinuxDevice_new_inv (syspath_map : gmap string N) (fs : SysFS)
      (dev : udev_device) (d : LinuxDevice) :
  LinuxDevice_new syspath_map fs dev = Ok d →
  ∃ parent psys sys sysname authstate stream n ifs,
    udev_device_get_parent dev = Some parent
    ∧ udev_device_get_syspath parent = Some psys
    ∧ udev_device_get_syspath dev = Some sys
    ∧ udev_device_get_sysname dev = Some sysname
    ∧ fs !! (sys +:+ "/authorized") = Some authstate
    ∧ fs !! (sys +:+ "/descriptors") = Some stream
    ∧ USBDescriptorParser_parse stream = Ok (n, ifs)
    ∧ (sizeof_USBDeviceDescriptor ≤ n)%nat
    ∧ getID d = None ∧ getPort d = sysname ∧ getSysPath d = sys
    ∧ getName d = default EmptyString (udev_device_get_sysattr_value dev "product")
    ∧ getSerial d = default EmptyString (udev_device_get_sysattr_value dev "serial")
    ∧ getInterfaceTypes d = ifs
    ∧ getHash d = hashBytes (take n stream)
    ∧ getTarget d = (if ifstream_get authstate =? 49
                     then Target.Allow else Target.Block)
    ∧ (if bool_decide (udev_device_get_devtype parent = Some "usb_device")
       then syspath_map !! psys = Some (getParentID d) ∧ getParentHash d = EmptyString
       else getParentID d = Rule_RootID ∧ getParentHash d = hashString psys)
    ∧ match udev_device_get_sysattr_value dev "idVendor",
            udev_device_get_sysattr_value dev "idProduct" with
      | Some v, Some p => USBDeviceID_new v p = Ok (getDeviceID d)
      | _, _ => getDeviceID d = mkUSBDeviceID EmptyString EmptyString
      end.
Proof.
  unfold LinuxDevice_new.
  destruct (udev_device_get_parent dev) as [parent|] eqn:Hparent; [|discriminate].
  destruct (udev_device_get_syspath parent) as [psys|] eqn:Hpsys; [|discriminate].
  unfold mbind, result_mbind, result_bind, getIDFromSysPath.
  destruct (udev_device_get_sysattr_value dev "idVendor") as [v|] eqn:Hv;
    destruct (udev_device_get_sysattr_value dev "idProduct") as [p|] eqn:Hp;
    try destruct (USBDeviceID_new v p) as [did|] eqn:Hdid.
  all: destruct (decide (udev_device_get_devtype parent = Some "usb_device")) as [Hu|Hu].
  all: try rewrite (bool_decide_eq_false_2 (_ ≠ _)) by (intros Hn; by apply Hn).
  all: try rewrite (bool_decide_eq_true_2 (_ ≠ _)) by done.
  all: try destruct (syspath_map !! psys) as [pid|] eqn:Hpid.
  all: try discriminate.
  all: destruct (udev_device_get_syspath dev) as [sys|] eqn:Hsys; [|discriminate].
  all: destruct (udev_device_get_sysname dev) as [sysname|] eqn:Hname; [|discriminate].
  all: destruct (fs !! (sys +:+ "/authorized")) as [authstate|] eqn:Hauth;
         [|discriminate].
  all: destruct (fs !! (sys +:+ "/descriptors")) as [stream|] eqn:Hdesc;
         [|discriminate].
  all: destruct (USBDescriptorParser_parse stream) as [[n ifs]|] eqn:Hparse;
         [|discriminate].
  all: destruct (n <? sizeof_USBDeviceDescriptor)%nat eqn:Hn; [discriminate|].
  all: apply Nat.ltb_ge in Hn.
  all: intros [= <-].
  all: exists parent, psys, sys, sysname, authstate, stream, n, ifs.
  all: rewrite ?(bool_decide_eq_true_2 _ Hu), ?(bool_decide_eq_false_2 _ Hu).
  all: repeat (split; [try done|]).
  all: try by destruct (udev_device_get_sysattr_value dev "product").
  all: try by destruct (udev_device_get_sysattr_value dev "serial").
  all: try by destruct (ifstream_get authstate =? 49), (ifstream_get authstate =? 48).
  all: try by destruct (udev_device_get_sysattr_value dev "product"),
         (udev_device_get_sysattr_value dev "serial"),
         (ifstream_get authstate =? 49), (ifstream_get authstate =? 48).
Qed.

(** X5: a constructed device never has the target [Unknown]: it is [Allow]
    exactly when the first byte of the [authorized] file is the character
    1, and [Block] for every other content, the empty file included. *)
Theorem X5_constructed_target (syspath_map : gmap string N) (fs : SysFS)
        (dev : udev_device) (d : LinuxDevice) :
  LinuxDevice_new syspath_map fs dev = Ok d →
  ∃ sys authstate,
    udev_device_get_syspath dev = Some sys
    ∧ fs !! (sys +:+ "/authorized") = Some authstate
    ∧ getTarget d = (if bool_decide (head authstate = Some 49)
                     then Target.Allow else Target.Block).
Proof.
  intros Hnew.
  destruct (LinuxDevice_new_inv _ _ _ _ Hnew)
    as (parent & psys & sys & sysname & authstate & stream & n & ifs & _ & _
        & Hsys & _ & Hauth & _ & _ & _ & _ & _ & _ & _ & _ & _ & _ & Ht & _).
  exists sys, authstate. split; [done|]. split; [done|]. rewrite Ht.
  destruct authstate as [|c rest]; simpl; [done|].
  destruct (c =? 49) eqn:Hc.
  - apply Z.eqb_eq in Hc as ->. by rewrite bool_decide_eq_true_2.
  - apply Z.eqb_neq in Hc. rewrite bool_decide_eq_false_2; [done|congruence].
Qed.

(** X6: the parent of a constructed device.  When the parent is not a USB
    device (its devtype is missing or differs from "usb_device"), the
    parent id is the root id and the parent hash is the hash of the
    parent's syspath; when it is a USB device, the parent id is the
    identifier the manager holds for the parent's syspath, and when the
    manager holds none the construction throws. *)
Theorem X6_constructed_parent (syspath_map : gmap string N) (fs : SysFS)
        (dev parent : udev_device) (psys : string) :
  udev_device_get_parent dev = Some parent →
  udev_device_get_syspath parent = Some psys →
  (∀ d, LinuxDevice_new syspath_map fs dev = Ok d →
        if bool_decide (udev_device_get_devtype parent = Some "usb_device")
        then syspath_map !! psys = Some (getParentID d)
        else getParentID d = Rule_RootID ∧ getParentHash d = hashString psys)
  ∧ (udev_device_get_devtype parent = Some "usb_device" →
     syspath_map !! psys = None →
     LinuxDevice_new syspath_map fs dev = Throw (out_of_range "map::at")).
Proof.
  intros Hparent Hpsys. split.
  - intros d Hnew.
    destruct (LinuxDevice_new_inv _ _ _ _ Hnew)
      as (parent' & psys' & sys & sysname & authstate & stream & n & ifs & Hp' & Hps'
          & _ & _ & _ & _ & _ & _ & _ & _ & _ & _ & _ & _ & _ & _ & Hpar & _).
    rewrite Hparent in Hp'. injection Hp' as <-.
    rewrite Hpsys in Hps'. injection Hps' as <-.
    destruct (bool_decide _); tauto.
  - intros Hu Hnone. unfold LinuxDevice_new. rewrite Hparent, Hpsys.
    rewrite (bool_decide_eq_false_2 (_ ≠ _)) by (intros Hn; by apply Hn).
    unfold getIDFromSysPath. by rewrite Hnone.
Qed.

Lemma LinuxDevice_new_constructible (syspath_map : gmap string N) (fs : SysFS)
      (dev : udev_device) :
  constructible syspath_map fs dev → ∃ d, LinuxDevice_new syspath_map fs dev = Ok d.
Proof.
  intros (parent & psys & sys & sysname & authstate & stream & n & ifs & Hparent & Hpsys
          & Hreg & Hid & Hsys & Hname & Hauth & Hdesc & Hparse & Hn).
  unfold LinuxDevice_new. rewrite Hparent, Hpsys.
  unfold mbind, result_mbind, result_bind, getIDFromSysPath.
  assert (∃ d1, (if bool_decide (udev_device_get_devtype parent ≠ Some "usb_device")
                 then Ok (setParentHash (hashString psys)
                            (setParentID Rule_RootID Device_new))
                 else match match syspath_map !! psys with
                            | Some id => Ok id
                            | None => Throw (out_of_range "map::at")
                            end with
                      | Ok a => Ok (setParentID a Device_new)
                      | Throw e => Throw e
                      end) = Ok d1) as [d1 ->].
  { case_bool_decide as Hu; [eauto|].
    destruct (Hreg) as [pid ->]; [|eauto].
    by destruct (decide (udev_device_get_devtype parent = Some "usb_device")). }
  destruct (udev_device_get_sysattr_value dev "idVendor") as [v|] eqn:Hv;
    destruct (udev_device_get_sysattr_value dev "idProduct") as [p|] eqn:Hp.
  1: specialize (Hid v p eq_refl eq_refl);
     destruct (USBDeviceID_new v p) as [did|]; [|discriminate].
  all: rewrite Hsys, Hname, Hauth, Hdesc, Hparse.
  all: apply Nat.ltb_ge in Hn; rewrite Hn; eauto.
Qed.

(** X7: the constructor succeeds exactly when the device has a parent with
    a syspath (registered with the manager when the parent is a USB
    device), a syspath and a sysname of its own, readable [authorized] and
    [descriptors] files, vendor and product ids (when both are present)
    that form a valid device id, and a descriptor stream of which the
    parser processes at least the size of a device descriptor. *)
Theorem X7_construction_succeeds_iff (syspath_map : gmap string N) (fs : SysFS)
        (dev : udev_device) :
  (∃ d, LinuxDevice_new syspath_map fs dev = Ok d) ↔ constructible syspath_map fs dev.
Proof.
  split; [|apply LinuxDevice_new_constructible].
  intros [d Hnew].
  destruct (LinuxDevice_new_inv _ _ _ _ Hnew)
    as (parent & psys & sys & sysname & authstate & stream & n & ifs & Hparent & Hpsys
        & Hsys & Hname & Hauth & Hdesc & Hparse & Hn & _ & _ & _ & _ & _ & _ & _ & _
        & Hpar & Hid).
  exists parent, psys, sys, sysname, authstate, stream, n, ifs.
  repeat (split; [done|]). split; [|split; [|done]].
  - intros Hu. rewrite bool_decide_eq_true_2 in Hpar by done.
    destruct Hpar as [-> _]. eauto.
  - intros v p Hv Hp. rewrite Hv, Hp in Hid. by rewrite Hid.
Qed.

(** X8: what a constructed device holds: no identifier yet, the sysname as
    port, the syspath, the [product] and [serial] attributes or the empty
    string when they are absent, the interface types the parser reported,
    and the hash of exactly the first [n] bytes of the descriptor stream,
    where [n] is what the parser processed. *)
Theorem X8_constructed_fields (syspath_map : gmap string N) (fs : SysFS)
        (dev : udev_device) (d : LinuxDevice) :
  LinuxDevice_new syspath_map fs dev = Ok d →
  getID d = None
  ∧ udev_device_get_sysname dev = Some (getPort d)
  ∧ udev_device_get_syspath dev = Some (getSysPath d)
  ∧ getName d = default EmptyString (udev_device_get_sysattr_value dev "product")
  ∧ getSerial d = default EmptyString (udev_device_get_sysattr_value dev "serial")
  ∧ ∃ stream n,
      fs !! (getSysPath d +:+ "/descriptors") = Some stream
      ∧ USBDescriptorParser_parse stream = Ok (n, getInterfaceTypes d)
      ∧ (sizeof_USBDeviceDescriptor ≤ n)%nat
      ∧ getHash d = hashBytes (take n stream).
Proof.
  intros Hnew.
  destruct (LinuxDevice_new_inv _ _ _ _ Hnew)
    as (parent & psys & sys & sysname & authstate & stream & n & ifs & _ & _
        & Hsys & Hname & _ & Hdesc & Hparse & Hn & Hid & <- & <- & Hnm & Hser
        & <- & Hhash & _).
  repeat (split; [done|]). exists stream, n. done.
Qed.

End ConstructorProperties.

Lemma constructed_usb1_eq :
  LinuxDevice_new ∅ (sysfs Example.world_good) Example.usb1 = Ok constructed_usb1.
Proof. reflexivity. Qed.

Lemma X5_constructed_target_witness :
  LinuxDevice_new ∅ (sysfs Example.world_good) Example.usb1 = Ok constructed_usb1
  ∧ getTarget constructed_usb1 = Target.Allow.
Proof.
  split; [reflexivity|].
  destruct (X5_constructed_target ∅ (sysfs Example.world_good) Example.usb1
              constructed_usb1 constructed_usb1_eq)
    as (sys & authstate & Hsys & Hauth & Ht).
  injection Hsys as <-. vm_compute in Hauth. injection Hauth as <-.
  exact Ht.
Defined.

Lemma X6_constructed_parent_witness :
  udev_device_get_parent Example.usb1 = Some Example.pci_parent
  ∧ udev_device_get_syspath Example.pci_parent = Some "/sys/devices/pci0"
  ∧ LinuxDevice_new ∅ (sysfs Example.world_good) Example.usb1 = Ok constructed_usb1
  ∧ getParentID constructed_usb1 = Rule_RootID.
Proof.
  split; [reflexivity|]. split; [reflexivity|]. split; [reflexivity|].
  destruct (X6_constructed_parent ∅ (sysfs Example.world_good) Example.usb1
              (Example.pci_parent) "/sys/devices/pci0" eq_refl eq_refl) as [Hok _].
  exact (proj1 (Hok constructed_usb1 constructed_usb1_eq)).
Defined.

Lemma X8_constructed_fields_witness :
  LinuxDevice_new ∅ (sysfs Example.world_good) Example.usb1 = Ok constructed_usb1
  ∧ udev_device_get_sysname Example.usb1 = Some (getPort constructed_usb1)
  ∧ getSerial constructed_usb1 = EmptyString.
Proof.
  split; [reflexivity|].
  destruct (X8_constructed_fields ∅ (sysfs Example.world_good) Example.usb1
              constructed_usb1 constructed_usb1_eq)
    as (_ & Hport & _ & _ & Hserial & _).
  split; [exact Hport | exact Hserial].
Defined.

(** ** The policy backend and policy application *)

Lemma substring_all_iff (s : string) : ∀ n,
  String.substring 0 n s = s ↔ (String.length s ≤ n)%nat.
Proof.
  induction s as [|c s IH]; intros [|n]; simpl.
  - split; [lia|done].
  - split; [lia|done].
  - split; [discriminate|lia].
  - rewrite <- Nat.succ_le_mono, <- IH. split; [by intros [= ->]|by intros ->].
Qed.

Lemma substring_length (s : string) : ∀ n,
  String.length (String.substring 0 n s) = (n `min` String.length s)%nat.
Proof.
  induction s as [|c s IH]; intros [|n]; simpl; try done. by rewrite IH.
Qed.

Section BackendProperties.
Context `{!LinuxSysIO}.

(** X9: for each target [sysioApplyTarget] serves, the one write it
    performs goes to the first [SYSIO_PATH_MAX - 1] characters of the
    device's syspath, a slash and the file name, and the result of
    [sysioApplyTarget] is the result of that write.  The path written to
    is the intended one exactly when the intended one is shorter than
    [SYSIO_PATH_MAX]; otherwise it is a shorter prefix of it, hence a
    different file. *)
Theorem X9_sysio_path_truncated (sys : string) (target : Target.t) (file : string)
        (value : Z) (w : World) :
  (target, file, value) ∈ backend_operations →
  let full := sys +:+ "/" +:+ file in
  let path := String.substring 0 (pred SYSIO_PATH_MAX) full in
  sysioApplyTarget sys target w
  = match sysioWrite path value (sysfs w) with
    | Ok fs =>
        (Ok tt,
         set_sysfs fs
           (set_trace (trace w ++ [EvApplyTarget sys target; EvSysioWrite path value]) w))
    | Throw e =>
        (Throw e,
         set_trace (trace w ++ [EvApplyTarget sys target; EvSysioWrite path value]) w)
    end
  ∧ (path = full ↔ (String.length full < SYSIO_PATH_MAX)%nat)
  ∧ String.length path = (pred SYSIO_PATH_MAX `min` String.length full)%nat
  ∧ String.prefix path full = true.
Proof.
  intros Hin. cbv zeta.
  split; [exact (sysioApplyTarget_served sys target file value w Hin)|].
  set (full := sys +:+ "/" +:+ file).
  split; [|split].
  - rewrite substring_all_iff.
    assert (0 < String.length full)%nat.
    { subst full. rewrite length_append. simpl.
      destruct (String.length sys); simpl; lia. }
    lia.
  - apply substring_length.
  - apply substr0_prefix. unfold Str.substr0.
    rewrite substring_length.
    generalize (pred SYSIO_PATH_MAX). intros n.
    revert n. induction full as [|c s IH]; intros [|n]; simpl; try done.
    by rewrite IH.
Qed.
End BackendProperties.

Lemma locks_of_app (a b : list Event) : locks_of (a ++ b) = locks_of a ++ locks_of b.
Proof. apply omap_app. Qed.

Lemma writes_of_app (a b : list Event) : writes_of (a ++ b) = writes_of a ++ writes_of b.
Proof. apply omap_app. Qed.

Section PolicyProperties.
Context `{!USBLibrary, !LinuxSysIO}.

(** What [sysioApplyTarget] changes: the files below /sys and the trace,
    to which it adds its own call and, for the three targets it serves, one
    write. *)
Lemma sysioApplyTarget_shape (sys : string) (target : Target.t) (w : World) :
  ∃ fs evs,
    (sysioApplyTarget sys target w).2
    = set_sysfs fs (set_trace (trace w ++ EvApplyTarget sys target :: evs) w)
    ∧ locks_of evs = [] ∧ hooks_of evs = [] ∧ applied_of evs = []
    ∧ if policy_target target
      then ∃ p v, evs = [EvSysioWrite p v]
      else evs = [] ∧ fs = sysfs w
           ∧ (sysioApplyTarget sys target w).1
             = Throw (runtime_error "Unknown rule target in applyDevicePolicy").
Proof.
  unfold sysioApplyTarget, sysioWrite_call. munfold.
  destruct target; simpl.
  1-3: destruct (sysioWrite _ _ _) as [fs|e]; simpl.
  1,3,5: exists fs.
  4-6: exists (sysfs w).
  1-6: eexists [_]; rewrite <- app_assoc; split; [by destruct w|];
       repeat (split; [done|]); eauto.
  all: exists (sysfs w), []; split; [by destruct w|done].
Qed.

(** What [applyDevicePolicy] changes and which events it adds. *)
Lemma applyDevicePolicy_shape (id : N) (target : Target.t) (w : World)
      (d : LinuxDevice) :
  device_map w !! id = Some d →
  ∃ fs evs,
    (applyDevicePolicy id target w).2
    = set_sysfs fs
        (set_trace (trace w ++ evs)
           (set_device_map
              (if is_Throw (applyDevicePolicy id target w).1 then device_map w
               else <[id := setTarget target d]> (device_map w)) w))
    ∧ locks_of evs = [EvLock (getID d); EvUnlock (getID d)]
    ∧ hooks_of evs = []
    ∧ applied_of evs = [(getSysPath d, target)]
    ∧ (policy_target target = false →
       writes_of evs = [] ∧ fs = sysfs w
       ∧ (applyDevicePolicy id target w).1
         = Throw (runtime_error "Unknown rule target in applyDevicePolicy")).
Proof.
  intros Hd.
  pose proof (applyDevicePolicy_cases id target w d Hd) as Hcase. cbv zeta in Hcase.
  destruct (sysioApplyTarget_shape (getSysPath d) target
              (set_trace (trace w ++ [EvLock (getID d)]) w))
    as (fs & evs & Hw & Hl & Hh & Ha & Hpol).
  destruct (sysioApplyTarget _ _ _) as [[[]|e] wb] eqn:Hb; simpl in Hw; subst wb;
    destruct Hcase as (Heq & _); rewrite Heq; simpl.
  - exists fs, (EvLock (getID d) :: EvApplyTarget (getSysPath d) target :: evs
                 ++ [EvSetTarget (getID d) target; EvUnlock (getID d)]).
    split; [destruct w; simpl; unfold set_trace, set_sysfs, set_device_map; simpl;
            by rewrite <- !app_assoc|].
    unfold locks_of, hooks_of, applied_of, writes_of in *. simpl.
    rewrite !omap_app. simpl. rewrite Hl, Hh, Ha.
    split; [done|]. split; [done|]. split; [done|].
    intros Hp. rewrite Hp in Hpol. by destruct Hpol as (_ & _ & ?).
  - exists fs, (EvLock (getID d) :: EvApplyTarget (getSysPath d) target :: evs
                 ++ [EvUnlock (getID d)]).
    split; [destruct w; simpl; unfold set_trace, set_sysfs, set_device_map; simpl;
            by rewrite <- !app_assoc|].
    unfold locks_of, hooks_of, applied_of, writes_of in *. simpl.
    rewrite !omap_app. simpl. rewrite Hl, Hh, Ha.
    split; [done|]. split; [done|]. split; [done|].
    intros Hp. rewrite Hp in Hpol. destruct Hpol as (-> & -> & He).
    simpl in *. split; [done|]. split; [done|]. by injection He as ->.
Qed.

(** X10: applying a target the backend does not serve ([Match], [Device],
    [Unknown]) to a registered device throws "Unknown rule target in
    applyDevicePolicy" without any write: the mutex is taken and released,
    and the manager, the files and the cached target are as before. *)
Theorem X10_unserved_target_rejected (id : N) (target : Target.t) (w : World)
        (d : LinuxDevice) :
  device_map w !! id = Some d →
  policy_target target = false →
  applyDevicePolicy id target w
  = (Throw (runtime_error "Unknown rule target in applyDevicePolicy"),
     set_trace (trace w ++ [EvLock (getID d);
                            EvApplyTarget (getSysPath d) target;
                            EvUnlock (getID d)]) w).
Proof.
  intros Hd Hp. unfold applyDevicePolicy, DeviceManager_getDevice, sysioApplyTarget.
  munfold. rewrite Hd. simpl.
  destruct target; try discriminate; simpl;
    unfold set_trace; simpl; by rewrite <- !app_assoc.
Qed.

(** X11: [applyDevicePolicy] touches one thing in the manager: the cached
    target of the device it is called for.  Every other device, the set of
    registered identifiers, the syspath map, the allocator and the
    worker's state are as before, and the device itself differs from what
    it was at most in its target. *)
Theorem X11_applyDevicePolicy_frame (id : N) (target : Target.t) (w : World) :
  let w' := (applyDevicePolicy id target w).2 in
  (∀ j, j ≠ id → device_map w' !! j = device_map w !! j)
  ∧ (device_map w !! id = None → w' = w)
  ∧ (∀ d, device_map w !! id = Some d →
          device_map w' !! id = Some d
          ∨ device_map w' !! id = Some (setTarget target d))
  ∧ _syspath_map w' = _syspath_map w ∧ next_id w' = next_id w
  ∧ authorized_default w' = authorized_default w
  ∧ _event_fd w' = _event_fd w ∧ stop_requested w' = stop_requested w
  ∧ umon_queue w' = umon_queue w.
Proof.
  simpl. destruct (device_map w !! id) as [d|] eqn:Hd.
  - destruct (applyDevicePolicy_shape id target w d Hd) as (fs & evs & -> & _).
    simpl. split; [|split; [done|split]].
    + intros j Hj. destruct (is_Throw _); [done|]. by rewrite lookup_insert_ne.
    + intros d0 [= <-]. destruct (is_Throw _); [by left|right].
      apply lookup_insert_eq.
    + done.
  - destruct (applyDevicePolicy_unknown id target w Hd) as [e ->]. simpl.
    repeat split; done.
Qed.

(** X12: whether [applyDevicePolicy] returns or throws, the mutex events it
    adds for a registered device are one acquisition followed by one
    release of that device's mutex, and the backend is called once, for
    that device's syspath; for an unregistered identifier it throws before
    it takes any mutex or calls the backend. *)
Theorem X12_mutex_released (id : N) (target : Target.t) (w : World) :
  match device_map w !! id with
  | Some d =>
      ∃ evs, trace (applyDevicePolicy id target w).2 = trace w ++ evs
             ∧ locks_of evs = [EvLock (getID d); EvUnlock (getID d)]
             ∧ applied_of evs = [(getSysPath d, target)]
  | None =>
      is_Throw (applyDevicePolicy id target w).1 = true
      ∧ (applyDevicePolicy id target w).2 = w
  end.
Proof.
  destruct (device_map w !! id) as [d|] eqn:Hd.
  - destruct (applyDevicePolicy_shape id target w d Hd)
      as (fs & evs & -> & Hl & _ & Ha & _).
    by exists evs.
  - by destruct (applyDevicePolicy_unknown id target w Hd) as [e ->].
Qed.

Lemma applyDevicePolicy_lookup (id : N) (target : Target.t) (w : World)
      (d : LinuxDevice) :
  device_map w !! id = Some d →
  device_map (applyDevicePolicy id target w).2 !! id
  = Some (if is_Throw (applyDevicePolicy id target w).1 then d
          else setTarget target d).
Proof.
  intros Hd.
  destruct (applyDevicePolicy_shape id target w d Hd) as (fs & evs & -> & _).
  simpl. destruct (is_Throw _); [done|]. apply lookup_insert_eq.
Qed.

Lemma apply_each_last (id : N) (ts : list Target.t) :
  ∀ (w : World) (d : LinuxDevice),
    device_map w !! id = Some d →
    device_map (apply_each id ts w).2 !! id
    = Some (match last (apply_each id ts w).1 with
            | Some t => setTarget t d
            | None => d
            end).
Proof.
  induction ts as [|t ts IH]; intros w d Hd; [done|].
  simpl.
  pose proof (applyDevicePolicy_lookup id t w d Hd) as Hl.
  destruct (applyDevicePolicy id t w) as [[d'|e] w1]; simpl in Hl.
  - specialize (IH w1 (setTarget t d) Hl).
    destruct (apply_each id ts w1) as [ok w''] eqn:Hrest. simpl in *.
    rewrite IH. destruct ok as [|t' ok']; [reflexivity|].
    rewrite (last_cons t). by destruct (last (t' :: ok')).
  - by apply IH.
Qed.

(** X13: when a caller applies several targets to one registered device in
    turn and catches the failures, the cached target ends as the last
    target whose application returned, and as it was when none did; the
    rest of the device is unchanged. *)
Theorem X13_last_applied_target_wins (id : N) (ts : list Target.t) (w : World)
        (d : LinuxDevice) :
  device_map w !! id = Some d →
  device_map (apply_each id ts w).2 !! id
  = Some (match last (apply_each id ts w).1 with
          | Some t => setTarget t d
          | None => d
          end).
Proof. apply apply_each_last. Qed.

End PolicyProperties.

(** ** The registry, hotplug events and the worker's turns *)

Section RegistryProperties.
Context `{!USBLibrary, !LinuxSysIO}.

Lemma maps_consistent_fresh (w : World) :
  maps_consistent w → device_map w !! next_id w = None.
Proof.
  intros (_ & _ & Hlt). destruct (device_map w !! next_id w) eqn:Hd; [|done].
  assert (next_id w < next_id w)%N by (apply Hlt; eauto). lia.
Qed.

Lemma maps_consistent_scan (running : bool) (w : World) :
  maps_consistent w → maps_consistent (scan running w).2.
Proof.
  intros Hc. unfold scan. destruct running; simpl; [done|].
  by apply maps_consistent_udevEnumerateDevices.
Qed.

Lemma maps_consistent_thread (selects : list select_result) (w : World) :
  maps_consistent w → maps_consistent (thread selects w).2.
Proof.
  intros Hc. unfold thread. munfold.
  pose proof (maps_consistent_udevEnumerateDevices w Hc) as He.
  destruct (udevEnumerateDevices w) as [[[]|e] w1]; simpl in *; [|done].
  by apply maps_consistent_thread_loop.
Qed.

(** X14: the consistency of the two maps (every syspath of the syspath
    map names a registered device, no two syspaths share an identifier,
    the allocator is ahead of every registered identifier) is an
    invariant of the manager: every operation keeps it, whether it
    returns or throws, and so does the worker, whatever [select]
    reports. *)
Theorem X14_maps_consistent_invariant (w : World) :
  maps_consistent w →
  (∀ d, maps_consistent (insertDevice d w).2)
  ∧ (∀ syspath, maps_consistent (removeDevice syspath w).2)
  ∧ (∀ id target, maps_consistent (applyDevicePolicy id target w).2)
  ∧ (∀ id, maps_consistent (allowDevice id w).2
           ∧ maps_consistent (blockDevice id w).2
           ∧ maps_consistent (rejectDevice id w).2)
  ∧ (∀ dev, maps_consistent (processDevicePresence dev w).2
            ∧ maps_consistent (processDeviceInsertion dev w).2
            ∧ maps_consistent (processDeviceRemoval dev w).2)
  ∧ maps_consistent (udevReceiveDevice w).2
  ∧ (∀ running, maps_consistent (scan running w).2)
  ∧ (∀ selects, maps_consistent (thread selects w).2).
Proof.
  intros Hc.
  split; [intros d; by apply maps_consistent_insertDevice|].
  split; [intros s; by apply maps_consistent_removeDevice|].
  split; [intros id t; by apply maps_consistent_applyDevicePolicy|].
  split; [intros id; by apply maps_consistent_policy_entries|].
  split.
  { intros dev. split; [by apply maps_consistent_processDevicePresence|].
    split; [by apply maps_consistent_processDeviceInsertion|].
    by apply maps_consistent_processDeviceRemoval. }
  split; [by apply maps_consistent_udevReceiveDevice|].
  split; [intros r; by apply maps_consistent_scan|].
  intros selects; by apply maps_consistent_thread.
Qed.

(** What registering a device with a fresh syspath and looking it up or
    removing it again gives. *)
Lemma insert_lookup_remove (d : LinuxDevice) (w : World) :
  maps_consistent w →
  _syspath_map w !! getSysPath d = None →
  let wi := (insertDevice d w).2 in
  let d' := setID (next_id w) d in
  getIDFromSysPath (_syspath_map wi) (getSysPath d) = Ok (next_id w)
  ∧ DeviceManager_getDevice (next_id w) wi = (Ok d', wi)
  ∧ (removeDevice (getSysPath d) wi).1 = Ok d'
  ∧ device_map (removeDevice (getSysPath d) wi).2 = device_map w
  ∧ _syspath_map (removeDevice (getSysPath d) wi).2 = _syspath_map w
  ∧ next_id (removeDevice (getSysPath d) wi).2 = (next_id w + 1)%N.
Proof.
  intros Hc Hs. pose proof (maps_consistent_fresh w Hc) as Hf.
  cbv zeta. rewrite insertDevice_spec. simpl.
  unfold getIDFromSysPath, DeviceManager_getDevice, removeDevice,
    DeviceManager_removeDevice. munfold. simpl.
  rewrite !lookup_insert_eq. simpl. rewrite !lookup_insert_eq. simpl.
  split; [done|]. split; [done|]. split; [done|].
  by rewrite !delete_insert_id.
Qed.

(** X15: registering a device whose syspath is new, then looking the
    syspath up, fetching the device and removing it by syspath, is a round
    trip: the lookup gives the identifier just allocated, the device
    comes back with that identifier, and after the removal both maps are
    what they were; only the allocator has moved on, so the identifier is
    not handed out again. *)
Theorem X15_insert_remove_round_trip (d : LinuxDevice) (w : World) :
  maps_consistent w →
  _syspath_map w !! getSysPath d = None →
  let wi := (insertDevice d w).2 in
  let d' := setID (next_id w) d in
  getIDFromSysPath (_syspath_map wi) (getSysPath d) = Ok (next_id w)
  ∧ DeviceManager_getDevice (next_id w) wi = (Ok d', wi)
  ∧ (removeDevice (getSysPath d) wi).1 = Ok d'
  ∧ device_map (removeDevice (getSysPath d) wi).2 = device_map w
  ∧ _syspath_map (removeDevice (getSysPath d) wi).2 = _syspath_map w
  ∧ next_id (removeDevice (getSysPath d) wi).2 = (next_id w + 1)%N.
Proof. exact (insert_lookup_remove d w). Qed.

(** X16: registering a device under a syspath that is registered already
    (a second "add" without a "remove") does not replace the earlier
    device: the syspath now leads to the new identifier, the earlier
    device stays in the device map and no syspath leads to it any more, so
    the removal by syspath that follows takes out the new device and
    leaves the earlier one registered. *)
Theorem X16_reinsertion_shadows (d : LinuxDevice) (old : N) (w : World) :
  maps_consistent w →
  _syspath_map w !! getSysPath d = Some old →
  let wi := (insertDevice d w).2 in
  let wr := (removeDevice (getSysPath d) wi).2 in
  _syspath_map wi !! getSysPath d = Some (next_id w)
  ∧ old ≠ next_id w
  ∧ (∀ s, _syspath_map wi !! s ≠ Some old)
  ∧ (removeDevice (getSysPath d) wi).1 = Ok (setID (next_id w) d)
  ∧ is_Some (device_map wr !! old)
  ∧ device_map wr = device_map w
  ∧ (∀ s, _syspath_map wr !! s ≠ Some old).
Proof.
  intros Hc Hs. pose proof (maps_consistent_fresh w Hc) as Hf.
  pose proof Hc as (Hreg & Hinj & Hlt).
  assert (old ≠ next_id w) as Hne.
  { intros ->. apply Hreg in Hs. rewrite Hf in Hs. by destruct Hs. }
  cbv zeta. rewrite insertDevice_spec. simpl.
  unfold removeDevice, DeviceManager_removeDevice. munfold. simpl.
  rewrite !lookup_insert_eq. simpl. rewrite !lookup_insert_eq. simpl.
  split; [done|]. split; [done|].
  split.
  { intros s. rewrite lookup_insert. case_decide; [congruence|].
    intros Hs'. by pose proof (Hinj _ _ _ Hs Hs'). }
  split; [done|].
  rewrite delete_insert_id by done.
  split; [by apply (Hreg (getSysPath d))|]. split; [done|].
  intros s. rewrite delete_insert_eq, lookup_delete. case_decide; [done|].
  intros Hs'. by pose proof (Hinj _ _ _ Hs Hs').
Qed.

(** The outcomes of [processDeviceRemoval]. *)
Lemma processDeviceRemoval_cases (dev : udev_device) (w : World) :
  (processDeviceRemoval dev w).1 = Ok tt
  ∧ (maps_consistent w →
     match udev_device_get_syspath dev ≫= λ s, (_syspath_map w !! s) ≫= λ id, Some (s, id) with
     | Some (s, id) =>
         ∃ d, device_map w !! id = Some d
              ∧ (processDeviceRemoval dev w).2
                = set_trace (trace w ++ [EvHook DeviceRemoved d])
                    (set_syspath_map (delete s (_syspath_map w))
                       (set_device_map (delete id (device_map w)) w))
     | None => (processDeviceRemoval dev w).2 = w
     end).
Proof.
  unfold processDeviceRemoval.
  destruct (udev_device_get_syspath dev) as [s|]; simpl; [|done].
  split.
  - munfold. by destruct (removeDevice s w) as [[d|e] w'].
  - intros Hc. destruct (removeDevice_cases s w Hc) as [_ Hcase].
    destruct (_syspath_map w !! s) as [id|]; simpl.
    + destruct Hcase as (d & Hd & Heq). exists d. split; [done|].
      munfold. by rewrite Heq.
    + munfold. by rewrite Hcase.
Qed.

(** X17: [processDeviceRemoval] never throws.  In a manager whose maps are
    consistent, a "remove" for a device without syspath or for a syspath
    that is not registered changes nothing and raises no notification; a
    "remove" for a registered syspath takes the device out of both maps
    and raises [DeviceRemoved] for it, once. *)
Theorem X17_processDeviceRemoval_outcomes (dev : udev_device) (w : World) :
  (processDeviceRemoval dev w).1 = Ok tt
  ∧ (maps_consistent w →
     match udev_device_get_syspath dev ≫= λ s, (_syspath_map w !! s) ≫= λ id, Some (s, id) with
     | Some (s, id) =>
         ∃ d, device_map w !! id = Some d
              ∧ (processDeviceRemoval dev w).2
                = set_trace (trace w ++ [EvHook DeviceRemoved d])
                    (set_syspath_map (delete s (_syspath_map w))
                       (set_device_map (delete id (device_map w)) w))
     | None => (processDeviceRemoval dev w).2 = w
     end).
Proof. exact (processDeviceRemoval_cases dev w). Qed.

End RegistryProperties.
Section HotplugProperties.
Context `{!USBLibrary, !LinuxSysIO}.

(** The result of the REJECT backend operation is that of its write. *)
Lemma sysioApplyTarget_Reject_result (sys : string) (w : World) :
  (sysioApplyTarget sys Target.Reject w).1
  = match sysioWrite (snprintf_path sys "remove") 1 (sysfs w) with
    | Ok _ => Ok tt
    | Throw e => Throw e
    end.
Proof.
  unfold sysioApplyTarget, sysioWrite_call. munfold. simpl.
  by destruct (sysioWrite _ _ _).
Qed.

Lemma processDeviceInsertion_result (dev : udev_device) (sys : string) (w : World) :
  udev_device_get_syspath dev = Some sys →
  (processDeviceInsertion dev w).1
  = match LinuxDevice_new (_syspath_map w) (sysfs w) dev with
    | Ok _ => Ok tt
    | Throw _ =>
        match sysioWrite (snprintf_path sys "remove") 1 (sysfs w) with
        | Ok _ => Ok tt
        | Throw e => Throw e
        end
    end.
Proof.
  intros Hsys. pose proof (processDeviceInsertion_cases dev sys w Hsys) as Hcase.
  destruct (LinuxDevice_new _ _ _) as [d|ex]; cbv zeta in Hcase.
  - by rewrite Hcase.
  - destruct Hcase as (-> & _). by rewrite sysioApplyTarget_Reject_result.
Qed.

(** X18: on a hotplug "add" for a device with a syspath,
    [processDeviceInsertion] returns when the constructor succeeded, and
    when it failed returns or throws as the REJECT write does: it throws
    exactly when the constructor failed and the write of the rejection
    failed too, and what it throws is the exception of the write; the
    constructor's exception is logged, never passed on. *)
Theorem X18_processDeviceInsertion_result (dev : udev_device) (sys : string)
        (w : World) :
  udev_device_get_syspath dev = Some sys →
  (processDeviceInsertion dev w).1
  = match LinuxDevice_new (_syspath_map w) (sysfs w) dev with
    | Ok _ => Ok tt
    | Throw _ =>
        match sysioWrite (snprintf_path sys "remove") 1 (sysfs w) with
        | Ok _ => Ok tt
        | Throw e => Throw e
        end
    end.
Proof. exact (processDeviceInsertion_result dev sys w). Qed.

Lemma processDeviceInsertion_queue (dev : udev_device) (w : World) :
  umon_queue (processDeviceInsertion dev w).2 = umon_queue w.
Proof.
  destruct (udev_device_get_syspath dev) as [sys|] eqn:Hsys.
  - pose proof (processDeviceInsertion_cases dev sys w Hsys) as Hcase.
    destruct (LinuxDevice_new _ _ _) as [d|ex]; cbv zeta in Hcase.
    + by rewrite Hcase.
    + destruct Hcase as (-> & _).
      by destruct (sysioApplyTarget_shape sys Target.Reject
                     (set_trace (trace w ++ [EvLogError sys (what ex)]) w))
        as (fs & evs & -> & _).
  - unfold processDeviceInsertion, String_of_cstr. rewrite Hsys. by munfold.
Qed.

Lemma processDeviceRemoval_queue (dev : udev_device) (w : World) :
  umon_queue (processDeviceRemoval dev w).2 = umon_queue w.
Proof.
  unfold processDeviceRemoval, removeDevice, DeviceManager_removeDevice. munfold.
  destruct (udev_device_get_syspath dev) as [s|]; [|done].
  destruct (_syspath_map w !! s) as [id|]; [|done].
  by destruct (device_map w !! id).
Qed.

Lemma udevReceiveDevice_add (dev : udev_device) (rest : list (option udev_device))
      (w : World) :
  umon_queue w = Some dev :: rest →
  udev_device_get_action dev = Some "add" →
  udevReceiveDevice w = processDeviceInsertion dev (set_umon_queue rest w).
Proof.
  intros Hq Ha. unfold udevReceiveDevice, udev_monitor_receive_device. munfold.
  rewrite Hq. simpl. by rewrite Ha.
Qed.

(** X19: nothing in the worker catches what [processDeviceInsertion]
    throws: when the monitor hands over an "add" for a device whose
    construction fails and whose rejection cannot be written, the
    exception of the write leaves the loop of [thread], in the turn that
    received the event. *)
Theorem X19_failed_rejection_ends_worker (dev : udev_device) (sys : string)
        (rest : list (option udev_device)) (e : exception)
        (selects : list select_result) (turns : nat) (w : World) :
  stop_requested w = false →
  umon_queue w = Some dev :: rest →
  udev_device_get_action dev = Some "add" →
  udev_device_get_syspath dev = Some sys →
  is_Throw (LinuxDevice_new (_syspath_map w) (sysfs w) dev) = true →
  sysioWrite (snprintf_path sys "remove") 1 (sysfs w) = Throw e →
  (thread_loop (monitor_ready :: selects) turns w).1 = Throw e.
Proof.
  intros Hstop Hq Ha Hsys Hnew Hwrite.
  pose proof (processDeviceInsertion_result dev sys (set_umon_queue rest w) Hsys)
    as Hres. simpl in Hres.
  destruct (LinuxDevice_new _ _ _); [done|]. rewrite Hwrite in Hres.
  simpl. unfold Thread_stopRequested, thread_iteration. munfold. rewrite Hstop.
  simpl. rewrite (udevReceiveDevice_add dev rest w Hq Ha).
  by destruct (processDeviceInsertion dev _) as [[[]|e'] w']; simpl in *; simplify_eq.
Qed.

Lemma udevReceiveDevice_queue (w : World) :
  umon_queue (udevReceiveDevice w).2 = tail (umon_queue w).
Proof.
  unfold udevReceiveDevice, udev_monitor_receive_device. munfold.
  destruct (umon_queue w) as [|[dev|] rest] eqn:Hq; simpl; try done.
  destruct (udev_device_get_action dev) as [a|]; [|done].
  destruct (String.eqb a "add"); [by rewrite processDeviceInsertion_queue|].
  destruct (String.eqb a "remove"); [by rewrite processDeviceRemoval_queue|done].
Qed.

(** X20: [udevReceiveDevice] takes exactly one event off the monitor,
    whatever the event is and whether handling it returns or throws; an
    event whose action is neither "add" nor "remove" (or is missing) is
    dropped, and nothing else changes. *)
Theorem X20_udevReceiveDevice_consumes_one (w : World) :
  umon_queue (udevReceiveDevice w).2 = tail (umon_queue w)
  ∧ (∀ dev rest,
       umon_queue w = Some dev :: rest →
       udev_device_get_action dev ≠ Some "add" →
       udev_device_get_action dev ≠ Some "remove" →
       udevReceiveDevice w = (Ok tt, set_umon_queue rest w)).
Proof.
  split; [apply udevReceiveDevice_queue|].
  intros dev rest Hq Hadd Hrem.
  unfold udevReceiveDevice, udev_monitor_receive_device. munfold.
  rewrite Hq. simpl.
  destruct (udev_device_get_action dev) as [a|]; [|done].
  destruct (String.eqb_spec a "add") as [->|_]; [done|].
  by destruct (String.eqb_spec a "remove") as [->|_].
Qed.

Lemma visits_of_app (a b : list Event) : visits_of (a ++ b) = visits_of a ++ visits_of b.
Proof. apply omap_app. Qed.

(** What the presence path adds to the trace for a device with a
    syspath: one visit of that syspath. *)
Lemma processDevicePresence_visit (dev : udev_device) (sys : string) (w : World) :
  udev_device_get_syspath dev = Some sys →
  ∃ evs, (processDevicePresence dev w).1 = Ok tt
         ∧ trace (processDevicePresence dev w).2 = trace w ++ evs
         ∧ visits_of evs = [sys]
         ∧ only_hook DevicePresent evs
         ∧ writes_of evs = []
         ∧ sysfs (processDevicePresence dev w).2 = sysfs w.
Proof.
  intros Hsys.
  pose proof (processDevicePresence_cases dev sys w Hsys) as Hcase.
  destruct (LinuxDevice_new _ _ _) as [d|ex] eqn:Hnew; cbv zeta in Hcase;
    rewrite Hcase.
  - apply LinuxDevice_new_syspath in Hnew as [Hd _].
    rewrite Hsys in Hd. injection Hd as ->.
    eexists [_; _; _]. simpl. repeat split.
    unfold only_hook. simpl. by repeat constructor.
  - eexists [_]. simpl. repeat split. by constructor.
Qed.

Lemma udevEnumerateDevices_loop_cons (tree : gmap string udev_device)
      (dlentry : option string) (rest : list (option string)) (w : World) :
  udevEnumerateDevices_loop tree (dlentry :: rest) w
  = match udevEnumerateDevices_entry tree dlentry w with
    | (Ok _, w1) => udevEnumerateDevices_loop tree rest w1
    | (Throw e, w1) => (Throw e, w1)
    end.
Proof. reflexivity. Qed.

Lemma listed_usb_devices_cons (tree : gmap string udev_device)
      (dlentry : option string) (rest : list (option string)) :
  listed_usb_devices tree (dlentry :: rest)
  = listed_usb_devices tree [dlentry] ++ listed_usb_devices tree rest.
Proof. apply (omap_app _ [dlentry] rest). Qed.

Lemma udevEnumerateDevices_loop_visits (tree : gmap string udev_device)
      (devices : list (option string)) :
  tree_has_syspaths tree →
  ∀ w, ∃ evs, (udevEnumerateDevices_loop tree devices w).1 = Ok tt
              ∧ trace (udevEnumerateDevices_loop tree devices w).2 = trace w ++ evs
              ∧ visits_of evs = listed_usb_devices tree devices
              ∧ only_hook DevicePresent evs
              ∧ writes_of evs = []
              ∧ sysfs (udevEnumerateDevices_loop tree devices w).2 = sysfs w.
Proof.
  intros Htree. induction devices as [|dlentry rest IH]; intros w.
  - exists []. simpl. rewrite app_nil_r. repeat split. by constructor.
  - assert (∃ evs, (udevEnumerateDevices_entry tree dlentry w).1 = Ok tt
                   ∧ trace (udevEnumerateDevices_entry tree dlentry w).2
                     = trace w ++ evs
                   ∧ visits_of evs = listed_usb_devices tree [dlentry]
                   ∧ only_hook DevicePresent evs
                   ∧ writes_of evs = []
                   ∧ sysfs (udevEnumerateDevices_entry tree dlentry w).2 = sysfs w)
      as (evs1 & Hr1 & Ht1 & Hv1 & Hh1 & Hw1 & Hs1).
    { unfold udevEnumerateDevices_entry, listed_usb_devices. simpl omap.
      assert (∀ v, v = [] →
                ∃ evs, (@Ok unit tt, w).1 = Ok tt
                       ∧ trace (@Ok unit tt, w).2 = trace w ++ evs
                       ∧ visits_of evs = v
                       ∧ only_hook DevicePresent evs ∧ writes_of evs = []
                       ∧ sysfs (@Ok unit tt, w).2 = sysfs w) as Hskip.
      { intros v ->. exists []. simpl. rewrite app_nil_r. repeat split.
        by constructor. }
      destruct dlentry as [syspath|]; simpl; [|by apply Hskip].
      destruct (tree !! syspath) as [device|] eqn:Hdev; simpl; [|by apply Hskip].
      destruct (udev_device_get_devtype device) as [devtype|] eqn:Hty; simpl;
        [|by apply Hskip].
      destruct (String.eqb_spec devtype "usb_device") as [->|_]; [|by apply Hskip].
      destruct (Htree syspath device Hdev Hty) as [sys Hsys]. rewrite Hsys.
      by apply processDevicePresence_visit. }
    rewrite listed_usb_devices_cons, udevEnumerateDevices_loop_cons.
    destruct (udevEnumerateDevices_entry tree dlentry w) as [[[]|e] w1];
      simpl in Hr1, Ht1, Hs1; [|done].
    destruct (IH w1) as (evs2 & Hr2 & Ht2 & Hv2 & Hh2 & Hw2 & Hs2).
    exists (evs1 ++ evs2). rewrite Hr2, Ht2, Ht1, Hs2, Hs1, app_assoc.
    split; [done|]. split; [done|].
    split; [by rewrite visits_of_app, Hv1, Hv2|].
    split; [unfold only_hook in *; rewrite hooks_of_app; by apply Forall_app|].
    split; [by rewrite writes_of_app, Hw1, Hw2 | done].
Qed.

(** X21: when udev gives an enumeration handle and every USB device of
    its tree has a syspath, the enumeration at startup returns, and it
    handles every listed USB device once, in the order of the list: the
    syspaths for which it logged a failure or raised [DevicePresent] are
    exactly those of the listed USB devices.  So a device whose
    construction fails is logged and skipped, and the devices after it are
    still visited.  All it raises is [DevicePresent], and it writes
    nothing below /sys. *)
Theorem X21_enumeration_completes (devices : list (option string)) (w : World) :
  udev_enumerate w = Some devices →
  tree_has_syspaths (udev_tree w) →
  ∃ evs, (udevEnumerateDevices w).1 = Ok tt
         ∧ trace (udevEnumerateDevices w).2 = trace w ++ evs
         ∧ visits_of evs = listed_usb_devices (udev_tree w) devices
         ∧ only_hook DevicePresent evs
         ∧ writes_of evs = []
         ∧ sysfs (udevEnumerateDevices w).2 = sysfs w.
Proof.
  intros He Htree. unfold udevEnumerateDevices. munfold. rewrite He.
  by apply udevEnumerateDevices_loop_visits.
Qed.

(** The constructor on a device whose parent is a USB device that the
    manager has not registered. *)
Lemma LinuxDevice_new_unknown_parent (syspath_map : gmap string N) (fs : SysFS)
      (dev parent : udev_device) (psys : string) :
  udev_device_get_parent dev = Some parent →
  udev_device_get_devtype parent = Some "usb_device" →
  udev_device_get_syspath parent = Some psys →
  syspath_map !! psys = None →
  LinuxDevice_new syspath_map fs dev = Throw (out_of_range "map::at").
Proof.
  intros Hp Hty Hps Hmap. unfold LinuxDevice_new, getIDFromSysPath.
  rewrite Hp, Hps, Hty, Hmap. by rewrite bool_decide_eq_false_2 by (by intros []).
Qed.

(** X22: a USB device whose parent is a USB device that the manager has
    not registered (a device seen before its hub) cannot be constructed,
    whatever else udev and sysfs say about it: at startup it is logged and
    left out, on a hotplug "add" it is logged and rejected, and in both
    cases it is not registered. *)
Theorem X22_unregistered_parent (dev parent : udev_device) (sys psys : string)
        (w : World) :
  udev_device_get_syspath dev = Some sys →
  udev_device_get_parent dev = Some parent →
  udev_device_get_devtype parent = Some "usb_device" →
  udev_device_get_syspath parent = Some psys →
  _syspath_map w !! psys = None →
  processDevicePresence dev w
  = (Ok tt, set_trace (trace w ++ [EvLogError sys "map::at"]) w)
  ∧ trace (processDeviceInsertion dev w).2
    = trace w ++ [EvLogError sys "map::at";
                  EvApplyTarget sys Target.Reject;
                  EvSysioWrite (snprintf_path sys "remove") 1]
  ∧ device_map (processDeviceInsertion dev w).2 = device_map w
  ∧ _syspath_map (processDeviceInsertion dev w).2 = _syspath_map w.
Proof.
  intros Hsys Hp Hty Hps Hmap.
  pose proof (LinuxDevice_new_unknown_parent (_syspath_map w) (sysfs w)
                dev parent psys Hp Hty Hps Hmap) as Hnew.
  pose proof (processDevicePresence_cases dev sys w Hsys) as Hpres.
  pose proof (processDeviceInsertion_cases dev sys w Hsys) as Hins.
  rewrite Hnew in Hpres, Hins. cbv zeta in Hins.
  destruct Hins as (_ & Htr & Hm & Hs & _).
  done.
Qed.

End HotplugProperties.

Section TurnProperties.
Context `{!USBLibrary, !LinuxSysIO}.

Lemma thread_loop_timeouts (sels rest : list select_result) :
  Forall (λ sel, select_ret sel = 0) sels →
  ∀ (turns : nat) (w : World),
    stop_requested w = false →
    thread_loop (sels ++ rest) turns w
    = thread_loop rest (length sels + turns) w.
Proof.
  induction 1 as [|sel sels Hsel _ IH]; intros turns w Hstop; [done|].
  simpl. unfold Thread_stopRequested, thread_iteration. munfold.
  rewrite Hstop, Hsel. simpl. rewrite IH by done. f_equal. lia.
Qed.

(** X23: the turns of the worker in which [select] reports nothing.  A
    timeout changes nothing, so any run of timeouts leaves the worker where
    it was, only the turns counted; a failure of [select] (any return
    value other than 0, 1 or 2) sets the stop flag, changes nothing else,
    and the loop is left at the check that follows. *)
Theorem X23_idle_and_failed_turns (turns : nat) (w : World) :
  stop_requested w = false →
  (∀ sels rest,
     Forall (λ sel, select_ret sel = 0) sels →
     thread_loop (sels ++ rest) turns w
     = thread_loop rest (length sels + turns) w)
  ∧ (∀ sel rest,
       select_ret sel ≠ 0 → select_ret sel ≠ 1 → select_ret sel ≠ 2 →
       thread_loop (sel :: rest) turns w
       = (Ok (Some (S turns)), set_stop_requested true w)).
Proof.
  intros Hstop. split.
  - intros sels rest Hsels. by apply thread_loop_timeouts.
  - intros sel rest Hr0 Hr1 Hr2.
    simpl. unfold Thread_stopRequested, thread_iteration, Thread_stop. munfold.
    rewrite Hstop.
    apply Z.eqb_neq in Hr0, Hr1, Hr2. rewrite Hr0, Hr1, Hr2. simpl.
    by apply thread_loop_stop.
Qed.

End TurnProperties.

(** ** Witnesses for the further properties *)

Lemma reject_is_backend_operation :
  (Target.Reject, "remove", 1) ∈ backend_operations.
Proof. unfold backend_operations. rewrite !elem_of_cons. tauto. Qed.

Lemma X9_sysio_path_truncated_witness :
  @sysioApplyTarget sysio_short "/sys/bus/usb1" Target.Reject Example.world_good
  = (Throw (runtime_error "sysioWrite: cannot open file"),
     set_trace [EvApplyTarget "/sys/bus/usb1" Target.Reject;
                EvSysioWrite "/sys/bus/usb1/r" 1] Example.world_good)
  ∧ @sysioApplyTarget Example.sysio "/sys/bus/usb1" Target.Reject Example.world_good
    = (Ok tt,
       set_sysfs (<["/sys/bus/usb1/remove" := [49]]> (sysfs Example.world_good))
         (set_trace [EvApplyTarget "/sys/bus/usb1" Target.Reject;
                     EvSysioWrite "/sys/bus/usb1/remove" 1] Example.world_good)).
Proof.
  split.
  - rewrite (proj1 (@X9_sysio_path_truncated sysio_short "/sys/bus/usb1"
                      Target.Reject "remove" 1 Example.world_good
                      reject_is_backend_operation)).
    reflexivity.
  - rewrite (proj1 (@X9_sysio_path_truncated Example.sysio "/sys/bus/usb1"
                      Target.Reject "remove" 1 Example.world_good
                      reject_is_backend_operation)).
    reflexivity.
Defined.

Lemma X10_unserved_target_rejected_witness :
  device_map Example.world_registered !! 1%N = Some registered_hub
  ∧ (applyDevicePolicy 1 Target.Match Example.world_registered).1
    = Throw (runtime_error "Unknown rule target in applyDevicePolicy")
  ∧ sysfs (applyDevicePolicy 1 Target.Match Example.world_registered).2
    = sysfs Example.world_registered.
Proof.
  split; [reflexivity|].
  rewrite (X10_unserved_target_rejected 1 Target.Match Example.world_registered
             registered_hub eq_refl eq_refl).
  split; reflexivity.
Defined.

Lemma X13_last_applied_target_wins_witness :
  device_map Example.world_registered !! 1%N = Some registered_hub
  ∧ device_map
      (apply_each 1 [Target.Allow; Target.Block; Target.Match]
         (Example.world_registered)).2 !! 1%N
    = Some (setTarget Target.Block registered_hub).
Proof.
  split; [reflexivity|].
  pose proof (X13_last_applied_target_wins 1
                [Target.Allow; Target.Block; Target.Match]
                (Example.world_registered) registered_hub eq_refl) as Hlast.
  destruct (last _) as [t|] eqn:Ht; vm_compute in Ht; [|discriminate].
  injection Ht as <-. exact Hlast.
Defined.

Lemma X14_maps_consistent_invariant_witness :
  maps_consistent Example.world_registered
  ∧ maps_consistent (removeDevice "/sys/bus/usb1" Example.world_registered).2
  ∧ maps_consistent (thread [monitor_ready; select_failure] Example.world_registered).2.
Proof.
  split; [exact maps_consistent_world_registered|].
  destruct (X14_maps_consistent_invariant Example.world_registered
              maps_consistent_world_registered)
    as (_ & Hremove & _ & _ & _ & _ & _ & Hthread).
  split; [apply Hremove | apply Hthread].
Defined.

Lemma X15_insert_remove_round_trip_witness :
  maps_consistent Example.world_good
  ∧ _syspath_map Example.world_good !! getSysPath constructed_usb1 = None
  ∧ device_map
      (removeDevice (getSysPath constructed_usb1)
         (insertDevice constructed_usb1 Example.world_good).2).2 = ∅
  ∧ next_id
      (removeDevice (getSysPath constructed_usb1)
         (insertDevice constructed_usb1 Example.world_good).2).2 = 2%N.
Proof.
  split; [exact maps_consistent_world_good|]. split; [reflexivity|].
  destruct (X15_insert_remove_round_trip constructed_usb1 Example.world_good
              maps_consistent_world_good eq_refl)
    as (_ & _ & _ & Hm & _ & Hn).
  split; [exact Hm | exact Hn].
Defined.

Lemma X16_reinsertion_shadows_witness :
  maps_consistent Example.world_registered
  ∧ _syspath_map Example.world_registered !! getSysPath constructed_usb1 = Some 1%N
  ∧ is_Some
      (device_map
         (removeDevice (getSysPath constructed_usb1)
            (insertDevice constructed_usb1 Example.world_registered).2).2 !! 1%N)
  ∧ _syspath_map
      (removeDevice (getSysPath constructed_usb1)
         (insertDevice constructed_usb1 Example.world_registered).2).2
      !! "/sys/bus/usb1" ≠ Some 1%N.
Proof.
  split; [exact maps_consistent_world_registered|]. split; [reflexivity|].
  destruct (X16_reinsertion_shadows constructed_usb1 1 Example.world_registered
              maps_consistent_world_registered eq_refl)
    as (_ & _ & _ & _ & Hold & _ & Hunreachable).
  split; [exact Hold | apply Hunreachable].
Defined.

Lemma X17_processDeviceRemoval_outcomes_witness :
  maps_consistent Example.world_registered
  ∧ (processDeviceRemoval Example.usb1 Example.world_registered).1 = Ok tt
  ∧ hooks_of (trace (processDeviceRemoval Example.usb1 Example.world_registered).2)
    = hooks_of (trace Example.world_registered) ++ [(DeviceRemoved, registered_hub)].
Proof.
  split; [exact maps_consistent_world_registered|].
  destruct (X17_processDeviceRemoval_outcomes Example.usb1 Example.world_registered)
    as [Hok Hcase].
  split; [exact Hok|].
  specialize (Hcase maps_consistent_world_registered).
  destruct (_ ≫= _) as [[s id]|] eqn:Hs; vm_compute in Hs; [|discriminate].
  injection Hs as <- <-.
  destruct Hcase as (d & Hd & ->). vm_compute in Hd. injection Hd as <-.
  reflexivity.
Defined.

Lemma X18_processDeviceInsertion_result_witness :
  udev_device_get_syspath Example.usb1 = Some "/sys/bus/usb1"
  ∧ (processDeviceInsertion Example.usb1 world_bare).1
    = Throw (runtime_error "sysioWrite: cannot open file")
  ∧ (processDeviceInsertion Example.usb1 Example.world_short).1 = Ok tt.
Proof.
  split; [reflexivity|]. split.
  - rewrite (X18_processDeviceInsertion_result Example.usb1 "/sys/bus/usb1"
               world_bare eq_refl).
    reflexivity.
  - rewrite (X18_processDeviceInsertion_result Example.usb1 "/sys/bus/usb1"
               (Example.world_short) eq_refl).
    reflexivity.
Defined.

Lemma X19_failed_rejection_ends_worker_witness :
  stop_requested world_bare_add = false
  ∧ umon_queue world_bare_add = [Some Example.usb1]
  ∧ (thread_loop [monitor_ready; select_timeout] 0 world_bare_add).1
    = Throw (runtime_error "sysioWrite: cannot open file").
Proof.
  split; [reflexivity|]. split; [reflexivity|].
  exact (X19_failed_rejection_ends_worker Example.usb1 "/sys/bus/usb1" []
           (runtime_error "sysioWrite: cannot open file") [select_timeout] 0
           world_bare_add eq_refl eq_refl eq_refl eq_refl eq_refl eq_refl).
Defined.

Lemma X20_udevReceiveDevice_consumes_one_witness :
  udevReceiveDevice (set_umon_queue [Some usb1_change; Some Example.usb1]
                       (Example.world_registered))
  = (Ok tt, set_umon_queue [Some Example.usb1] Example.world_registered).
Proof.
  destruct (X20_udevReceiveDevice_consumes_one
              (set_umon_queue [Some usb1_change; Some Example.usb1]
                 (Example.world_registered))) as [_ Hdrop].
  exact (Hdrop usb1_change [Some Example.usb1] eq_refl
           ltac:(discriminate) ltac:(discriminate)).
Defined.

Lemma tree_hub_and_device_has_syspaths : tree_has_syspaths tree_hub_and_device.
Proof.
  intros s dev Hs _. unfold tree_hub_and_device in Hs.
  apply lookup_insert_Some in Hs as [[_ <-]|[_ Hs]]; [by eexists|].
  apply lookup_insert_Some in Hs as [[_ <-]|[_ Hs]]; [by eexists|].
  by rewrite lookup_empty in Hs.
Qed.

Lemma X21_enumeration_completes_witness :
  tree_has_syspaths (udev_tree world_enumerating)
  ∧ (udevEnumerateDevices world_enumerating).1 = Ok tt
  ∧ visits_of (trace (udevEnumerateDevices world_enumerating).2)
    = ["/sys/bus/usb1/1-1"; "/sys/bus/usb1"]
  ∧ sysfs (udevEnumerateDevices world_enumerating).2 = sysfs world_enumerating.
Proof.
  split; [exact tree_hub_and_device_has_syspaths|].
  destruct (X21_enumeration_completes _ world_enumerating eq_refl
              tree_hub_and_device_has_syspaths)
    as (evs & Hok & Htr & Hvisits & _ & _ & Hfs).
  split; [exact Hok|]. split; [|exact Hfs].
  rewrite Htr. exact Hvisits.
Defined.

Lemma X22_unregistered_parent_witness :
  udev_device_get_parent usb1_1 = Some Example.usb1
  ∧ _syspath_map Example.world_good !! "/sys/bus/usb1" = None
  ∧ processDevicePresence usb1_1 Example.world_good
    = (Ok tt, set_trace [EvLogError "/sys/bus/usb1/1-1" "map::at"] Example.world_good)
  ∧ device_map (processDeviceInsertion usb1_1 Example.world_good).2 = ∅.
Proof.
  split; [reflexivity|]. split; [reflexivity|].
  destruct (X22_unregistered_parent usb1_1 Example.usb1 "/sys/bus/usb1/1-1"
              "/sys/bus/usb1" Example.world_good eq_refl eq_refl eq_refl eq_refl
              eq_refl)
    as (Hpres & _ & Hm & _).
  split; [exact Hpres | exact Hm].
Defined.

Lemma X23_idle_and_failed_turns_witness :
  stop_requested Example.world_registered = false
  ∧ thread_loop ([select_timeout; select_timeout] ++ [select_failure; monitor_ready])
      0 Example.world_registered
    = (Ok (Some 3%nat), set_stop_requested true Example.world_registered).
Proof.
  split; [reflexivity|].
  destruct (@X23_idle_and_failed_turns Example.usb_library Example.sysio 0
              (Example.world_registered) eq_refl) as [Hidle _].
  rewrite (Hidle [select_timeout; select_timeout] [select_failure; monitor_ready]
             ltac:(by repeat constructor)).
  destruct (@X23_idle_and_failed_turns Example.usb_library Example.sysio 2
              (Example.world_registered) eq_refl) as [_ Hfail].
  exact (Hfail select_failure [monitor_ready]
           ltac:(discriminate) ltac:(discriminate) ltac:(discriminate)).
Defined.
